(** * Catalog feed synchronisation: a verified model

    A shallow embedding of the reconciliation and transfer core of the
    feed-to-catalog cron job ([ftpClient.js], [shopifyClient.js], [index.js])
    together with the properties its specification states about it.

    JavaScript strings are modelled as sequences of 8-bit code units (the
    Latin-1 range of UTF-16 code units); characters beyond U+00FF are outside
    the model.  Objects read from the feed are finite maps from column names to
    strings; numbers that the code keeps as IEEE doubles are [spec_float]
    values at binary64 precision. *)

From Stdlib Require Import ZArith List String Ascii Bool Lia Sorted.
From Stdlib Require Import Floats.SpecFloat.
From stdpp Require Import base option gmap strings list.

Import ListNotations.
Local Open Scope string_scope.
Local Open Scope list_scope.
Local Open Scope Z_scope.

(** ** Characters and strings as the JavaScript runtime sees them *)

Module JsString.

Definition code (c : ascii) : N := N_of_ascii c.

Definition in_range (lo hi : N) (c : ascii) : bool :=
  ((lo <=? code c) && (code c <=? hi))%N.

Definition is_digit (c : ascii) : bool := in_range 48 57 c.
Definition is_lower (c : ascii) : bool := in_range 97 122 c.
Definition is_upper (c : ascii) : bool := in_range 65 90 c.

(** The class [\s] of a JavaScript regular expression, restricted to the
    code units of the model: TAB, LF, VT, FF, CR, SPACE and NBSP. *)
Definition is_space (c : ascii) : bool :=
  in_range 9 13 c || (code c =? 32)%N || (code c =? 160)%N.

Definition is_hyphen (c : ascii) : bool := (code c =? 45)%N.

(** [String.prototype.toLowerCase] on one code unit: A-Z, and the Latin-1
    capitals U+00C0..U+00DE except the multiplication sign U+00D7. *)
Definition lower_char (c : ascii) : ascii :=
  if is_upper c then ascii_of_N (code c + 32)
  else if in_range 192 222 c && negb (code c =? 215)%N
       then ascii_of_N (code c + 32)
       else c.

Definition toLowerCase (s : list ascii) : list ascii := map lower_char s.

Definition chars (s : string) : list ascii := list_ascii_of_string s.
Definition str (l : list ascii) : string := string_of_list_ascii l.

Fixpoint skip_space (s : list ascii) : list ascii :=
  match s with
  | c :: rest => if is_space c then skip_space rest else s
  | [] => []
  end.

(** [s.trim()] *)
Definition trim (s : list ascii) : list ascii :=
  rev (skip_space (rev (skip_space s))).

(** [s.split(sep)] for a one-character separator: never an empty array. *)
Fixpoint split (sep : ascii) (s : list ascii) : list (list ascii) :=
  match s with
  | [] => [[]]
  | c :: rest =>
      if Ascii.eqb c sep then [] :: split sep rest
      else match split sep rest with
           | piece :: pieces => (c :: piece) :: pieces
           | [] => [[c]]
           end
  end.

Fixpoint starts_with (p s : list ascii) : bool :=
  match p, s with
  | [], _ => true
  | a :: p', b :: s' => Ascii.eqb a b && starts_with p' s'
  | _ :: _, [] => false
  end.

(** [s.includes(sub)] *)
Fixpoint includes (s sub : list ascii) : bool :=
  starts_with sub s ||
  match s with
  | _ :: rest => includes rest sub
  | [] => false
  end.

(** [pieces.join(sep)] *)
Fixpoint join (sep : list ascii) (pieces : list (list ascii)) : list ascii :=
  match pieces with
  | [] => []
  | [p] => p
  | p :: rest => p ++ sep ++ join sep rest
  end.

(** JavaScript truthiness of a possibly missing string property:
    [undefined] and the empty string are falsy. *)
Definition truthy (v : option string) : bool :=
  match v with
  | Some s => negb (String.eqb s "")
  | None => false
  end.

(** [a || b] on possibly missing strings. *)
Definition or_else (a b : option string) : option string :=
  if truthy a then a else b.

(** [a || 'literal'] *)
Definition or_default (a : option string) (literal : string) : string :=
  match or_else a (Some literal) with
  | Some s => s
  | None => literal
  end.

End JsString.

(** ** Numbers: IEEE binary64 values and the conversions the code uses *)

Module JsNumber.
Import JsString.

Definition prec : Z := 53.
Definition emax : Z := 1024.

Definition NaN : spec_float := S754_nan.

Definition isNaN (x : spec_float) : bool :=
  match x with S754_nan => true | _ => false end.

(** The double nearest to [m * 10^e] (ties to even), with the sign [neg]. *)
Definition of_decimal (neg : bool) (m : Z) (e : Z) : spec_float :=
  match m with
  | Zpos p =>
      if 0 <=? e
      then binary_round prec emax neg (p * Z.to_pos (10 ^ e)) 0
      else SFdiv prec emax (S754_finite neg p 0)
                           (S754_finite false (Z.to_pos (10 ^ (- e))) 0)
  | _ => S754_zero neg
  end.

Definition of_Z (z : Z) : spec_float := binary_normalize prec emax z 0 false.

(** [a !== b] on two numbers. *)
Definition strict_neq (a b : spec_float) : bool := negb (SFeqb a b).

Definition digit_value (c : ascii) : Z := Z.of_N (code c) - 48.

Definition digits_value (ds : list ascii) : Z :=
  fold_left (fun acc c => acc * 10 + digit_value c) ds 0.

Fixpoint span_digits (s : list ascii) : list ascii * list ascii :=
  match s with
  | c :: rest =>
      if is_digit c then let '(ds, tl) := span_digits rest in (c :: ds, tl)
      else ([], s)
  | [] => ([], [])
  end.

Definition read_sign (s : list ascii) : bool * list ascii :=
  match s with
  | "-"%char :: rest => (true, rest)
  | "+"%char :: rest => (false, rest)
  | _ => (false, s)
  end.

(** The exponent part [e±ddd], read only when a digit follows. *)
Definition read_exponent (s : list ascii) : Z :=
  match s with
  | c :: rest =>
      if Ascii.eqb c "e" || Ascii.eqb c "E" then
        let '(neg, rest') := read_sign rest in
        match span_digits rest' with
        | ([], _) => 0
        | (ds, _) => if neg then - digits_value ds else digits_value ds
        end
      else 0
  | [] => 0
  end.

(** The literal that follows the sign: [Infinity], or digits with an
    optional fraction and exponent. *)
Definition read_literal (neg : bool) (body : list ascii) : spec_float :=
  if starts_with (chars "Infinity") body then S754_infinity neg
  else
    let '(int_digits, rest) := span_digits body in
    let '(frac_digits, rest') :=
      match rest with
      | "."%char :: after => span_digits after
      | _ => ([], rest)
      end in
    match int_digits ++ frac_digits with
    | [] => NaN
    | ds => of_decimal neg (digits_value ds)
              (read_exponent rest' - Z.of_nat (length frac_digits))
    end.

(** [parseFloat(s)]: leading white space, sign, then the longest literal;
    [NaN] when no digit can be read. *)
Definition parseFloat (s : list ascii) : spec_float :=
  let '(neg, body) := read_sign (skip_space s) in
  read_literal neg body.

(** *** Printing *)

Definition digit_char (d : Z) : ascii := ascii_of_N (Z.to_N (48 + d)).

Fixpoint decimal_digits (fuel : nat) (n : Z) (acc : list ascii) : list ascii :=
  let acc' := digit_char (n mod 10) :: acc in
  match fuel with
  | O => acc'
  | S fuel' => if n <? 10 then acc' else decimal_digits fuel' (n / 10) acc'
  end.

(** The decimal digits of a natural number, most significant first. *)
Definition Z_to_digits (n : Z) : list ascii :=
  decimal_digits (Z.to_nat (Z.log2 n)) n [].

(** The integer nearest to [m * 2^e * 100], the larger one on a tie. *)
Definition scaled_round (m : positive) (e : Z) : Z :=
  if 0 <=? e then Zpos m * 2 ^ e * 100
  else (2 * (Zpos m * 100) + 2 ^ (- e)) / 2 ^ (- e + 1).

(** [x.toFixed(2)].  For magnitudes of 1e21 and more the runtime switches
    to exponent notation; the model keeps plain digits there. *)
Definition toFixed2 (x : spec_float) : list ascii :=
  match x with
  | S754_nan => chars "NaN"
  | S754_infinity s => chars (if s then "-Infinity" else "Infinity")
  | S754_zero _ => chars "0.00"
  | S754_finite s m e =>
      let n := scaled_round m e in
      (if s then ["-"%char] else []) ++
      Z_to_digits (n / 100) ++
      ["."%char; digit_char (n mod 100 / 10); digit_char (n mod 10)]
  end.

(** [Math.round(x)]: the nearest integer, ties towards positive infinity;
    a result of zero keeps the sign of [x]. *)
Definition round (x : spec_float) : spec_float :=
  match x with
  | S754_finite s m e =>
      if 0 <=? e then x
      else
        let sm := if s then Zneg m else Zpos m in
        let n := (2 * sm + 2 ^ (- e)) / 2 ^ (- e + 1) in
        if n =? 0 then S754_zero s else of_Z n
  | _ => x
  end.

Definition mul (a b : spec_float) : spec_float := SFmul prec emax a b.

(** *** [parseInt(s)] with no radix: white space, sign, an optional [0x]
    prefix, then the longest run of digits; [None] stands for [NaN]. *)
Definition hex_value (c : ascii) : option Z :=
  if is_digit c then Some (digit_value c)
  else if in_range 97 102 c then Some (Z.of_N (code c) - 87)
  else if in_range 65 70 c then Some (Z.of_N (code c) - 55)
  else None.

Fixpoint read_hex (s : list ascii) (acc : option Z) : option Z :=
  match s with
  | c :: rest =>
      match hex_value c with
      | Some d => read_hex rest (Some (default 0 acc * 16 + d))
      | None => acc
      end
  | [] => acc
  end.

Definition parseInt (s : list ascii) : option Z :=
  let '(neg, body) := read_sign (skip_space s) in
  let magnitude :=
    if starts_with (chars "0x") body || starts_with (chars "0X") body
    then read_hex (drop 2 body) None
    else match span_digits body with
         | ([], _) => None
         | (ds, _) => Some (digits_value ds)
         end in
  (fun v => if neg then - v else v) <$> magnitude.
End JsNumber.

(** ** Handle generation ([generateHandle]) *)

Module Handle.
Import JsString.

(** [.replace(/[^a-z0-9\s-]/g, '')] *)
Definition keep_char (c : ascii) : bool :=
  is_lower c || is_digit c || is_space c || is_hyphen c.

Definition strip_special (s : list ascii) : list ascii :=
  List.filter keep_char s.

Definition hyphen : ascii := "-"%char.

(** [.replace(/\s+/g, '-')]: every maximal run of white space becomes one
    hyphen. *)
Fixpoint spaces_to_hyphen (s : list ascii) : list ascii :=
  match s with
  | [] => []
  | c :: rest =>
      if is_space c then
        match rest with
        | d :: _ => if is_space d then spaces_to_hyphen rest
                    else hyphen :: spaces_to_hyphen rest
        | [] => [hyphen]
        end
      else c :: spaces_to_hyphen rest
  end.

(** [.replace(/-+/g, '-')]: every maximal run of hyphens becomes one. *)
Fixpoint collapse_hyphens (s : list ascii) : list ascii :=
  match s with
  | [] => []
  | c :: rest =>
      if is_hyphen c then
        match rest with
        | d :: _ => if is_hyphen d then collapse_hyphens rest
                    else c :: collapse_hyphens rest
        | [] => [c]
        end
      else c :: collapse_hyphens rest
  end.

(** [.replace(/^-|-$/g, '')]: one hyphen at the start and one at the end,
    the second looked for in what follows the first. *)
Definition drop_leading (s : list ascii) : list ascii :=
  match s with
  | c :: rest => if is_hyphen c then rest else s
  | [] => []
  end.

Fixpoint drop_trailing (s : list ascii) : list ascii :=
  match s with
  | [] => []
  | [c] => if is_hyphen c then [] else [c]
  | c :: rest => c :: drop_trailing rest
  end.

Definition trim_hyphens (s : list ascii) : list ascii :=
  drop_trailing (drop_leading s).

Definition slug_chars (s : list ascii) : list ascii :=
  take 100 (trim_hyphens (collapse_hyphens (spaces_to_hyphen
    (strip_special (toLowerCase s))))).

(** [generateHandle(title)]: a falsy title gives the fixed handle. *)
Definition generateHandle (title : string) : string :=
  if String.eqb title "" then "product"
  else str (slug_chars (chars title)).

Definition ends_with_hyphen (s : string) : bool :=
  match last (chars s) with
  | Some c => is_hyphen c
  | None => false
  end.

(** The alphabet and shape of a finished handle. *)
Definition clean (c : ascii) : bool := is_lower c || is_digit c || is_hyphen c.

Fixpoint single_hyphens (s : list ascii) : Prop :=
  match s with
  | c :: rest =>
      match rest with
      | d :: _ => (is_hyphen c && is_hyphen d = false) /\ single_hyphens rest
      | [] => True
      end
  | [] => True
  end.

Definition no_leading_hyphen (s : list ascii) : Prop :=
  match s with
  | c :: _ => is_hyphen c = false
  | [] => True
  end.

Definition finished (s : list ascii) : Prop :=
  Forall (fun c => clean c = true) s /\ single_hyphens s /\
  no_leading_hyphen s /\ (length s <= 100)%nat.

(** A title of 99 letters followed by a space and one more letter. *)
Definition long_title : string :=
  str (repeat "a"%char 99) +:+ " b".

End Handle.

(** ** Record normaliser ([mapCSVToShopifyProduct])

    A feed row is a finite map from column names to strings; a column that
    the row lacks reads as [undefined].  The fields that neither the
    comparator nor the patch builder reads (vendor, metafields, the taxonomy
    category, the SEO texts, the variant option label) are left out. *)

Module Normalizer.
Import JsString JsNumber.

Record Variant := {
  sku : string;
  barcode : string;
  price : string;
  compare_at_price : option string;      (* [null] without an MSRP *)
  inventory_quantity : Z;
  weight : spec_float
}.

Record Image := { src : string; alt : option string }.

Record ProductData := {
  title : string;
  handle : string;
  body_html : string;
  product_type : string;
  status : string;
  tags : string;
  variants : list Variant;
  images : list Image;
  product_category_id : option string    (* never set by the normaliser *)
}.

(** [/[^\d.-]/g] keeps digits, dots and hyphens. *)
Definition numeric_char (c : ascii) : bool :=
  is_digit c || Ascii.eqb c "." || Ascii.eqb c "-".

Definition parsePrice (priceStr : option string) : string :=
  match priceStr with
  | Some s =>
      if truthy priceStr then
        let price := parseFloat (List.filter numeric_char (chars s)) in
        if isNaN price then "0.00" else str (toFixed2 price)
      else "0.00"
  | None => "0.00"
  end.

Definition ounce_to_gram : spec_float := of_decimal false 2835 (-2).

Definition parseWeight (weightStr : option string) : spec_float :=
  match weightStr with
  | Some s =>
      if truthy weightStr then
        let weight := parseFloat (List.filter numeric_char (chars s)) in
        if isNaN weight then S754_zero false else round (mul weight ounce_to_gram)
      else S754_zero false
  | None => S754_zero false
  end.

(** [parseInt(v) || 0]: [NaN] and zero both give zero. *)
Definition parseQuantity (v : option string) : Z :=
  match v with
  | Some s => default 0 (parseInt (chars s))
  | None => 0
  end.

Definition createVariant (csvItem : gmap string string) : Variant :=
  {| sku := or_default (csvItem !! "Item") "";
     barcode := or_default (csvItem !! "UPC") "";
     price := parsePrice (or_else (csvItem !! "MSRP") (csvItem !! "ContractPrice"));
     compare_at_price :=
       if truthy (csvItem !! "MSRP") then Some (parsePrice (csvItem !! "MSRP")) else None;
     inventory_quantity := parseQuantity (csvItem !! "Qty_Avail");
     weight := parseWeight (csvItem !! "Weight") |}.

(** A conditional piece of text: [if (v) { text += f(v) }]. *)
Definition when_present (v : option string) (f : string -> string) : string :=
  match v with
  | Some s => if truthy v then f s else ""
  | None => ""
  end.

Definition dquote : string := String (ascii_of_nat 34) EmptyString.

Definition spec_line (spec : list ascii) : string :=
  match trim spec with
  | [] => ""
  | t => "• " +:+ str t +:+ "<br>"
  end.

Definition generateProductDescription (csvItem : gmap string string) : string :=
  let description :=
    when_present (csvItem !! "Description") (fun d => "<h3>" +:+ d +:+ "</h3>") +:+
    when_present (csvItem !! "Metal_Desc")
      (fun m => "<p><strong>Material:</strong> " +:+ m +:+ "</p>") +:+
    when_present (csvItem !! "Weight")
      (fun w => "<p><strong>Weight:</strong> " +:+ w +:+ "g</p>") +:+
    (if truthy (csvItem !! "Length") && truthy (csvItem !! "Width") then
       "<p><strong>Dimensions:</strong> " +:+ default "" (csvItem !! "Length") +:+
       dquote +:+ " x " +:+ default "" (csvItem !! "Width") +:+ dquote +:+ "</p>"
     else
       when_present (csvItem !! "Length")
         (fun l => "<p><strong>Length:</strong> " +:+ l +:+ dquote +:+ "</p>")) +:+
    when_present (csvItem !! "ListOfSpecs")
      (fun specs =>
         "<div><strong>Specifications:</strong><br>" +:+
         foldr (fun spec text => spec_line spec +:+ text) ""
               (split "|" (chars specs)) +:+
         "</div>") in
  if String.eqb description "" then "<p>Quality jewelry piece</p>" else description.

Definition has (s : list ascii) (keyword : string) : bool := includes s (chars keyword).

Definition extractProductType (csvItem : gmap string string) : string :=
  match csvItem !! "Categories" with
  | Some categories =>
      if truthy (Some categories) then
        let first := match split ";" (chars categories) with
                     | c :: _ => c
                     | [] => []
                     end in
        let cleanCategories := toLowerCase first in
        if has cleanCategories "necklaces" || has cleanCategories "chains" then "Necklaces"
        else if has cleanCategories "earrings" then "Earrings"
        else if has cleanCategories "bracelets" then "Bracelets"
        else if has cleanCategories "anklets" then "Anklets"
        else if has cleanCategories "rings" then "Rings"
        else if has cleanCategories "pendants" || has cleanCategories "charms"
             then "Pendants & Charms"
        else if has cleanCategories "watch accessories" || has cleanCategories "watch bands"
             then "Watch Accessories"
        else if has cleanCategories "watches" then "Watches"
        else if has cleanCategories "brooches" || has cleanCategories "lapel pins"
             then "Brooches & Pins"
        else if has cleanCategories "jewelry sets" || has cleanCategories "sets"
             then "Jewelry Sets"
        else if has cleanCategories "body jewelry" then "Body Jewelry"
        else "Jewelry"
      else "Jewelry"
  | None => "Jewelry"
  end.

Definition non_blank (s : list ascii) : bool :=
  match trim s with [] => false | _ => true end.

Definition generateTags (csvItem : gmap string string) : string :=
  let metal := match csvItem !! "Metal_Desc" with
               | Some m => if truthy (Some m) then [chars m] else []
               | None => []
               end in
  let attributes := match csvItem !! "Attributes" with
                    | Some a => if truthy (Some a)
                                then List.filter non_blank (split ";" (chars a))
                                else []
                    | None => []
                    end in
  let line := match csvItem !! "ProductLine" with
              | Some l => if truthy (Some l) then [chars l] else []
              | None => []
              end in
  str (join (chars ", ") (metal ++ attributes ++ line)).

(** [`${v}`] of a possibly missing string. *)
Definition interpolate (v : option string) : string :=
  match v with Some s => s | None => "undefined" end.

Definition view_image (csvItem : gmap string string) (i : string) : list Image :=
  match csvItem !! ("Image" +:+ i +:+ "Link") with
  | Some imageLink =>
      if truthy (Some imageLink) && non_blank (chars imageLink) then
        [{| src := imageLink;
            alt := Some (interpolate (or_else (csvItem !! "Description") (csvItem !! "Item"))
                         +:+ " - View " +:+ i) |}]
      else []
  | None => []
  end.

Definition createImages (csvItem : gmap string string) : list Image :=
  (match csvItem !! "ImageLink_1000" with
   | Some link =>
       if truthy (Some link)
       then [{| src := link;
                alt := or_else (csvItem !! "Description") (csvItem !! "Item") |}]
       else []
   | None => []
   end) ++
  flat_map (view_image csvItem) ["1"; "2"; "3"; "4"; "5"; "6"; "7"; "8"; "9"].

Definition mapCSVToShopifyProduct (csvItem : gmap string string) : ProductData :=
  {| title := or_default (or_else (csvItem !! "Description") (csvItem !! "Item"))
                "Untitled Product";
     handle := Handle.generateHandle
                 (default "" (or_else (csvItem !! "Description") (csvItem !! "Item")));
     body_html := generateProductDescription csvItem;
     product_type := extractProductType csvItem;
     status := if decide (csvItem !! "Status" = Some "Active") then "active" else "draft";
     tags := generateTags csvItem;
     variants := [createVariant csvItem];
     images := createImages csvItem;
     product_category_id := None |}.

End Normalizer.

(** ** Reconciliation: the comparator, the patch builder and the matcher *)

Module Reconcile.
Import JsString JsNumber Normalizer.

(** The catalog's own representation, as the API returns it. *)
Record ExistingVariant := {
  ev_id : Z;
  ev_sku : option string;
  ev_barcode : option string;
  ev_price : string;
  ev_compare_at_price : option string;
  ev_inventory_quantity : option Z;
  ev_weight : spec_float
}.

Record ExistingProduct := {
  ep_id : Z;
  ep_title : string;
  ep_body_html : option string;
  ep_product_type : string;
  ep_tags : string;
  ep_status : string;
  ep_product_category_id : option string;
  ep_variants : list ExistingVariant;     (* empty when the property is missing *)
  ep_images : list string                 (* the [src] of each image *)
}.

(** The names pushed on [changes]. *)
Inductive Change :=
| title_ | description_ | product_type_ | tags_ | status_ | category_
| price_ | compare_price_ | inventory_ | sku_ | barcode_ | weight_ | images_.

#[global] Instance Change_eq_dec : EqDecision Change.
Proof. solve_decision. Defined.

Definition is_variant_change (c : Change) : bool :=
  match c with
  | price_ | compare_price_ | inventory_ | sku_ | barcode_ | weight_ => true
  | _ => false
  end.

(** [array.sort()] on strings: ascending by code units. *)
Fixpoint insert_string (x : string) (sorted : list string) : list string :=
  match sorted with
  | [] => [x]
  | y :: ys => if String.ltb y x then y :: insert_string x ys else x :: y :: ys
  end.

Definition sort_strings (l : list string) : list string := foldr insert_string [] l.

Definition changed (b : bool) (c : Change) : list Change := if b then [c] else [].

(** [parseFloat(existing || 0)] *)
Definition parseFloat_or_zero (v : option string) : spec_float :=
  match v with
  | Some s => if truthy v then parseFloat (chars s) else S754_zero false
  | None => S754_zero false
  end.

(** The comparison of the first variants.  Quantities are integers, on
    which [parseInt] is the identity (below 1e21). *)
Definition compareVariants (csvVariant : Variant) (existingVariant : ExistingVariant)
    : list Change :=
  changed (strict_neq (parseFloat (chars (price csvVariant)))
                      (parseFloat (chars (ev_price existingVariant)))) price_ ++
  changed (match compare_at_price csvVariant with
           | Some cap =>
               truthy (Some cap) &&
               strict_neq (parseFloat (chars cap))
                          (parseFloat_or_zero (ev_compare_at_price existingVariant))
           | None => false
           end) compare_price_ ++
  changed (negb (inventory_quantity csvVariant =?
                 default 0 (ev_inventory_quantity existingVariant))) inventory_ ++
  changed (negb (bool_decide (Some (sku csvVariant) = ev_sku existingVariant))) sku_ ++
  changed (negb (bool_decide (Some (barcode csvVariant) = ev_barcode existingVariant)))
          barcode_ ++
  changed (strict_neq (weight csvVariant) (ev_weight existingVariant)) weight_.

(** The body of [doesProductNeedUpdate] once the row has been mapped. *)
Definition compareProducts (csvProductData : ProductData)
    (existingProduct : ExistingProduct) : list Change :=
  changed (negb (String.eqb (title csvProductData) (ep_title existingProduct))) title_ ++
  changed (negb (bool_decide (Some (body_html csvProductData) =
                              ep_body_html existingProduct))) description_ ++
  changed (negb (String.eqb (product_type csvProductData)
                            (ep_product_type existingProduct))) product_type_ ++
  changed (negb (String.eqb (tags csvProductData) (ep_tags existingProduct))) tags_ ++
  changed (negb (String.eqb (status csvProductData) (ep_status existingProduct))) status_ ++
  changed (truthy (product_category_id csvProductData) &&
           negb (bool_decide (product_category_id csvProductData =
                              ep_product_category_id existingProduct))) category_ ++
  match ep_variants existingProduct, variants csvProductData with
  | existingVariant :: _, csvVariant :: _ => compareVariants csvVariant existingVariant
  | _, _ => []
  end ++
  changed (negb (bool_decide (sort_strings (ep_images existingProduct) =
                              sort_strings (src <$> images csvProductData)))) images_.

(** [doesProductNeedUpdate(csvItem, existingProduct).changes]; [hasChanges]
    is [changes.length > 0]. *)
Definition doesProductNeedUpdate (csvItem : gmap string string)
    (existingProduct : ExistingProduct) : list Change :=
  compareProducts (mapCSVToShopifyProduct csvItem) existingProduct.

(** The 2-decimal rendering of a price string, as the normaliser produces
    it: the number read by [parseFloat], printed by [toFixed(2)]. *)
Definition render2 (priceStr : string) : string :=
  str (toFixed2 (parseFloat (chars priceStr))).

(** *** The patch sent to the update primitive *)

Record VariantUpdate := {
  vu_id : Z;
  vu_price : option string;
  vu_compare_at_price : option (option string);
  vu_inventory_quantity : option Z;
  vu_sku : option string;
  vu_barcode : option string;
  vu_weight : option spec_float
}.

Record UpdateData := {
  u_id : Z;
  u_title : option string;
  u_body_html : option string;
  u_product_type : option string;
  u_tags : option string;
  u_status : option string;
  u_product_category_id : option (option string);
  u_images : option (list Image);
  u_variants : option (list VariantUpdate)
}.

Definition empty_patch (id : Z) : UpdateData :=
  {| u_id := id; u_title := None; u_body_html := None; u_product_type := None;
     u_tags := None; u_status := None; u_product_category_id := None;
     u_images := None; u_variants := None |}.

(** [{ id: existingProduct.variants[0].id }] with the one property that
    [change] names. *)
Definition variantUpdate (id : Z) (csvVariant : Variant) (change : Change) : VariantUpdate :=
  {| vu_id := id;
     vu_price := if decide (change = price_) then Some (price csvVariant) else None;
     vu_compare_at_price :=
       if decide (change = compare_price_) then Some (compare_at_price csvVariant) else None;
     vu_inventory_quantity :=
       if decide (change = inventory_) then Some (inventory_quantity csvVariant) else None;
     vu_sku := if decide (change = sku_) then Some (sku csvVariant) else None;
     vu_barcode := if decide (change = barcode_) then Some (barcode csvVariant) else None;
     vu_weight := if decide (change = weight_) then Some (weight csvVariant) else None |}.

Definition set_variants (v : option (list VariantUpdate)) (u : UpdateData) : UpdateData :=
  {| u_id := u_id u; u_title := u_title u; u_body_html := u_body_html u;
     u_product_type := u_product_type u; u_tags := u_tags u; u_status := u_status u;
     u_product_category_id := u_product_category_id u; u_images := u_images u;
     u_variants := v |}.

(** One turn of the [changes.forEach] loop of [buildUpdateData]. *)
Definition applyChange (csvProductData : ProductData) (existingProduct : ExistingProduct)
    (updateData : UpdateData) (change : Change) : UpdateData :=
  match change with
  | title_ =>
      {| u_id := u_id updateData; u_title := Some (title csvProductData);
         u_body_html := u_body_html updateData;
         u_product_type := u_product_type updateData; u_tags := u_tags updateData;
         u_status := u_status updateData;
         u_product_category_id := u_product_category_id updateData;
         u_images := u_images updateData; u_variants := u_variants updateData |}
  | description_ =>
      {| u_id := u_id updateData; u_title := u_title updateData;
         u_body_html := Some (body_html csvProductData);
         u_product_type := u_product_type updateData; u_tags := u_tags updateData;
         u_status := u_status updateData;
         u_product_category_id := u_product_category_id updateData;
         u_images := u_images updateData; u_variants := u_variants updateData |}
  | product_type_ =>
      {| u_id := u_id updateData; u_title := u_title updateData;
         u_body_html := u_body_html updateData;
         u_product_type := Some (product_type csvProductData);
         u_tags := u_tags updateData; u_status := u_status updateData;
         u_product_category_id := u_product_category_id updateData;
         u_images := u_images updateData; u_variants := u_variants updateData |}
  | tags_ =>
      {| u_id := u_id updateData; u_title := u_title updateData;
         u_body_html := u_body_html updateData;
         u_product_type := u_product_type updateData;
         u_tags := Some (tags csvProductData); u_status := u_status updateData;
         u_product_category_id := u_product_category_id updateData;
         u_images := u_images updateData; u_variants := u_variants updateData |}
  | status_ =>
      {| u_id := u_id updateData; u_title := u_title updateData;
         u_body_html := u_body_html updateData;
         u_product_type := u_product_type updateData; u_tags := u_tags updateData;
         u_status := Some (status csvProductData);
         u_product_category_id := u_product_category_id updateData;
         u_images := u_images updateData; u_variants := u_variants updateData |}
  | category_ =>
      {| u_id := u_id updateData; u_title := u_title updateData;
         u_body_html := u_body_html updateData;
         u_product_type := u_product_type updateData; u_tags := u_tags updateData;
         u_status := u_status updateData;
         u_product_category_id := Some (product_category_id csvProductData);
         u_images := u_images updateData; u_variants := u_variants updateData |}
  | images_ =>
      {| u_id := u_id updateData; u_title := u_title updateData;
         u_body_html := u_body_html updateData;
         u_product_type := u_product_type updateData; u_tags := u_tags updateData;
         u_status := u_status updateData;
         u_product_category_id := u_product_category_id updateData;
         u_images := Some (images csvProductData); u_variants := u_variants updateData |}
  | price_ | compare_price_ | inventory_ | sku_ | barcode_ | weight_ =>
      let started :=
        match u_variants updateData with
        | Some vs => Some vs
        | None => Some []
        end in
      match ep_variants existingProduct, variants csvProductData with
      | existingVariant :: _, csvVariant :: _ =>
          set_variants
            (Some [variantUpdate (ev_id existingVariant) csvVariant change]) updateData
      | _, _ => set_variants started updateData
      end
  end.

Definition buildUpdateData (csvProductData : ProductData)
    (existingProduct : ExistingProduct) (changes : list Change) : UpdateData :=
  foldl (applyChange csvProductData existingProduct)
        (empty_patch (ep_id existingProduct)) changes.

(** The variant-level properties a patch carries, over all its variant
    entries. *)
Definition variant_fields (v : VariantUpdate) : list Change :=
  changed (bool_decide (is_Some (vu_price v))) price_ ++
  changed (bool_decide (is_Some (vu_compare_at_price v))) compare_price_ ++
  changed (bool_decide (is_Some (vu_inventory_quantity v))) inventory_ ++
  changed (bool_decide (is_Some (vu_sku v))) sku_ ++
  changed (bool_decide (is_Some (vu_barcode v))) barcode_ ++
  changed (bool_decide (is_Some (vu_weight v))) weight_.

(** Every property a patch carries besides the identifiers. *)
Definition patch_fields (u : UpdateData) : list Change :=
  changed (bool_decide (is_Some (u_title u))) title_ ++
  changed (bool_decide (is_Some (u_body_html u))) description_ ++
  changed (bool_decide (is_Some (u_product_type u))) product_type_ ++
  changed (bool_decide (is_Some (u_tags u))) tags_ ++
  changed (bool_decide (is_Some (u_status u))) status_ ++
  changed (bool_decide (is_Some (u_product_category_id u))) category_ ++
  flat_map variant_fields (default [] (u_variants u)) ++
  changed (bool_decide (is_Some (u_images u))) images_.

(** *** Matching rows against the snapshot *)

(** The two lookup maps of [processProductsFromCSV]; later products
    overwrite earlier ones. *)
Definition indexByTitle (existingProducts : list ExistingProduct)
    : gmap string ExistingProduct :=
  foldl (fun m product => <[str (toLowerCase (chars (ep_title product))) := product]> m)
        ∅ existingProducts.

Definition indexBySku (existingProducts : list ExistingProduct)
    : gmap string ExistingProduct :=
  foldl (fun m product =>
           foldl (fun m' variant =>
                    match ev_sku variant with
                    | Some s => if truthy (Some s)
                                then <[str (toLowerCase (chars s)) := product]> m'
                                else m'
                    | None => m'
                    end) m (ep_variants product))
        ∅ existingProducts.

Definition lower (s : string) : string := str (toLowerCase (chars s)).

(** The existing product a row matches: by SKU first, then by title. *)
Definition findExisting (bySku byTitle : gmap string ExistingProduct)
    (csvItem : gmap string string) : option ExistingProduct :=
  let sku := lower <$> csvItem !! "Item" in
  let title := lower (or_default (or_else (csvItem !! "Description") (csvItem !! "Item")) "") in
  match (if truthy sku then bySku !! default "" sku else None) with
  | Some product => Some product
  | None => if truthy (Some title) then byTitle !! title else None
  end.

(** The entries handed to the dispatcher. *)
Inductive Item :=
| create (csvItem : gmap string string)
| update (csvItem : gmap string string) (existingProduct : ExistingProduct)
         (changes : list Change).

Definition csvItem_of (item : Item) : gmap string string :=
  match item with create c => c | update c _ _ => c end.

(** [categorizeProducts]: the rows to create and the rows to update, each
    in feed order. *)
Definition categorizeProducts (csvData : list (gmap string string))
    (bySku byTitle : gmap string ExistingProduct) (enableUpdates : bool)
    : list Item * list Item :=
  foldl (fun '(productsToCreate, productsToUpdate) csvItem =>
           match findExisting bySku byTitle csvItem with
           | Some existingProduct =>
               if enableUpdates then
                 match doesProductNeedUpdate csvItem existingProduct with
                 | [] => (productsToCreate, productsToUpdate)
                 | changes => (productsToCreate,
                               productsToUpdate ++ [update csvItem existingProduct changes])
                 end
               else (productsToCreate, productsToUpdate)
           | None => (productsToCreate ++ [create csvItem], productsToUpdate)
           end)
        ([], []) csvData.

End Reconcile.

(** ** Batch dispatcher ([processProductsFromCSV] and its batch routines)

    What the dispatcher does to the outside world is kept as a trace: one
    entry for each batch announced, each request issued to the catalog API
    and each pause.  The API itself is an interface; the answer to a request
    may depend on everything that happened before it was issued. *)

Module Dispatch.
Import JsString JsNumber Normalizer Reconcile.

Inductive Event :=
| BatchStart (items : nat)
| NetCreate (productData : ProductData)
| NetUpdate (productId : Z) (updateData : UpdateData)
| Delay (ms : Z).

(** The catalog API collaborator: the created or updated product, or the
    message of the error thrown. *)
Class CatalogApi := {
  createProduct : list Event -> ProductData -> ExistingProduct + string;
  updateProduct : list Event -> Z -> UpdateData -> ExistingProduct + string
}.

Inductive ResultType := created_ | updated_ | dry_run_create | dry_run_update.

Inductive Payload :=
| FromApi (product : ExistingProduct)
| Draft (productData : ProductData)
| Patch (updateData : UpdateData).

(** [{ success: true, type, product }] *)
Record ItemResult := { type : ResultType; product : Payload }.

(** [{ csvItem, error }] *)
Record ErrorDetail := { csvItem : string; error : string }.

Record Results := {
  total : nat;
  created : nat;
  updated : nat;
  skipped : nat;
  errors : nat;
  createdProducts : list Payload;
  updatedProducts : list Payload;
  errorDetails : list ErrorDetail
}.

Record Run := { results : Results; trace : list Event }.

Definition is_network (e : Event) : bool :=
  match e with NetCreate _ | NetUpdate _ _ => true | _ => false end.

Definition is_batch_start (e : Event) : bool :=
  match e with BatchStart _ => true | _ => false end.

Definition is_delay (e : Event) : bool :=
  match e with Delay _ => true | _ => false end.

Definition accounted (r : Results) : nat :=
  (created r + updated r + skipped r + errors r)%nat.

Definition batches_announced (history : list Event) : nat :=
  length (List.filter is_batch_start history).

Definition requests_issued (history : list Event) : list Event :=
  List.filter is_network history.

(** [Math.ceil(n / b)] for a positive [b]. *)
Definition ceil_div (n b : Z) : Z := (n + b - 1) / b.

(** The result types that the tallies count. *)
Definition counted (t : ResultType) : Prop := t = created_ \/ t = updated_.

(** Batches and items still ahead of the loop when its counter is [i]. *)
Definition batches_ahead (n b i : Z) : nat :=
  if i <? n then Z.to_nat (ceil_div (n - i) b) else 0%nat.

Definition items_ahead (n i : Z) : nat := Z.to_nat (n - i).

(** Events that announce no batch and, in a dry run, reach no network. *)
Definition quiet (dry : bool) (added : list Event) : Prop :=
  Forall (fun e => is_batch_start e = false) added /\
  (dry = true -> Forall (fun e => is_network e = false) added).

Definition is_create (item : Item) : bool :=
  match item with create _ => true | update _ _ _ => false end.

Section WithApi.
Context {api : CatalogApi}.

(** [processCreateItem]: the result or the error thrown, and the trace. *)
Definition processCreateItem (csvItem : gmap string string) (dryRun : bool)
    (history : list Event) : (ItemResult + string) * list Event :=
  let productData := mapCSVToShopifyProduct csvItem in
  if dryRun then
    (inl {| type := dry_run_create; product := Draft productData |}, history)
  else
    match createProduct history productData with
    | inl createdProduct =>
        (inl {| type := created_; product := FromApi createdProduct |},
         history ++ [NetCreate productData])
    | inr message => (inr message, history ++ [NetCreate productData])
    end.

Definition processUpdateItem (csvItem : gmap string string)
    (existingProduct : ExistingProduct) (changes : list Change) (dryRun : bool)
    (history : list Event) : (ItemResult + string) * list Event :=
  let csvProductData := mapCSVToShopifyProduct csvItem in
  let updateData := buildUpdateData csvProductData existingProduct changes in
  if dryRun then
    (inl {| type := dry_run_update; product := Patch updateData |}, history)
  else
    match updateProduct history (ep_id existingProduct) updateData with
    | inl updatedProduct =>
        (inl {| type := updated_; product := FromApi updatedProduct |},
         history ++ [NetUpdate (ep_id existingProduct) updateData])
    | inr message =>
        (inr message, history ++ [NetUpdate (ep_id existingProduct) updateData])
    end.

(** The dispatch on [item.action] common to both batch routines. *)
Definition processItem (item : Item) (dryRun : bool) (history : list Event)
    : (ItemResult + string) * list Event :=
  match item with
  | create csvItem => processCreateItem csvItem dryRun history
  | update csvItem existingProduct changes =>
      processUpdateItem csvItem existingProduct changes dryRun history
  end.

(** [item.csvItem.Item || 'Unknown'] *)
Definition identifier (item : Item) : string :=
  or_default (csvItem_of item !! "Item") "Unknown".

(** [if (value.success) { if (type === 'created') ... else if (type === 'updated') ... }] *)
Definition tally (value : ItemResult) (r : Results) : Results :=
  match type value with
  | created_ =>
      {| total := total r; created := S (created r); updated := updated r;
         skipped := skipped r; errors := errors r;
         createdProducts := createdProducts r ++ [product value];
         updatedProducts := updatedProducts r; errorDetails := errorDetails r |}
  | updated_ =>
      {| total := total r; created := created r; updated := S (updated r);
         skipped := skipped r; errors := errors r;
         createdProducts := createdProducts r;
         updatedProducts := updatedProducts r ++ [product value];
         errorDetails := errorDetails r |}
  | dry_run_create | dry_run_update => r
  end.

(** [results.errors++; results.errorDetails.push(detail)] *)
Definition record_error (detail : ErrorDetail) (r : Results) : Results :=
  {| total := total r; created := created r; updated := updated r;
     skipped := skipped r; errors := S (errors r);
     createdProducts := createdProducts r; updatedProducts := updatedProducts r;
     errorDetails := errorDetails r ++ [detail] |}.

(** *** [processBatchSequentialWithUpdates] *)

Definition sequentialItem (dryRun : bool) (st : Run) (item : Item) : Run :=
  match processItem item dryRun (trace st) with
  | (inl result, history) =>
      {| results := tally result (results st); trace := history ++ [Delay 100] |}
  | (inr message, history) =>
      {| results := record_error {| csvItem := identifier item; error := message |}
                                 (results st);
         trace := history |}
  end.

Definition processBatchSequentialWithUpdates (batch : list Item) (st : Run)
    (dryRun : bool) : Run :=
  foldl (sequentialItem dryRun) st batch.

(** *** [processBatchParallelWithUpdates] *)

(** What one promise of the batch settles to. *)
Inductive Value :=
| succeeded (result : ItemResult)
| failed (detail : ErrorDetail).

Inductive Settled :=
| fulfilled (value : Value)
| rejected (message : option string).

(** [batch.map(async (item) => { try { ... } catch (error) { ... } })]:
    every item operation is started, in batch order, before any of them
    is awaited; an error thrown by one is turned into a failure value. *)
Definition startAll (batch : list Item) (dryRun : bool) (history : list Event)
    : list Settled * list Event :=
  foldl (fun '(promises, h) item =>
           match processItem item dryRun h with
           | (inl result, h') => (promises ++ [fulfilled (succeeded result)], h')
           | (inr message, h') =>
               (promises ++ [fulfilled (failed {| csvItem := identifier item;
                                                  error := message |})], h')
           end)
        ([], history) batch.

(** What the promise of [item] can settle to outside a dry run: always
    fulfilled, with a counted result or with a failure that names the
    item. *)
Definition settles_for (item : Item) (p : Settled) : Prop :=
  exists value, p = fulfilled value /\
    match value with
    | succeeded result => counted (type result)
    | failed detail => csvItem detail = identifier item
    end.

(** The failure values among settled promises, in order. *)
Definition failures (settled : list Settled) : list ErrorDetail :=
  flat_map (fun p => match p with
                     | fulfilled (failed detail) => [detail]
                     | _ => []
                     end) settled.

(** The [batchResults.forEach] after [Promise.allSettled]. *)
Definition tallySettled (r : Results) (entry : Item * Settled) : Results :=
  match entry.2 with
  | fulfilled (succeeded value) => tally value r
  | fulfilled (failed detail) => record_error detail r
  | rejected message =>
      record_error {| csvItem := identifier entry.1;
                      error := default "Promise rejected" message |} r
  end.

Definition processBatchParallelWithUpdates (batch : list Item) (st : Run)
    (dryRun : bool) : Run :=
  let '(batchResults, history) := startAll batch dryRun (trace st) in
  {| results := foldl tallySettled (results st) (zip batch batchResults);
     trace := history |}.

(** *** The batch loop of [processProductsFromCSV] *)

Record Options := {
  batchSize : Z;
  delayBetweenBatches : Z;
  dryRun : bool;
  parallelBatch : bool;
  enableUpdates : bool
}.

(** [array.slice(start, end)] *)
Definition slice {A} (start stop : Z) (l : list A) : list A :=
  let len := Z.of_nat (length l) in
  let k := if start <? 0 then Z.max (len + start) 0 else Z.min start len in
  let final := if stop <? 0 then Z.max (len + stop) 0 else Z.min stop len in
  take (Z.to_nat (final - k)) (drop (Z.to_nat k) l).

Definition processBatch (o : Options) (batch : list Item) (st : Run) : Run :=
  if parallelBatch o && negb (dryRun o)
  then processBatchParallelWithUpdates batch st (dryRun o)
  else processBatchSequentialWithUpdates batch st (dryRun o).

Definition announce (e : Event) (st : Run) : Run :=
  {| results := results st; trace := trace st ++ [e] |}.

(** [for (let i = 0; i < all.length; i += batchSize)].  The loop does not
    end when [batchSize] is not positive; [None] stands for a run that is
    still going when the fuel is used up. *)
Fixpoint batchLoop (fuel : nat) (o : Options) (all : list Item) (i : Z) (st : Run)
    : option Run :=
  if i <? Z.of_nat (length all) then
    match fuel with
    | O => None
    | S fuel' =>
        let batch := slice i (i + batchSize o) all in
        let st1 := processBatch o batch (announce (BatchStart (length batch)) st) in
        let st2 := if i + batchSize o <? Z.of_nat (length all)
                   then announce (Delay (delayBetweenBatches o)) st1
                   else st1 in
        batchLoop fuel' o all (i + batchSize o) st2
    end
  else Some st.

Definition initialResults (rows : nat) : Results :=
  {| total := rows; created := 0; updated := 0; skipped := 0; errors := 0;
     createdProducts := []; updatedProducts := []; errorDetails := [] |}.

(** The dispatch of a changeset. *)
Definition dispatch (o : Options) (all : list Item) (rows : nat) : option Run :=
  batchLoop (S (length all)) o all 0
            {| results := initialResults rows; trace := [] |}.

Definition changeset (csvData : list (gmap string string))
    (existingProducts : list ExistingProduct) (o : Options) : list Item :=
  let '(productsToCreate, productsToUpdate) :=
    categorizeProducts csvData (indexBySku existingProducts)
                       (indexByTitle existingProducts) (enableUpdates o) in
  productsToCreate ++ productsToUpdate.

(** [processProductsFromCSV(csvData, shopifyProducts, options)] on a
    snapshot that has been fetched already. *)
Definition processProductsFromCSV (csvData : list (gmap string string))
    (shopifyProducts : list ExistingProduct) (o : Options) : option Run :=
  dispatch o (changeset csvData shopifyProducts o) (length csvData).

End WithApi.

End Dispatch.

(** ** Transfer manager ([FTPClient]) *)

Module Transfer.
Import JsString.

(** [FileType] of the file-transfer collaborator: 0, 1, 2, 3. *)
Inductive FileType := Unknown | File | Directory | SymbolicLink.

(** One entry of a remote listing.  [modifiedAt] is the modification
    date as milliseconds since the epoch, [size] a byte count. *)
Record FileInfo := {
  name : string;
  type : FileType;
  size : Z;
  modifiedAt : Z
}.

Definition is_file (t : FileType) : bool :=
  match t with File => true | _ => false end.

(** [s.endsWith(suffix)] *)
Definition endsWith (s suffix : list ascii) : bool :=
  bool_decide (drop (length s - length suffix) s = suffix).

(** [listFiles]: the entries whose lower-cased name ends in [.csv] and
    whose type is a plain file. *)
Definition is_csv (f : FileInfo) : bool :=
  endsWith (toLowerCase (chars (name f))) (chars ".csv") && is_file (type f).

Definition listFiles (fileList : list FileInfo) : list FileInfo :=
  List.filter is_csv fileList.

(** [files.sort((a, b) => new Date(b.modifiedAt) - new Date(a.modifiedAt))]:
    the comparator is positive when [b] is newer than [a].  The runtime's
    sort is stable, so the result is the stable arrangement by decreasing
    date; [insert_newest] puts an element in front of the first one that
    is not newer. *)
Definition compare_newest (a b : FileInfo) : Z := modifiedAt b - modifiedAt a.

Fixpoint insert_newest (x : FileInfo) (sorted : list FileInfo) : list FileInfo :=
  match sorted with
  | [] => [x]
  | y :: ys => if 0 <? compare_newest x y then y :: insert_newest x ys
               else x :: y :: ys
  end.

Definition sort_newest (files : list FileInfo) : list FileInfo :=
  foldr insert_newest [] files.

(** Newest first: every file is at least as recent as those after it. *)
Definition newest_first (files : list FileInfo) : Prop :=
  StronglySorted (fun a b => modifiedAt b <= modifiedAt a) files.

Inductive ListError := NoCsvFiles.

(** [getLatestCSVFile] over the listing the server returned. *)
Definition getLatestCSVFile (fileList : list FileInfo) : FileInfo + ListError :=
  let files := listFiles fileList in
  if decide (length files = 0%nat) then inr NoCsvFiles
  else match sort_newest files with
       | latestFile :: _ => inl latestFile
       | [] => inr NoCsvFiles       (* not reached: sorting keeps the files *)
       end.

(** The tie-break the specification words ask for: among the files with the
    returned date none has a greater name. *)
Definition greatest_name_among_ties (fileList : list FileInfo) (f : FileInfo) : Prop :=
  forall g, In g (listFiles fileList) -> modifiedAt g = modifiedAt f ->
            String.leb (name g) (name f) = true.

(** *** Download with backup and restore ([downloadFile])

    The local disk is a finite map from paths to file contents.  What the
    remote side does during one download attempt is an input: the listing
    used to learn the expected size (or its failure), the bytes the stream
    leaves at the destination (if it created the file at all) and whether
    the stream ended with an error. *)

Inductive DownloadError :=
| StreamError (message : string)
| NotFoundLocally
| SizeMismatch (localSize remoteSize : Z).

Record Attempt := {
  listing : option (list FileInfo);
  written : option string;
  streamError : option string
}.

Definition backupPath (localFilePath : string) : string :=
  localFilePath +:+ ".backup".

Definition existsSync (fs : gmap string string) (path : string) : bool :=
  bool_decide (is_Some (fs !! path)).

(** [fs.renameSync(from, to)] of an existing file: the target is replaced. *)
Definition renameSync (from to : string) (fs : gmap string string) : gmap string string :=
  match fs !! from with
  | Some content => <[to := content]> (delete from fs)
  | None => fs
  end.

Definition unlinkSync (path : string) (fs : gmap string string) : gmap string string :=
  delete path fs.

(** The block that runs before anything is written. *)
Definition createBackup (localFilePath : string) (fs : gmap string string) : gmap string string :=
  if existsSync fs localFilePath
  then renameSync localFilePath (backupPath localFilePath) fs
  else fs.

(** The expected size: 0 when the listing fails or lacks the file. *)
Definition remoteFileSize (a : Attempt) (remoteFilePath : string) : Z :=
  match listing a with
  | Some fileList =>
      match List.find (fun f => String.eqb (name f) remoteFilePath) fileList with
      | Some targetFile => size targetFile
      | None => 0
      end
  | None => 0
  end.

(** [downloadWithProgress]: the write stream may leave bytes at the
    destination, and the promise settles with or without an error. *)
Definition downloadWithProgress (a : Attempt) (localFilePath : string)
    (fs : gmap string string) : gmap string string * option DownloadError :=
  let fs' := match written a with
             | Some bytes => <[localFilePath := bytes]> fs
             | None => fs
             end in
  (fs', StreamError <$> streamError a).

(** The [try] block after the backup: download, existence check, size check
    within a tolerance of 1024 bytes, deletion of the backup. *)
Definition tryDownload (a : Attempt) (remoteFilePath localFilePath : string)
    (fs : gmap string string) : gmap string string * option DownloadError :=
  let expected := remoteFileSize a remoteFilePath in
  let '(fs1, failure) := downloadWithProgress a localFilePath fs in
  match failure with
  | Some e => (fs1, Some e)
  | None =>
      match fs1 !! localFilePath with
      | None => (fs1, Some NotFoundLocally)
      | Some content =>
          let statsSize := Z.of_nat (String.length content) in
          if (0 <? expected) && (1024 <? Z.abs (statsSize - expected))
          then (fs1, Some (SizeMismatch statsSize expected))
          else
            let backupFilePath := backupPath localFilePath in
            (if existsSync fs1 backupFilePath then unlinkSync backupFilePath fs1 else fs1,
             None)
      end
  end.

(** The [catch] block: restore the backup, or clean the partial file up. *)
Definition restoreOrCleanup (localFilePath : string) (fs : gmap string string)
    : gmap string string :=
  let backupFilePath := backupPath localFilePath in
  if existsSync fs backupFilePath then
    let fs1 := if existsSync fs localFilePath then unlinkSync localFilePath fs else fs in
    renameSync backupFilePath localFilePath fs1
  else
    if existsSync fs localFilePath then unlinkSync localFilePath fs else fs.

(** [downloadFile]: the final disk, and the local path or the error thrown. *)
Definition downloadFile (a : Attempt) (remoteFilePath localFilePath : string)
    (fs : gmap string string) : gmap string string * (string + DownloadError) :=
  let fs0 := createBackup localFilePath fs in
  match tryDownload a remoteFilePath localFilePath fs0 with
  | (fs1, None) => (fs1, inl localFilePath)
  | (fs1, Some error) => (restoreOrCleanup localFilePath fs1, inr error)
  end.

(** A download that stops after 2048 of the 4096 bytes the listing announces. *)
Definition interrupted_path : string := "downloads/Extract.csv".

Definition interrupted : Attempt :=
  {| listing := Some [{| name := "Extract.csv"; type := File; size := 4096;
                         modifiedAt := 1700000000000 |}];
     written := Some (str (repeat "x"%char 2048));
     streamError := None |}.

Definition csv_a : FileInfo :=
  {| name := "Extract_A.csv"; type := File; size := 2048; modifiedAt := 1700000000000 |}.
Definition csv_b : FileInfo :=
  {| name := "Extract_B.csv"; type := File; size := 4096; modifiedAt := 1700000000000 |}.

End Transfer.

(** ** Job orchestrator ([ProductDataCronJob.executeJob])

    The body of [executeJob] is asynchronous: between the moment the flag
    is raised and the [finally] block the scheduler may call [executeJob]
    again.  An execution is therefore two atomic steps of the single-threaded
    runtime: entering (the test and the assignment of [isRunning], with no
    [await] in between) and settling (the [try] body ended, normally or by
    an exception that [catch] logged, and [finally] ran). *)

Module Orchestrator.

Inductive Outcome := Succeeded | Failed.

Inductive LogEntry :=
| AlreadyRunningSkipped
| JobStarted
| JobCompleted
| JobFailed
| ConnectionClosed.

Record Job := {
  isRunning : bool;
  active : nat;          (* executions currently inside the [try] body *)
  log : list LogEntry
}.

Inductive Event :=
| Trigger                (* the schedule or [runOnce] calls [executeJob] *)
| Settle (o : Outcome).  (* the body of the running execution ends *)

Definition initial : Job := {| isRunning := false; active := 0; log := [] |}.

(** [if (this.isRunning) { warn; return }  this.isRunning = true; try {] *)
Definition enter (j : Job) : Job :=
  if isRunning j
  then {| isRunning := isRunning j; active := active j;
          log := log j ++ [AlreadyRunningSkipped] |}
  else {| isRunning := true; active := S (active j);
          log := log j ++ [JobStarted] |}.

(** [} catch (error) { log } finally { await close(); this.isRunning = false }] *)
Definition settle (o : Outcome) (j : Job) : Job :=
  match active j with
  | O => j
  | S n =>
      {| isRunning := false; active := n;
         log := log j ++ [match o with Succeeded => JobCompleted | Failed => JobFailed end;
                          ConnectionClosed] |}
  end.

Definition step (j : Job) (e : Event) : Job :=
  match e with
  | Trigger => enter j
  | Settle o => settle o j
  end.

Definition run (events : list Event) : Job := foldl step initial events.

(** The flag mirrors the presence of a running execution. *)
Definition guarded (j : Job) : Prop :=
  (isRunning j = true /\ active j = 1%nat) \/ (isRunning j = false /\ active j = 0%nat).

End Orchestrator.

(** ** Concrete feeds, snapshots and configurations *)

Module Scenarios.
Import JsString JsNumber Normalizer Reconcile Dispatch.

(** A feed row with a contract price and no MSRP. *)
Definition row (item description contractPrice qty : string) : gmap string string :=
  list_to_map [("Item", item); ("Description", description);
               ("ContractPrice", contractPrice); ("Qty_Avail", qty);
               ("Status", "Active")].

(** The product the catalog holds once [p] has been created in it. *)
Definition stored (id variantId : Z) (p : ProductData) : ExistingProduct :=
  {| ep_id := id;
     ep_title := title p;
     ep_body_html := Some (body_html p);
     ep_product_type := product_type p;
     ep_tags := tags p;
     ep_status := status p;
     ep_product_category_id := None;
     ep_variants :=
       (fun v => {| ev_id := variantId;
                    ev_sku := Some (sku v);
                    ev_barcode := Some (barcode v);
                    ev_price := price v;
                    ev_compare_at_price := compare_at_price v;
                    ev_inventory_quantity := Some (inventory_quantity v);
                    ev_weight := weight v |}) <$> variants p;
     ep_images := src <$> images p |}.

Definition with_variant (f : ExistingVariant -> ExistingVariant) (e : ExistingProduct)
    : ExistingProduct :=
  {| ep_id := ep_id e; ep_title := ep_title e; ep_body_html := ep_body_html e;
     ep_product_type := ep_product_type e; ep_tags := ep_tags e;
     ep_status := ep_status e; ep_product_category_id := ep_product_category_id e;
     ep_variants := f <$> ep_variants e; ep_images := ep_images e |}.

Definition set_price (p : string) (v : ExistingVariant) : ExistingVariant :=
  {| ev_id := ev_id v; ev_sku := ev_sku v; ev_barcode := ev_barcode v;
     ev_price := p; ev_compare_at_price := ev_compare_at_price v;
     ev_inventory_quantity := ev_inventory_quantity v; ev_weight := ev_weight v |}.

Definition set_compare_at_price (p : option string) (v : ExistingVariant)
    : ExistingVariant :=
  {| ev_id := ev_id v; ev_sku := ev_sku v; ev_barcode := ev_barcode v;
     ev_price := ev_price v; ev_compare_at_price := p;
     ev_inventory_quantity := ev_inventory_quantity v; ev_weight := ev_weight v |}.

(** A ring at 20.00 in the feed; the catalog holds it at 19.999. *)
Definition ring : gmap string string := row "QG-100" "Gold Ring" "20" "5".

Definition ring_in_catalog : ExistingProduct :=
  with_variant (set_price "19.999") (stored 9001 7001 (mapCSVToShopifyProduct ring)).

(** The same ring, held in the catalog with a compare-at price that the
    feed no longer carries. *)
Definition ring_on_sale : ExistingProduct :=
  with_variant (set_compare_at_price (Some "150.00"))
               (stored 9001 7001 (mapCSVToShopifyProduct ring)).

(** A chain whose price and stock both moved since it was stored. *)
Definition chain_before : gmap string string := row "QG-200" "Rope Chain" "119.99" "3".
Definition chain_now : gmap string string := row "QG-200" "Rope Chain" "129.99" "5".

Definition chain_in_catalog : ExistingProduct :=
  stored 9002 7002 (mapCSVToShopifyProduct chain_before).

(** An API that accepts every request. *)
Definition patched (id : Z) (u : UpdateData) : ExistingProduct :=
  {| ep_id := id; ep_title := default "" (u_title u);
     ep_body_html := u_body_html u;
     ep_product_type := default "" (u_product_type u);
     ep_tags := default "" (u_tags u); ep_status := default "" (u_status u);
     ep_product_category_id := None; ep_variants := []; ep_images := [] |}.

Definition accepting : CatalogApi :=
  {| createProduct history productData :=
       inl (stored (Z.of_nat (length history)) 1 productData);
     updateProduct history productId updateData :=
       inl (patched productId updateData) |}.

(** A feed of five rows unknown to the catalog and three rows whose price
    moved, against a catalog that holds those three. *)
Definition feed : list (gmap string string) :=
  [ row "QN-1" "Anklet One" "10.00" "1";
    row "QN-2" "Anklet Two" "11.00" "1";
    row "QN-3" "Anklet Three" "12.00" "1";
    row "QN-4" "Anklet Four" "13.00" "1";
    row "QN-5" "Anklet Five" "14.00" "1";
    row "QG-201" "Bangle One" "21.00" "2";
    row "QG-202" "Bangle Two" "22.00" "2";
    row "QG-203" "Bangle Three" "23.00" "2" ].

Definition snapshot : list ExistingProduct :=
  [ stored 9201 7201 (mapCSVToShopifyProduct (row "QG-201" "Bangle One" "20.00" "2"));
    stored 9202 7202 (mapCSVToShopifyProduct (row "QG-202" "Bangle Two" "20.00" "2"));
    stored 9203 7203 (mapCSVToShopifyProduct (row "QG-203" "Bangle Three" "20.00" "2")) ].

Definition dry_run_options : Options :=
  {| batchSize := 10; delayBetweenBatches := 1000; dryRun := true;
     parallelBatch := true; enableUpdates := true |}.

(** An API that refuses every second request. *)
Definition flaky : CatalogApi :=
  {| createProduct history productData :=
       if Nat.even (length history)
       then inl (stored (Z.of_nat (length history)) 1 productData)
       else inr "422 Unprocessable Entity";
     updateProduct history productId updateData :=
       if Nat.even (length history)
       then inl (patched productId updateData)
       else inr "422 Unprocessable Entity" |}.

Definition live_options : Options :=
  {| batchSize := 3; delayBetweenBatches := 1000; dryRun := false;
     parallelBatch := true; enableUpdates := true |}.

Definition small_batch : list Item :=
  [ create ring;
    create (row "QN-1" "Anklet One" "10.00" "1");
    update chain_now chain_in_catalog [price_; inventory_] ].

Definition empty_run : Run :=
  {| results := initialResults 0; trace := [] |}.

End Scenarios.

(** ** Shapes of normalised values and of snapshot entries *)

Module Shape.
Import JsString JsNumber Normalizer Reconcile.

(** An optional minus sign, at least one digit, a dot and two digits. *)
Definition two_decimals (s : list ascii) : Prop :=
  exists sign whole d1 d2,
    s = sign ++ whole ++ ["."%char; d1; d2] /\
    (sign = [] \/ sign = ["-"%char]) /\ whole <> [] /\
    Forall (fun c => is_digit c = true) (whole ++ [d1; d2]).

(** The number that [parsePrice] reads before it prints it. *)
Definition priceNumber (priceStr : option string) : spec_float :=
  match priceStr with
  | Some s => parseFloat (List.filter numeric_char (chars s))
  | None => NaN
  end.

(** The numbers that [toFixed(2)] prints in plain digits: magnitudes below
    1e21; [NaN] never reaches the printer. *)
Definition prints_plainly (x : spec_float) : bool :=
  isNaN x || SFltb (SFabs x) (of_decimal false 1 21).

(** The snapshot entry holds exactly what the row maps to: the images up to
    their order, the first variant field by field, a missing quantity
    standing for zero. *)
Definition mirrors (csvItem : gmap string string) (e : ExistingProduct) : Prop :=
  let p := mapCSVToShopifyProduct csvItem in
  let v := createVariant csvItem in
  ep_title e = title p /\ ep_body_html e = Some (body_html p) /\
  ep_product_type e = product_type p /\ ep_tags e = tags p /\
  ep_status e = status p /\ ep_images e ≡ₚ (src <$> images p) /\
  match ep_variants e with
  | [] => True
  | ev :: _ =>
      ev_price ev = price v /\ ev_compare_at_price ev = compare_at_price v /\
      default 0 (ev_inventory_quantity ev) = inventory_quantity v /\
      ev_sku ev = Some (sku v) /\ ev_barcode ev = Some (barcode v) /\
      ev_weight ev = weight v
  end.

(** The product has a variant whose non-empty SKU lower-cases to [k]. *)
Definition carries_sku (k : string) (p : ExistingProduct) : Prop :=
  exists v s, v ∈ ep_variants p /\ ev_sku v = Some s /\ s <> "" /\ lower s = k.

(** The product-level and the variant-level properties of a patch. *)
Definition product_fields (u : UpdateData) : list Change :=
  changed (bool_decide (is_Some (u_title u))) title_ ++
  changed (bool_decide (is_Some (u_body_html u))) description_ ++
  changed (bool_decide (is_Some (u_product_type u))) product_type_ ++
  changed (bool_decide (is_Some (u_tags u))) tags_ ++
  changed (bool_decide (is_Some (u_status u))) status_ ++
  changed (bool_decide (is_Some (u_product_category_id u))) category_ ++
  changed (bool_decide (is_Some (u_images u))) images_.

Definition variant_part (u : UpdateData) : list Change :=
  flat_map variant_fields (default [] (u_variants u)).

(** The last variant-level name of a list of changes. *)
Definition last_variant_change (changes : list Change) : option Change :=
  last (List.filter is_variant_change changes).

(** What [categorizeProducts] decides for one matched row. *)
Definition update_for (bySku byTitle : gmap string ExistingProduct)
    (enableUpdates : bool) (csvItem : gmap string string) : option Item :=
  match findExisting bySku byTitle csvItem with
  | Some existingProduct =>
      if enableUpdates then
        match doesProductNeedUpdate csvItem existingProduct with
        | [] => None
        | changes => Some (update csvItem existingProduct changes)
        end
      else None
  | None => None
  end.

Definition unmatched (bySku byTitle : gmap string ExistingProduct)
    (csvItem : gmap string string) : bool :=
  bool_decide (findExisting bySku byTitle csvItem = None).

(** The key under which a row is looked up by title. *)
Definition titleKey (csvItem : gmap string string) : string :=
  lower (or_default (or_else (csvItem !! "Description") (csvItem !! "Item")) "").

(** The key under which a row is looked up by SKU. *)
Definition skuKey (csvItem : gmap string string) : option string :=
  lower <$> csvItem !! "Item".

(** The row matches the product by its SKU or by its title. *)
Definition matches_by_sku (csvItem : gmap string string) (p : ExistingProduct) : Prop :=
  exists k, skuKey csvItem = Some k /\ k <> "" /\ carries_sku k p.

Definition matches_by_title (csvItem : gmap string string) (p : ExistingProduct) : Prop :=
  titleKey csvItem <> "" /\ lower (ep_title p) = titleKey csvItem.

End Shape.

(** ** The schedule of a dispatch: batches, requests and pauses *)

Module Schedule.
Import JsString JsNumber Normalizer Reconcile Dispatch.

(** The request that a changeset item stands for. *)
Definition request_of (item : Item) : Event :=
  match item with
  | create csvItem => NetCreate (mapCSVToShopifyProduct csvItem)
  | update csvItem existingProduct changes =>
      NetUpdate (ep_id existingProduct)
                (buildUpdateData (mapCSVToShopifyProduct csvItem) existingProduct changes)
  end.

(** The sizes of the batches announced, in order. *)
Definition batch_sizes (history : list Event) : list nat :=
  omap (fun e => match e with BatchStart n => Some n | _ => None end) history.

(** The pauses taken, in order. *)
Definition pauses (history : list Event) : list Z :=
  omap (fun e => match e with Delay ms => Some ms | _ => None end) history.


Definition is_update_request (e : Event) : bool :=
  match e with NetUpdate _ _ => true | _ => false end.

(** The counts agree with the lists kept beside them, and nothing has
    been counted as skipped. *)
Definition coherent (r : Results) : Prop :=
  length (createdProducts r) = created r /\
  length (updatedProducts r) = updated r /\
  length (errorDetails r) = errors r /\
  skipped r = 0%nat.

Section WithApi.
Context {api : CatalogApi}.

(** One turn of the batch loop that starts at index [i]. *)
Definition batchStep (o : Options) (all : list Item) (i : Z) (st : Run) : Run :=
  let batch := slice i (i + batchSize o) all in
  let st1 := processBatch o batch (announce (BatchStart (length batch)) st) in
  if i + batchSize o <? Z.of_nat (length all)
  then announce (Delay (delayBetweenBatches o)) st1
  else st1.

End WithApi.

End Schedule.

(** ** The answers of the catalog to the requests of a batch *)

Module Replies.
Import JsString JsNumber Normalizer Reconcile Dispatch Schedule.

(** What the answer to the request of [item] makes of the item: a counted
    result that holds the product the catalog returned, or a failure under
    the item's name that holds the message of the error. *)
Definition result_of (item : Item) (product : ExistingProduct) : ItemResult :=
  match item with
  | create _ => {| type := created_; product := FromApi product |}
  | update _ _ _ => {| type := updated_; product := FromApi product |}
  end.

Definition settle (item : Item) (reply : ExistingProduct + string) : Settled :=
  match reply with
  | inl product => fulfilled (succeeded (result_of item product))
  | inr message => fulfilled (failed {| csvItem := identifier item; error := message |})
  end.

(** The events one item of the sequential routine leaves: its request,
    and the pause of 100 ms when the request was accepted. *)
Definition paced (item : Item) (reply : ExistingProduct + string) : list Event :=
  match reply with
  | inl _ => [request_of item; Delay 100]
  | inr _ => [request_of item]
  end.

(** The error entries, the created and the updated products that the
    answers to a batch amount to, each in batch order. *)
Definition refused (batch : list Item) (replies : list (ExistingProduct + string))
    : list ErrorDetail :=
  omap (fun entry : Item * (ExistingProduct + string) =>
          match entry.2 with
          | inr message => Some {| csvItem := identifier entry.1; error := message |}
          | inl _ => None
          end) (zip batch replies).

Definition accepted_creates (batch : list Item)
    (replies : list (ExistingProduct + string)) : list Payload :=
  omap (fun entry : Item * (ExistingProduct + string) =>
          match entry.1, entry.2 with
          | create _, inl product => Some (FromApi product)
          | _, _ => None
          end) (zip batch replies).

Definition accepted_updates (batch : list Item)
    (replies : list (ExistingProduct + string)) : list Payload :=
  omap (fun entry : Item * (ExistingProduct + string) =>
          match entry.1, entry.2 with
          | update _ _ _, inl product => Some (FromApi product)
          | _, _ => None
          end) (zip batch replies).

Section WithApi.
Context {api : CatalogApi}.

(** The answer of the catalog to the request of [item] when that request
    is issued after [history]. *)
Definition answer (item : Item) (history : list Event) : ExistingProduct + string :=
  match item with
  | create csvItem => createProduct history (mapCSVToShopifyProduct csvItem)
  | update csvItem existingProduct changes =>
      updateProduct history (ep_id existingProduct)
        (buildUpdateData (mapCSVToShopifyProduct csvItem) existingProduct changes)
  end.


(** The answers to the requests of a batch when each accepted request is
    followed by the pause of 100 ms. *)
Fixpoint paced_answers (batch : list Item) (history : list Event)
    : list (ExistingProduct + string) :=
  match batch with
  | [] => []
  | item :: rest =>
      let reply := answer item history in
      reply :: paced_answers rest (history ++ paced item reply)
  end.

End WithApi.

(** An API that refuses the first request it receives and accepts every
    later one. *)
Definition first_refused : CatalogApi :=
  {| createProduct history productData :=
       match requests_issued history with
       | [] => inr "503 Service Unavailable"
       | _ :: _ => inl (Scenarios.stored (Z.of_nat (length history)) 1 productData)
       end;
     updateProduct history productId updateData :=
       match requests_issued history with
       | [] => inr "503 Service Unavailable"
       | _ :: _ => inl (Scenarios.patched productId updateData)
       end |}.

End Replies.

(** ** The create-only routines kept beside the dispatcher
    ([createProductsFromCSV], [processBatchParallel], [processBatchSequential]) *)

Module Legacy.
Import JsString JsNumber Normalizer Reconcile Dispatch.

(** ['dry-run'] and ['created'] *)
Inductive LegacyType := dry_run_ | legacy_created_.

Inductive LegacyValue :=
| legacy_succeeded (type : LegacyType) (product : Payload)
| legacy_failed (detail : ErrorDetail).

Inductive LegacySettled :=
| legacy_fulfilled (value : LegacyValue)
| legacy_rejected (message : option string).

(** [csvItem.Item || 'Unknown'] *)
Definition itemName (csvItem : gmap string string) : string :=
  or_default (csvItem !! "Item") "Unknown".

(** [results.created++] *)
Definition count_created (r : Results) : Results :=
  {| total := total r; created := S (created r); updated := updated r;
     skipped := skipped r; errors := errors r;
     createdProducts := createdProducts r; updatedProducts := updatedProducts r;
     errorDetails := errorDetails r |}.

(** [results.createdProducts.push(product)] *)
Definition push_created (product : Payload) (r : Results) : Results :=
  {| total := total r; created := created r; updated := updated r;
     skipped := skipped r; errors := errors r;
     createdProducts := createdProducts r ++ [product];
     updatedProducts := updatedProducts r; errorDetails := errorDetails r |}.

(** [{ ...options, enableUpdates: false }] *)
Definition legacyOptions (o : Options) : Options :=
  {| batchSize := batchSize o; delayBetweenBatches := delayBetweenBatches o;
     dryRun := dryRun o; parallelBatch := parallelBatch o; enableUpdates := false |}.

Section WithApi.
Context {api : CatalogApi}.

(** One turn of the [for] loop of [processBatchSequential]. *)
Definition sequentialCreate (dryRun : bool) (st : Run) (csvItem : gmap string string)
    : Run :=
  let productData := mapCSVToShopifyProduct csvItem in
  if dryRun then
    {| results := count_created (results st); trace := trace st ++ [Delay 100] |}
  else
    match createProduct (trace st) productData with
    | inl createdProduct =>
        {| results := push_created (FromApi createdProduct) (count_created (results st));
           trace := trace st ++ [NetCreate productData; Delay 100] |}
    | inr message =>
        {| results := record_error {| csvItem := itemName csvItem; error := message |}
                                   (results st);
           trace := trace st ++ [NetCreate productData] |}
    end.

Definition processBatchSequential (batch : list (gmap string string)) (st : Run)
    (dryRun : bool) : Run :=
  foldl (sequentialCreate dryRun) st batch.

(** The promise that [batch.map(async (csvItem) => ...)] makes for one row. *)
Definition startCreate (dryRun : bool) (csvItem : gmap string string)
    (history : list Event) : LegacySettled * list Event :=
  let productData := mapCSVToShopifyProduct csvItem in
  if dryRun then
    (legacy_fulfilled (legacy_succeeded dry_run_ (Draft productData)), history)
  else
    match createProduct history productData with
    | inl createdProduct =>
        (legacy_fulfilled (legacy_succeeded legacy_created_ (FromApi createdProduct)),
         history ++ [NetCreate productData])
    | inr message =>
        (legacy_fulfilled
           (legacy_failed {| csvItem := itemName csvItem; error := message |}),
         history ++ [NetCreate productData])
    end.

Definition startCreates (batch : list (gmap string string)) (dryRun : bool)
    (history : list Event) : list LegacySettled * list Event :=
  foldl (fun '(promises, h) csvItem =>
           let '(p, h') := startCreate dryRun csvItem h in (promises ++ [p], h'))
        ([], history) batch.

(** The [batchResults.forEach] of [processBatchParallel]: every success is
    counted, only a ['created'] one is kept. *)
Definition tallyCreate (r : Results) (entry : gmap string string * LegacySettled)
    : Results :=
  match entry.2 with
  | legacy_fulfilled (legacy_succeeded legacy_created_ product) =>
      push_created product (count_created r)
  | legacy_fulfilled (legacy_succeeded dry_run_ _) => count_created r
  | legacy_fulfilled (legacy_failed detail) => record_error detail r
  | legacy_rejected message =>
      record_error {| csvItem := itemName entry.1;
                      error := default "Promise rejected" message |} r
  end.

Definition processBatchParallel (batch : list (gmap string string)) (st : Run)
    (dryRun : bool) : Run :=
  let '(batchResults, history) := startCreates batch dryRun (trace st) in
  {| results := foldl tallyCreate (results st) (zip batch batchResults);
     trace := history |}.

(** [createProductsFromCSV]: the dispatcher with updates switched off. *)
Definition createProductsFromCSV (csvData : list (gmap string string))
    (shopifyProducts : list ExistingProduct) (o : Options) : option Run :=
  processProductsFromCSV csvData shopifyProducts (legacyOptions o).

End WithApi.

End Legacy.

(** ** Paging through the catalog ([getAllProducts], [extractNextPageUrl]) *)

Module Pagination.
Import JsString Reconcile.

Definition quote : ascii := ascii_of_nat 34.

(** The text [rel="next"]. *)
Definition rel_next : list ascii := chars "rel=" ++ [quote] ++ chars "next" ++ [quote].

(** The longest prefix outside [stop], and what follows it. *)
Fixpoint span_until (stop : ascii) (s : list ascii) : list ascii * list ascii :=
  match s with
  | c :: rest =>
      if Ascii.eqb c stop then ([], s)
      else let '(run, tl) := span_until stop rest in (c :: run, tl)
  | [] => ([], [])
  end.

(** [link.match(/<([^>]+)>/)]: the capture of the leftmost match. *)
Fixpoint match_bracketed (s : list ascii) : option (list ascii) :=
  match s with
  | [] => None
  | c :: rest =>
      if Ascii.eqb c "<" then
        match span_until ">" rest with
        | (d :: url, _ :: _) => Some (d :: url)
        | _ => match_bracketed rest
        end
      else match_bracketed rest
  end.

(** [extractNextPageUrl(linkHeader)]; [None] is [null]. *)
Definition extractNextPageUrl (linkHeader : option string) : option string :=
  match linkHeader with
  | Some header =>
      if truthy linkHeader then
        match List.find (fun link => includes link rel_next) (split "," (chars header)) with
        | Some link => str <$> match_bracketed link
        | None => None
        end
      else None
  | None => None
  end.

(** What the catalog answers to one page request. *)
Record Response := {
  data_products : list ExistingProduct;
  headers_link : option string
}.

(** The HTTP collaborator: the answer to the [n]-th request of a listing,
    or the message of the error thrown. *)
Class Http := { get : nat -> string -> Response + string }.

Inductive PageEvent := Get (url : string) | Wait (ms : Z).

Definition requested (log : list PageEvent) : list string :=
  omap (fun e => match e with Get url => Some url | _ => None end) log.

Section WithHttp.
Context {http : Http}.

(** [while (url && pageCount < 1000)], with [remaining] pages left before
    the limit. *)
Fixpoint pageLoop (remaining pageCount : nat) (url : option string)
    (products : list ExistingProduct) (log : list PageEvent)
    : (list ExistingProduct + string) * list PageEvent :=
  match remaining, url with
  | S remaining', Some u =>
      if truthy url then
        match get (S pageCount) u with
        | inl response =>
            let next := extractNextPageUrl (headers_link response) in
            pageLoop remaining' (S pageCount) next
                     (products ++ data_products response)
                     (log ++ [Get u] ++ if truthy next then [Wait 100] else [])
        | inr message => (inr message, log ++ [Get u])
        end
      else (inl products, log)
  | _, _ => (inl products, log)
  end.

Definition firstPage (baseURL : string) : string :=
  baseURL +:+ "/products.json?limit=250".

Definition getAllProducts (baseURL : string)
    : (list ExistingProduct + string) * list PageEvent :=
  pageLoop 1000 0 (Some (firstPage baseURL)) [] [].

(** The pages a listing walks through when it starts at [url] as request
    number [n + 1]: each with its answer, while the answers are good and
    carry a next link, and for as long as the limit allows. *)
Fixpoint walk (remaining n : nat) (url : string) : list (string * (Response + string)) :=
  match remaining with
  | O => []
  | S remaining' =>
      if String.eqb url "" then []
      else
        (url, get (S n) url) ::
        match get (S n) url with
        | inl response =>
            match extractNextPageUrl (headers_link response) with
            | Some next => walk remaining' (S n) next
            | None => []
            end
        | inr _ => []
        end
  end.

End WithHttp.

Definition good_products (step : string * (Response + string)) : list ExistingProduct :=
  match step.2 with inl response => data_products response | inr _ => [] end.

Definition first_error (steps : list (string * (Response + string))) : option string :=
  match last steps with
  | Some (_, inr message) => Some message
  | _ => None
  end.

End Pagination.

(** ** Retrying the download ([downloadLatestCSV]) *)

Module Retry.
Import JsString Transfer.

Definition maxRetries : nat := 10.
Definition retryDelay : Z := 5000.

(** What the remote side does during one attempt: the listing it returns
    (or the error of the listing), and how the transfer goes. *)
Record Try := {
  listed : list FileInfo + string;
  transfer : Attempt
}.

Inductive FetchError :=
| ListingFailed (message : string)
| NoCsvFilesFound
| DownloadFailed (e : DownloadError).

Inductive RetryEvent := Sleep (ms : Z) | Reconnect.

Record Outcome := {
  disk : gmap string string;
  answer : option (string + FetchError);   (* [None]: the loop ended without an attempt *)
  attempts : nat;
  log : list RetryEvent
}.

Section WithPath.
(** [path.join] *)
Variable join : string -> string -> string.

(** The [try] block of one turn: the newest file is looked up again and
    downloaded under its own name. *)
Definition attemptOnce (t : Try) (localDir : string) (fs : gmap string string)
    : gmap string string * (string + FetchError) :=
  match listed t with
  | inr message => (fs, inr (ListingFailed message))
  | inl fileList =>
      match getLatestCSVFile fileList with
      | inr NoCsvFiles => (fs, inr NoCsvFilesFound)
      | inl latestFile =>
          let localFilePath := join localDir (name latestFile) in
          match downloadFile (transfer t) (name latestFile) localFilePath fs with
          | (fs', inl path) => (fs', inl path)
          | (fs', inr e) => (fs', inr (DownloadFailed e))
          end
      end
  end.

(** [while (attempt < this.maxRetries)], with [remaining] turns left. *)
Fixpoint retryLoop (tries : nat -> Try) (localDir : string) (remaining attempt : nat)
    (fs : gmap string string) (log : list RetryEvent) : Outcome :=
  match remaining with
  | O => {| disk := fs; answer := None; attempts := attempt; log := log |}
  | S remaining' =>
      match attemptOnce (tries (S attempt)) localDir fs with
      | (fs', inl path) =>
          {| disk := fs'; answer := Some (inl path); attempts := S attempt; log := log |}
      | (fs', inr e) =>
          match remaining' with
          | O => {| disk := fs'; answer := Some (inr e); attempts := S attempt;
                    log := log |}
          | S _ => retryLoop tries localDir remaining' (S attempt) fs'
                             (log ++ [Sleep retryDelay; Reconnect])
          end
      end
  end.

Definition downloadLatestCSV (tries : nat -> Try) (localDir : string)
    (fs : gmap string string) : Outcome :=
  retryLoop tries localDir maxRetries 0 fs [].

(** The disk as the [k]-th attempt finds it when all attempts before it
    failed. *)
Definition diskBefore (tries : nat -> Try) (localDir : string)
    (fs : gmap string string) (k : nat) : gmap string string :=
  foldl (fun d j => (attemptOnce (tries j) localDir d).1) fs (seq 1 (k - 1)).

End WithPath.

End Retry.

(** ** Housekeeping of the download directory
    ([cleanupOldFiles], the choice of a local feed in [runShopifyOnly]) *)

Module Retention.
Import JsString JsNumber Reconcile Transfer.

(** What [fs.statSync] tells about an entry. *)
Record Stat := { isFile : bool; mtime : Z }.

(** [parseInt(process.env.KEEP_FILES_DAYS) || 7] *)
Definition keepFilesDays (env : option string) : Z :=
  match parseInt (chars (default "undefined" env)) with
  | Some n => if n =? 0 then 7 else n
  | None => 7
  end.

Definition cutoffTime (now keepDays : Z) : Z := now - keepDays * 24 * 60 * 60 * 1000.

Definition expired (cutoff : Z) (stats : Stat) : bool :=
  isFile stats && (mtime stats <? cutoff).

(** The [for] loop over the names that [fs.readdirSync] returned.  [dir]
    holds what [fs.statSync] reports for the entries it can examine; for
    any other name it throws.  [locked] tells the entries that
    [fs.unlinkSync] refuses to remove: for them it throws.  An exception
    leaves the loop for the [catch] around it, so the rest of the names is
    not looked at and the count is not logged ([None]). *)
Fixpoint cleanupLoop (files : list string) (cutoff : Z) (locked : string -> bool)
    (dir : gmap string Stat) (deletedCount : nat) : gmap string Stat * option nat :=
  match files with
  | [] => (dir, Some deletedCount)
  | file :: rest =>
      match dir !! file with
      | Some stats =>
          if expired cutoff stats then
            if locked file then (dir, None)
            else cleanupLoop rest cutoff locked (delete file dir) (S deletedCount)
          else cleanupLoop rest cutoff locked dir deletedCount
      | None => (dir, None)
      end
  end.

(** [cleanupOldFiles] at time [now]: the directory afterwards and the
    count logged.  [listing] is what [fs.readdirSync] returns, [None] when
    it throws. *)
Definition cleanupOldFiles (now keepDays : Z) (listing : option (list string))
    (locked : string -> bool) (dir : gmap string Stat)
    : gmap string Stat * option nat :=
  match listing with
  | Some files => cleanupLoop files (cutoffTime now keepDays) locked dir 0
  | None => (dir, None)
  end.

(** [file.endsWith('.csv') && file.includes('Extract')] *)
Definition is_extract (file : string) : bool :=
  endsWith (chars file) (chars ".csv") && includes (chars file) (chars "Extract").

(** [existingFiles.sort().pop()] *)
Definition latestLocalFile (files : list string) : option string :=
  last (sort_strings (List.filter is_extract files)).

End Retention.

(** ** Taxonomy categories ([getCategoryId], [findBestCategoryMatch]) *)

Module Taxonomy.
Import JsString.

(** The entries of [categoryMap] in insertion order; the last one was
    written without a value. *)
Definition categoryMap : list (string * option Z) :=
  [ ("anklets", Some 332); ("anklet", Some 332);
    ("body jewelry", Some 333); ("body", Some 333);
    ("bracelets", Some 334); ("bracelet", Some 334);
    ("brooches", Some 335); ("brooch", Some 335);
    ("lapel pins", Some 335); ("lapel pin", Some 335);
    ("charms", Some 336); ("charm", Some 336);
    ("pendants", Some 336); ("pendant", Some 336);
    ("earrings", Some 337); ("earring", Some 337);
    ("jewelry sets", Some 338); ("jewelry set", Some 338);
    ("sets", Some 338); ("set", Some 338);
    ("necklaces", Some 339); ("necklace", Some 339);
    ("chain necklaces", Some 339); ("chain necklace", Some 339);
    ("rings", Some 340); ("ring", Some 340);
    ("smart watches", Some 341); ("smart watch", Some 341);
    ("watch accessories", Some 341); ("watch accessory", Some 341);
    ("watch bands", Some 342); ("watch band", Some 342);
    ("watch stickers", Some 343); ("watch decals", Some 343);
    ("watch stickers & decals", Some 343);
    ("watch winders", Some 344); ("watch winder", Some 344);
    ("watches", Some 345); ("watch", Some 345);
    ("chains", Some 339); ("chain", Some 339);
    ("rope chains", Some 339); ("rope chain", Some 339);
    ("curb chains", Some 339); ("curb chain", Some 339);
    ("cable chains", Some 339);
    ("cable chain339", None) ].

Definition defaultJewelryCategory : string := "gid://shopify/TaxonomyCategory/aa-6-8".

(** [categoryMap.has(term)] and [categoryMap.get(term)] in one. *)
Definition direct (term : list ascii) : option (option Z) :=
  snd <$> List.find (fun entry => bool_decide (chars entry.1 = term)) categoryMap.

(** The first entry whose keyword contains the term or is contained in
    it. *)
Definition partial (term : list ascii) : option (option Z) :=
  snd <$> List.find (fun entry => includes term (chars entry.1) ||
                                  includes (chars entry.1) term) categoryMap.

(** The first entry whose keyword occurs in the whole path. *)
Definition anywhere (cleanPath : list ascii) : option (option Z) :=
  snd <$> List.find (fun entry => includes cleanPath (chars entry.1)) categoryMap.

(** The characters of [/[\\\/\>\|]/]. *)
Definition is_separator (c : ascii) : bool :=
  Ascii.eqb c "\" || Ascii.eqb c "/" || Ascii.eqb c ">" || Ascii.eqb c "|".

(** [s.split(/[...]/)] *)
Fixpoint split_on (sep : ascii -> bool) (s : list ascii) : list (list ascii) :=
  match s with
  | [] => [[]]
  | c :: rest =>
      if sep c then [] :: split_on sep rest
      else match split_on sep rest with
           | piece :: pieces => (c :: piece) :: pieces
           | [] => [[c]]
           end
  end.

(** [categoryPath.trim().toLowerCase().replace(/\\/g, '')] *)
Definition cleanPath (categoryPath : list ascii) : list ascii :=
  List.filter (fun c => negb (Ascii.eqb c "\")) (toLowerCase (trim categoryPath)).

Definition non_empty (s : list ascii) : bool :=
  match s with [] => false | _ => true end.

Definition categoryTerms (categoryPath : list ascii) : list (list ascii) :=
  List.filter non_empty (map trim (split_on is_separator (cleanPath categoryPath))).

(** The loop over the terms, most specific first: the first term with a
    direct or a partial hit ends the search with that entry's value. *)
Fixpoint firstHit (terms : list (list ascii)) : option (option Z) :=
  match terms with
  | [] => None
  | term :: rest =>
      match direct term with
      | Some value => Some value
      | None =>
          match partial term with
          | Some value => Some value
          | None => firstHit rest
          end
      end
  end.

(** [findBestCategoryMatch]; [None] stands for [null] and [undefined]. *)
Definition findBestCategoryMatch (categoryPath : list ascii) : option Z :=
  match categoryPath with
  | [] => None
  | _ =>
      match firstHit (rev (categoryTerms categoryPath)) with
      | Some value => value
      | None =>
          match anywhere (cleanPath categoryPath) with
          | Some value => value
          | None => None
          end
      end
  end.

(** The loop of [getCategoryId] over the paths. *)
Fixpoint firstCategory (categories : list (list ascii)) : option Z :=
  match categories with
  | [] => None
  | categoryPath :: rest =>
      match findBestCategoryMatch categoryPath with
      | Some categoryId => if categoryId =? 0 then firstCategory rest else Some categoryId
      | None => firstCategory rest
      end
  end.

(** [getCategoryId]: a number of the table, or the default identifier. *)
Definition getCategoryId (csvItem : gmap string string) : Z + string :=
  match csvItem !! "Categories" with
  | Some categories =>
      if truthy (Some categories) then
        match firstCategory (split ";" (chars categories)) with
        | Some categoryId => inl categoryId
        | None => inr defaultJewelryCategory
        end
      else inr defaultJewelryCategory
  | None => inr defaultJewelryCategory
  end.

End Taxonomy.

(** ** More feeds, listings and servers *)

Module Fixtures.
Import JsString JsNumber Normalizer Reconcile Dispatch Transfer.

Definition sequential_options : Options :=
  {| batchSize := 3; delayBetweenBatches := 1000; dryRun := false;
     parallelBatch := false; enableUpdates := true |}.

Definition stuck_options : Options :=
  {| batchSize := 0; delayBetweenBatches := 1000; dryRun := false;
     parallelBatch := true; enableUpdates := true |}.

(** A listing with one feed file of 8 bytes. *)
Definition one_file : list FileInfo :=
  [{| name := "Extract.csv"; type := File; size := 8; modifiedAt := 1700000000000 |}].

(** A transfer that breaks off, and one that completes. *)
Definition broken : Attempt :=
  {| listing := Some one_file; written := Some "Item"; streamError := Some "ECONNRESET" |}.

Definition complete : Attempt :=
  {| listing := Some one_file; written := Some "Item,Qty"; streamError := None |}.

(** A server whose transfers break off twice before one completes. *)
Definition third_time (k : nat) : Retry.Try :=
  {| Retry.listed := inl one_file;
     Retry.transfer := if (k <? 3)%nat then broken else complete |}.

Definition slash_join (dir file : string) : string := dir +:+ "/" +:+ file.

(** A catalog of two pages. *)
Definition page_two_url : string := "https://shop.example/admin/api/2023-10/products.json?page_info=2".

Definition two_pages : Pagination.Http :=
  {| Pagination.get n url :=
       if (n =? 1)%nat then
         inl {| Pagination.data_products := [Scenarios.chain_in_catalog];
                Pagination.headers_link :=
                  Some ("<" +:+ page_two_url +:+ ">; rel=" +:+ dquote +:+ "next" +:+ dquote) |}
       else
         inl {| Pagination.data_products := [Scenarios.ring_in_catalog];
                Pagination.headers_link := None |} |}.

(** A catalog that never ends: every page links to the same next page. *)
Definition endless : Pagination.Http :=
  {| Pagination.get n url :=
       inl {| Pagination.data_products := [Scenarios.ring_in_catalog];
              Pagination.headers_link :=
                Some ("<" +:+ page_two_url +:+ ">; rel=" +:+ dquote +:+ "next" +:+ dquote) |} |}.

Definition downloads : gmap string Retention.Stat :=
  list_to_map [("Extract_older.csv", {| Retention.isFile := true; Retention.mtime := 500 |});
               ("Extract_old.csv", {| Retention.isFile := true; Retention.mtime := 1000 |});
               ("Extract_new.csv", {| Retention.isFile := true; Retention.mtime := 9000 |});
               ("archive", {| Retention.isFile := false; Retention.mtime := 0 |})].

(** No entry is protected against removal. *)
Definition unlocked (file : string) : bool := false.

End Fixtures.

(* ===================================================================== *)
(** * Properties *)
(* ===================================================================== *)

Module JsStringFacts.
Import JsString.

(** A proof by cases over the 256 code units. *)
Ltac each_char c :=
  destruct c as [[] [] [] [] [] [] [] []]; vm_compute; try reflexivity; try discriminate; auto.

Lemma str_inj a b : str a = str b -> a = b.
Proof.
  intros H. apply (f_equal chars) in H. unfold chars, str in H.
  rewrite !list_ascii_of_string_of_list_ascii in H. exact H.
Qed.

Lemma chars_str a : chars (str a) = a.
Proof. apply list_ascii_of_string_of_list_ascii. Qed.

Lemma str_empty a : str a = "" -> a = [].
Proof. intros H. apply str_inj. exact H. Qed.

End JsStringFacts.

Module HandleSpec.
Import JsString Handle JsStringFacts.

Lemma clean_keep c : clean c = true -> keep_char c = true.
Proof. each_char c. Qed.

Lemma clean_not_space c : clean c = true -> is_space c = false.
Proof. each_char c. Qed.

Lemma clean_lower c : clean c = true -> lower_char c = c.
Proof. each_char c. Qed.

Lemma keep_not_space_clean c :
  keep_char c = true -> is_space c = false -> clean c = true.
Proof. each_char c. Qed.

Lemma hyphen_clean : clean hyphen = true.
Proof. reflexivity. Qed.

Lemma strip_special_keeps s : Forall (fun c => keep_char c = true) (strip_special s).
Proof.
  unfold strip_special. induction s as [|c s IH]; simpl; [constructor|].
  destruct (keep_char c) eqn:E; [constructor|]; auto.
Qed.

Lemma spaces_to_hyphen_clean s :
  Forall (fun c => keep_char c = true) s ->
  Forall (fun c => clean c = true) (spaces_to_hyphen s).
Proof.
  induction s as [|c s IH]; intros H; [constructor|].
  inversion H as [|? ? Hc Hs]; subst. specialize (IH Hs).
  cbn [spaces_to_hyphen]. destruct (is_space c) eqn:Ec.
  - destruct s as [|d s']; [repeat constructor|].
    destruct (is_space d); [exact IH|]. constructor; [reflexivity | exact IH].
  - constructor; [apply keep_not_space_clean; assumption | exact IH].
Qed.

Lemma collapse_hyphens_clean s :
  Forall (fun c => clean c = true) s ->
  Forall (fun c => clean c = true) (collapse_hyphens s).
Proof.
  induction s as [|c s IH]; intros H; [constructor|].
  inversion H as [|? ? Hc Hs]; subst. specialize (IH Hs).
  cbn [collapse_hyphens]. destruct (is_hyphen c).
  - destruct s as [|d s']; [repeat constructor; assumption|].
    destruct (is_hyphen d); [exact IH|]. constructor; assumption.
  - constructor; assumption.
Qed.

Lemma collapse_hyphens_head s :
  match collapse_hyphens s, s with
  | c :: _, d :: _ => is_hyphen c = is_hyphen d
  | [], [] => True
  | _, _ => False
  end.
Proof.
  induction s as [|c s IH]; [exact I|].
  cbn [collapse_hyphens]. destruct (is_hyphen c) eqn:Ec.
  - destruct s as [|d s']; [exact Ec|].
    destruct (is_hyphen d) eqn:Ed; [|exact Ec].
    destruct (collapse_hyphens (d :: s')); [exact IH|]. congruence.
  - exact Ec.
Qed.

Lemma collapse_hyphens_single s : single_hyphens (collapse_hyphens s).
Proof.
  induction s as [|c s IH]; [exact I|].
  cbn [collapse_hyphens]. destruct (is_hyphen c) eqn:Ec.
  - destruct s as [|d s']; [exact I|].
    destruct (is_hyphen d) eqn:Ed; [exact IH|].
    pose proof (collapse_hyphens_head (d :: s')) as Hh.
    destruct (collapse_hyphens (d :: s')) as [|e r]; [exact I|].
    split; [|exact IH]. rewrite Hh, Ed. apply andb_false_r.
  - destruct (collapse_hyphens s) as [|e r]; [exact I|].
    split; [|exact IH]. rewrite Ec. reflexivity.
Qed.

Lemma single_hyphens_tail c s : single_hyphens (c :: s) -> single_hyphens s.
Proof. destruct s; [intros; exact I | intros [_ H]; exact H]. Qed.

Lemma drop_leading_shape s :
  Forall (fun c => clean c = true) s -> single_hyphens s ->
  Forall (fun c => clean c = true) (drop_leading s) /\
  single_hyphens (drop_leading s) /\ no_leading_hyphen (drop_leading s).
Proof.
  destruct s as [|c s]; intros Hc Hs; [repeat split; auto|].
  cbn [drop_leading]. destruct (is_hyphen c) eqn:Ec.
  - inversion Hc; subst. split; [assumption|].
    split; [eapply single_hyphens_tail; eassumption|].
    destruct s as [|d s']; [exact I|]. destruct Hs as [Hd _].
    rewrite Ec in Hd. exact Hd.
  - repeat split; assumption.
Qed.

Lemma drop_trailing_shape s :
  Forall (fun c => clean c = true) s -> single_hyphens s -> no_leading_hyphen s ->
  Forall (fun c => clean c = true) (drop_trailing s) /\
  single_hyphens (drop_trailing s) /\ no_leading_hyphen (drop_trailing s).
Proof.
  induction s as [|c s IH]; intros Hc Hs Hl; [repeat split; auto|].
  destruct s as [|d s'].
  - cbn. destruct (is_hyphen c); repeat split; auto.
  - inversion Hc as [|? ? Hc1 Hc2]; subst. destruct Hs as [Hcd Hs].
    change (drop_trailing (c :: d :: s')) with (c :: drop_trailing (d :: s')).
    assert (Hs' : single_hyphens (drop_trailing (d :: s')) /\
                  match drop_trailing (d :: s') with
                  | e :: _ => is_hyphen e = is_hyphen d
                  | [] => True
                  end).
    { clear - Hs. revert d Hs.
      induction s' as [|e s'' IH']; intros d Hs.
      - cbn. destruct (is_hyphen d) eqn:E; cbn; rewrite ?E; split; auto.
      - change (drop_trailing (d :: e :: s'')) with (d :: drop_trailing (e :: s'')).
        destruct Hs as [Hde Hs]. destruct (IH' e Hs) as [H1 H2].
        split; [|reflexivity].
        destruct (drop_trailing (e :: s'')) as [|f r]; [exact I|].
        split; [rewrite H2; exact Hde | exact H1]. }
    destruct Hs' as [Hs1 Hs2].
    split; [|split; [|exact Hl]].
    + constructor; [assumption|].
      clear - Hc2. revert Hc2. generalize (d :: s') as l.
      induction l as [|x l IHl]; intros H; [constructor|].
      inversion H; subst. destruct l as [|y l'].
      * cbn. destruct (is_hyphen x); [constructor | assumption].
      * change (drop_trailing (x :: y :: l')) with (x :: drop_trailing (y :: l')).
        constructor; auto.
    + destruct (drop_trailing (d :: s')) as [|e r]; [exact I|].
      split; [rewrite Hs2; exact Hcd | exact Hs1].
Qed.

Lemma take_shape n s :
  Forall (fun c => clean c = true) s -> single_hyphens s -> no_leading_hyphen s ->
  Forall (fun c => clean c = true) (take n s) /\
  single_hyphens (take n s) /\ no_leading_hyphen (take n s).
Proof.
  intros Hc Hs Hl. split; [apply Forall_take; assumption|]. split.
  - clear Hc Hl. revert s Hs. induction n as [|n IH]; intros s Hs; [destruct s; exact I|].
    destruct s as [|c s]; [exact I|]. cbn [take].
    destruct s as [|d s']; [destruct n; exact I|].
    destruct Hs as [Hcd Hs]. specialize (IH _ Hs).
    destruct n as [|n']; [exact I|]. cbn [take] in *. split; assumption.
  - destruct n, s; try exact I. exact Hl.
Qed.

(** Every handle computed from a title has the finished shape. *)
Lemma slug_chars_finished s : finished (slug_chars s).
Proof.
  unfold slug_chars, trim_hyphens.
  pose proof (strip_special_keeps (toLowerCase s)) as H0.
  apply spaces_to_hyphen_clean in H0. apply collapse_hyphens_clean in H0.
  pose proof (collapse_hyphens_single
                (spaces_to_hyphen (strip_special (toLowerCase s)))) as H1.
  destruct (drop_leading_shape _ H0 H1) as (A1 & A2 & A3).
  destruct (drop_trailing_shape _ A1 A2 A3) as (B1 & B2 & B3).
  destruct (take_shape 100 _ B1 B2 B3) as (C1 & C2 & C3).
  repeat split; try assumption. rewrite length_take. lia.
Qed.

Lemma toLowerCase_clean s :
  Forall (fun c => clean c = true) s -> toLowerCase s = s.
Proof.
  unfold toLowerCase. induction 1 as [|c s Hc _ IH]; [reflexivity|].
  cbn [map]. rewrite IH, (clean_lower c Hc). reflexivity.
Qed.

Lemma strip_special_clean s :
  Forall (fun c => clean c = true) s -> strip_special s = s.
Proof.
  unfold strip_special. induction 1 as [|c s Hc _ IH]; [reflexivity|].
  cbn [List.filter]. rewrite (clean_keep c Hc), IH. reflexivity.
Qed.

Lemma spaces_to_hyphen_id s :
  Forall (fun c => clean c = true) s -> spaces_to_hyphen s = s.
Proof.
  induction 1 as [|c s Hc _ IH]; [reflexivity|].
  cbn [spaces_to_hyphen]. rewrite (clean_not_space c Hc), IH. reflexivity.
Qed.

Lemma collapse_hyphens_id s : single_hyphens s -> collapse_hyphens s = s.
Proof.
  induction s as [|c s IH]; intros Hs; [reflexivity|].
  cbn [collapse_hyphens]. destruct s as [|d s'].
  - destruct (is_hyphen c); reflexivity.
  - destruct Hs as [Hcd Hs]. rewrite (IH Hs).
    destruct (is_hyphen c); [|reflexivity].
    cbn in Hcd. rewrite Hcd. reflexivity.
Qed.

Lemma drop_leading_id s : no_leading_hyphen s -> drop_leading s = s.
Proof. destruct s as [|c s]; cbn; [reflexivity|]. intros ->. reflexivity. Qed.

Lemma length_drop_trailing s : (length (drop_trailing s) <= length s)%nat.
Proof.
  induction s as [|c s IH]; [cbn; lia|].
  destruct s as [|d s']; [cbn; destruct (is_hyphen c); cbn; lia|].
  change (drop_trailing (c :: d :: s')) with (c :: drop_trailing (d :: s')).
  cbn [length] in *. lia.
Qed.

(** On a finished handle the whole pipeline only removes a final hyphen. *)
Lemma slug_chars_on_finished s : finished s -> slug_chars s = drop_trailing s.
Proof.
  intros (Hc & Hs & Hl & Hn). unfold slug_chars, trim_hyphens.
  rewrite (toLowerCase_clean s Hc), (strip_special_clean s Hc),
    (spaces_to_hyphen_id s Hc), (collapse_hyphens_id s Hs), (drop_leading_id s Hl).
  apply take_ge. pose proof (length_drop_trailing s). lia.
Qed.

Lemma drop_trailing_fixed s :
  drop_trailing s = s <->
  match last s with Some c => is_hyphen c = false | None => True end.
Proof.
  induction s as [|c s IH]; [cbn; tauto|].
  destruct s as [|d s'].
  - cbn. destruct (is_hyphen c); split; intros; auto; discriminate.
  - change (drop_trailing (c :: d :: s')) with (c :: drop_trailing (d :: s')).
    change (last (c :: d :: s')) with (last (d :: s')).
    rewrite <- IH. split; intros H; [injection H; auto | rewrite H; reflexivity].
Qed.

(** C8 (amended): applying [generateHandle] to a handle it produced gives the
    same handle exactly when that handle is non-empty and does not end with a
    hyphen; in every other case the second application changes it. *)
Theorem generateHandle_idempotent_iff (x : string) :
  generateHandle (generateHandle x) = generateHandle x <->
  (generateHandle x <> "" /\ ends_with_hyphen (generateHandle x) = false).
Proof.
  assert (Hx : generateHandle x = "product" \/
               generateHandle x = str (slug_chars (chars x))).
  { unfold generateHandle. destruct (String.eqb x ""); auto. }
  destruct Hx as [-> | ->].
  { split; [intros _; split; [discriminate | reflexivity] | intros _; reflexivity]. }
  set (s := slug_chars (chars x)).
  pose proof (slug_chars_finished (chars x)) as Hfin. fold s in Hfin.
  unfold generateHandle, ends_with_hyphen. rewrite chars_str.
  destruct (String.eqb (str s) "") eqn:Es.
  - apply String.eqb_eq in Es. rewrite Es. split; [discriminate|].
    intros [H _]. contradiction.
  - rewrite (slug_chars_on_finished s Hfin).
    apply String.eqb_neq in Es. split.
    + intros H. apply str_inj in H. apply drop_trailing_fixed in H.
      split; [exact Es|]. destruct (last s); [exact H | reflexivity].
    + intros [_ H]. f_equal. apply drop_trailing_fixed.
      destruct (last s); [exact H | exact I].
Qed.

(** C8 (as stated) fails: a title whose cleaned form is cut at 100 characters
    right after a hyphen yields a handle that a second pass shortens. *)
Lemma generateHandle_not_idempotent :
  generateHandle (generateHandle long_title) <> generateHandle long_title.
Proof. vm_compute. discriminate. Qed.

End HandleSpec.

Module NumberFacts.
Import JsString JsNumber.

Lemma shr_1_nonneg mrs : 0 <= shr_m mrs -> 0 <= shr_m (shr_1 mrs).
Proof.
  destruct mrs as [m r t]. cbn [shr_m]. intros H.
  destruct m as [|[p|p|]|p]; cbn; lia.
Qed.

Lemma iter_pos_shr_1_nonneg p mrs :
  0 <= shr_m mrs -> 0 <= shr_m (SpecFloat.iter_pos shr_1 p mrs).
Proof.
  revert mrs. induction p as [p IH|p IH|]; intros mrs H; cbn [SpecFloat.iter_pos].
  - apply IH, IH, shr_1_nonneg, H.
  - apply IH, IH, H.
  - apply shr_1_nonneg, H.
Qed.

Lemma shr_fexp_nonneg m e l :
  0 <= m -> 0 <= shr_m (fst (shr_fexp prec emax m e l)).
Proof.
  intros H. unfold shr_fexp, shr.
  assert (H0 : 0 <= shr_m (shr_record_of_loc m l)).
  { destruct l as [|[]]; cbn; exact H. }
  destruct (fexp prec emax (Zdigits2 m + e) - e) as [|p|p]; cbn [fst]; auto.
  apply iter_pos_shr_1_nonneg, H0.
Qed.

Lemma round_nearest_even_nonneg m l : 0 <= m -> 0 <= round_nearest_even m l.
Proof.
  intros H. unfold round_nearest_even.
  destruct l as [|[]]; try destruct (Z.even m); lia.
Qed.

(** Rounding a non-negative mantissa never yields [NaN]. *)
Lemma binary_round_aux_not_nan sx mx ex lx :
  0 <= mx -> isNaN (binary_round_aux prec emax sx mx ex lx) = false.
Proof.
  intros H. unfold binary_round_aux.
  pose proof (shr_fexp_nonneg mx ex lx H) as H1.
  destruct (shr_fexp prec emax mx ex lx) as [mrs' e']. cbn [fst] in H1.
  pose proof (shr_fexp_nonneg _ e' loc_Exact
                (round_nearest_even_nonneg _ (loc_of_shr_record mrs') H1)) as H2.
  destruct (shr_fexp prec emax _ e' loc_Exact) as [mrs'' e'']. cbn [fst] in H2.
  destruct (shr_m mrs'') as [|m|m]; [reflexivity | | lia].
  destruct (e'' <=? emax - prec); reflexivity.
Qed.

Lemma of_decimal_not_nan neg m e : isNaN (of_decimal neg m e) = false.
Proof.
  unfold of_decimal. destruct m as [|p|p]; try reflexivity.
  destruct (0 <=? e).
  - unfold binary_round. destruct (shl_align _ _ _) as [mz ez].
    apply binary_round_aux_not_nan. lia.
  - unfold SFdiv.
    destruct (SFdiv_core_binary prec emax (Z.pos p) 0
                (Z.pos (Z.to_pos (10 ^ (- e)))) 0) as [[mz ez] lz] eqn:E.
    apply binary_round_aux_not_nan.
    unfold SFdiv_core_binary in E.
    set (m' := match _ - _ with Z.pos _ => _ | Z0 => _ | Z.neg _ => _ end) in E.
    assert (Hm' : 0 <= m').
    { subst m'. destruct (_ - _); try lia. apply Z.shiftl_nonneg. lia. }
    pose proof (Z_div_mod m' (Z.pos (Z.to_pos (10 ^ (- e)))) eq_refl) as Hd.
    destruct (Z.div_eucl m' (Z.pos (Z.to_pos (10 ^ (- e))))) as [q r].
    injection E as <- _ _. nia.
Qed.

Lemma SFeqb_refl x : isNaN x = false -> SFeqb x x = true.
Proof.
  destruct x as [s|s| |s m e]; cbn; try discriminate; intros _.
  - reflexivity.
  - destruct s; reflexivity.
  - unfold SFeqb, SFcompare. rewrite Z.compare_refl.
    change (Pos.compare_cont Eq m m) with (Pos.compare m m).
    rewrite Pos.compare_refl. destruct s; reflexivity.
Qed.

Lemma digit_char_is_digit d : 0 <= d <= 9 -> is_digit (digit_char d) = true.
Proof.
  intros H.
  assert (Hd : d = 0 \/ d = 1 \/ d = 2 \/ d = 3 \/ d = 4 \/ d = 5 \/ d = 6 \/
               d = 7 \/ d = 8 \/ d = 9) by lia.
  repeat (destruct Hd as [-> | Hd]; [reflexivity|]). subst d. reflexivity.
Qed.

Lemma decimal_digits_head fuel n acc :
  exists c rest, decimal_digits fuel n acc = c :: rest /\ is_digit c = true.
Proof.
  revert n acc. induction fuel as [|fuel IH]; intros n acc; cbn [decimal_digits].
  - eexists _, _. split; [reflexivity|].
    apply digit_char_is_digit. pose proof (Z.mod_pos_bound n 10). lia.
  - destruct (n <? 10); [|apply IH].
    eexists _, _. split; [reflexivity|].
    apply digit_char_is_digit. pose proof (Z.mod_pos_bound n 10). lia.
Qed.

Lemma read_literal_digit neg c rest :
  is_digit c = true -> isNaN (read_literal neg (c :: rest)) = false.
Proof.
  intros Hc.
  assert (HI : starts_with (chars "Infinity") (c :: rest) = false)
    by (revert Hc; JsStringFacts.each_char c).
  unfold read_literal. rewrite HI. cbn [span_digits]. rewrite Hc.
  destruct (span_digits rest) as [ds tl].
  destruct (match tl with
            | "."%char :: after => span_digits after
            | _ => ([], tl)
            end) as [fd rest'].
  cbn [app]. apply of_decimal_not_nan.
Qed.

(** A string that begins with a digit, or with a minus sign and a digit,
    always reads as a number. *)
Lemma parseFloat_digit c rest :
  is_digit c = true ->
  isNaN (parseFloat (c :: rest)) = false /\
  isNaN (parseFloat ("-"%char :: c :: rest)) = false.
Proof.
  intros Hc.
  assert (Hsp : is_space c = false) by (revert Hc; JsStringFacts.each_char c).
  assert (Hsg : read_sign (c :: rest) = (false, c :: rest))
    by (revert Hc; JsStringFacts.each_char c).
  split.
  - unfold parseFloat. cbn [skip_space]. rewrite Hsp, Hsg.
    apply read_literal_digit, Hc.
  - unfold parseFloat.
    change (skip_space ("-"%char :: c :: rest)) with ("-"%char :: c :: rest).
    change (read_sign ("-"%char :: c :: rest)) with (true, c :: rest).
    apply read_literal_digit, Hc.
Qed.

(** What [toFixed(2)] prints for a number always reads back as a number. *)
Lemma parseFloat_toFixed2 x :
  isNaN x = false -> isNaN (parseFloat (toFixed2 x)) = false.
Proof.
  destruct x as [s|s| |s m e]; cbn [isNaN]; try discriminate; intros _.
  - reflexivity.
  - destruct s; reflexivity.
  - cbn [toFixed2].
    destruct (decimal_digits_head (Z.to_nat (Z.log2 (scaled_round m e / 100)))
                (scaled_round m e / 100) []) as (c & rest & Hd & Hc).
    unfold Z_to_digits. rewrite Hd.
    destruct s; cbn [app]; apply (parseFloat_digit c _ Hc).
Qed.

End NumberFacts.

Module ReconcileSpec.
Import JsString JsNumber Normalizer Reconcile JsStringFacts.

Lemma elem_of_changed (c x : Change) b : x ∈ changed b c <-> b = true /\ x = c.
Proof.
  unfold changed. destruct b.
  - rewrite list_elem_of_singleton. intuition congruence.
  - rewrite elem_of_nil. intuition congruence.
Qed.

(** The price the normaliser produces always reads as a number. *)
Lemma parsePrice_number v : isNaN (parseFloat (chars (parsePrice v))) = false.
Proof.
  unfold parsePrice. destruct v as [s|]; [|reflexivity].
  destruct (truthy (Some s)); [|reflexivity].
  set (price := parseFloat (List.filter numeric_char (chars s))).
  destruct (isNaN price) eqn:E; [reflexivity|].
  rewrite chars_str. apply NumberFacts.parseFloat_toFixed2. exact E.
Qed.

Ltac changes_membership :=
  repeat (rewrite elem_of_app || rewrite elem_of_changed || rewrite elem_of_nil).

Lemma price_in csvVariant existingVariant :
  price_ ∈ compareVariants csvVariant existingVariant <->
  SFeqb (parseFloat (chars (price csvVariant)))
        (parseFloat (chars (ev_price existingVariant))) = false.
Proof.
  unfold compareVariants, strict_neq. changes_membership.
  rewrite ?negb_true_iff. intuition congruence.
Qed.

Lemma compare_price_in csvVariant existingVariant :
  compare_price_ ∈ compareVariants csvVariant existingVariant <->
  exists cap, compare_at_price csvVariant = Some cap /\ truthy (Some cap) = true /\
    SFeqb (parseFloat (chars cap))
          (parseFloat_or_zero (ev_compare_at_price existingVariant)) = false.
Proof.
  unfold compareVariants, strict_neq. changes_membership.
  destruct (compare_at_price csvVariant) as [cap|].
  - rewrite ?andb_true_iff, ?negb_true_iff. split.
    + intros H. exists cap. intuition congruence.
    + intros (cap' & Hc & Ht & He). injection Hc as <-. intuition.
  - split; [intuition congruence|]. intros (cap & Hc & _). discriminate.
Qed.

(** A variant-level change is reported by the product comparator exactly
    when the snapshot has a first variant and the variant comparator
    reports it. *)
Lemma variant_change_in (c : Change) csvItem existingProduct :
  is_variant_change c = true ->
  (c ∈ doesProductNeedUpdate csvItem existingProduct <->
   exists existingVariant others,
     ep_variants existingProduct = existingVariant :: others /\
     c ∈ compareVariants (createVariant csvItem) existingVariant).
Proof.
  intros Hc. unfold doesProductNeedUpdate, compareProducts.
  cbn [mapCSVToShopifyProduct variants].
  changes_membership.
  destruct (ep_variants existingProduct) as [|ev others].
  - rewrite elem_of_nil. split.
    + intros H. destruct c; cbn in Hc; try discriminate; intuition congruence.
    + intros (? & ? & ? & _). discriminate.
  - split.
    + intros H. exists ev, others. split; [reflexivity|].
      destruct c; cbn in Hc; try discriminate; intuition congruence.
    + intros (ev' & others' & He & Hin). injection He as <- <-. tauto.
Qed.

(** C10: without an MSRP the incoming variant has no compare-at price, and
    the comparator then never reports a compare-at-price change, whatever
    the catalog holds. *)
Theorem compare_price_needs_incoming
    (csvItem : gmap string string) (existingProduct : ExistingProduct) :
  truthy (csvItem !! "MSRP") = false ->
  compare_at_price (createVariant csvItem) = None /\
  compare_price_ ∉ doesProductNeedUpdate csvItem existingProduct.
Proof.
  intros H.
  assert (Hcap : compare_at_price (createVariant csvItem) = None).
  { cbn [createVariant compare_at_price]. rewrite H. reflexivity. }
  split; [exact Hcap|].
  rewrite (variant_change_in compare_price_) by reflexivity.
  intros (ev & others & _ & Hin).
  apply compare_price_in in Hin. destruct Hin as (cap & Hc & _). congruence.
Qed.

Lemma compare_price_needs_incoming_witness :
  compare_at_price (createVariant Scenarios.ring) = None /\
  compare_price_ ∉ doesProductNeedUpdate Scenarios.ring Scenarios.ring_on_sale.
Proof. apply compare_price_needs_incoming. vm_compute. reflexivity. Defined.

(** C5 (amended): price and compare-at price are compared as the numbers
    [parseFloat] reads on both sides: a change is reported exactly when
    those numbers differ.  A catalog price written exactly like the
    incoming 2-decimal rendering is therefore never reported. *)
Theorem prices_compared_as_numbers
    (csvItem : gmap string string) (existingProduct : ExistingProduct)
    (existingVariant : ExistingVariant) (others : list ExistingVariant) :
  ep_variants existingProduct = existingVariant :: others ->
  let csvVariant := createVariant csvItem in
  (price_ ∈ doesProductNeedUpdate csvItem existingProduct <->
     SFeqb (parseFloat (chars (price csvVariant)))
           (parseFloat (chars (ev_price existingVariant))) = false) /\
  (ev_price existingVariant = price csvVariant ->
     price_ ∉ doesProductNeedUpdate csvItem existingProduct) /\
  (compare_price_ ∈ doesProductNeedUpdate csvItem existingProduct <->
     exists cap, compare_at_price csvVariant = Some cap /\
       SFeqb (parseFloat (chars cap))
             (parseFloat_or_zero (ev_compare_at_price existingVariant)) = false) /\
  (ev_compare_at_price existingVariant = compare_at_price csvVariant ->
     compare_price_ ∉ doesProductNeedUpdate csvItem existingProduct).
Proof.
  intros Hv csvVariant.
  assert (Hp : price_ ∈ doesProductNeedUpdate csvItem existingProduct <->
               price_ ∈ compareVariants csvVariant existingVariant).
  { rewrite (variant_change_in price_) by reflexivity. rewrite Hv. split.
    - intros (ev & o & He & Hin). injection He as <- <-. exact Hin.
    - intros Hin. eauto. }
  assert (Hc : compare_price_ ∈ doesProductNeedUpdate csvItem existingProduct <->
               compare_price_ ∈ compareVariants csvVariant existingVariant).
  { rewrite (variant_change_in compare_price_) by reflexivity. rewrite Hv. split.
    - intros (ev & o & He & Hin). injection He as <- <-. exact Hin.
    - intros Hin. eauto. }
  assert (Hcap : forall cap, compare_at_price csvVariant = Some cap ->
                   truthy (Some cap) = true /\
                   isNaN (parseFloat (chars cap)) = false).
  { intros cap. subst csvVariant. cbn [createVariant compare_at_price].
    destruct (truthy (csvItem !! "MSRP")); [|discriminate].
    intros [= <-]. split; [|apply parsePrice_number].
    pose proof (parsePrice_number (csvItem !! "MSRP")) as Hn.
    destruct (parsePrice (csvItem !! "MSRP")); [discriminate Hn | reflexivity]. }
  repeat split.
  - rewrite Hp. apply price_in.
  - rewrite Hp. apply price_in.
  - intros Heq. rewrite Hp, price_in, Heq.
    rewrite NumberFacts.SFeqb_refl; [discriminate|].
    subst csvVariant. cbn [createVariant price]. apply parsePrice_number.
  - rewrite Hc, compare_price_in. intros (cap & H1 & _ & H2). eauto.
  - rewrite Hc, compare_price_in. intros (cap & H1 & H2).
    exists cap. destruct (Hcap cap H1). auto.
  - intros Heq. rewrite Hc, compare_price_in.
    intros (cap & H1 & Ht & H2). rewrite Heq, H1 in H2.
    unfold parseFloat_or_zero in H2. rewrite Ht in H2.
    rewrite NumberFacts.SFeqb_refl in H2; [discriminate|].
    apply (Hcap cap H1).
Qed.

Lemma prices_compared_as_numbers_witness :
  price_ ∉ doesProductNeedUpdate Scenarios.ring
             (Scenarios.stored 9001 7001 (mapCSVToShopifyProduct Scenarios.ring)).
Proof.
  refine (proj1 (proj2 (prices_compared_as_numbers Scenarios.ring
            (Scenarios.stored 9001 7001 (mapCSVToShopifyProduct Scenarios.ring))
            _ [] eq_refl)) eq_refl).
Defined.

(** C5 (as stated) fails: the catalog price 19.999 and the incoming 20.00
    have the same 2-decimal rendering, and a price change is reported. *)
Lemma price_not_compared_by_rendering :
  ~ (forall csvItem existingProduct existingVariant others,
       ep_variants existingProduct = existingVariant :: others ->
       (price_ ∈ doesProductNeedUpdate csvItem existingProduct <->
        render2 (price (createVariant csvItem)) <>
        render2 (ev_price existingVariant))).
Proof.
  intros H.
  specialize (H Scenarios.ring Scenarios.ring_in_catalog _ [] eq_refl).
  apply H; [|vm_compute; reflexivity].
  apply (variant_change_in price_); [reflexivity|].
  eexists _, []. split; [reflexivity|].
  apply price_in. vm_compute. reflexivity.
Qed.

(** A single change yields a patch with exactly that property. *)
Lemma single_change_patch csvItem existingProduct existingVariant others (c : Change) :
  ep_variants existingProduct = existingVariant :: others ->
  patch_fields (buildUpdateData (mapCSVToShopifyProduct csvItem) existingProduct [c])
    = [c].
Proof.
  intros Hv. unfold buildUpdateData. cbn [foldl].
  destruct c; cbn [applyChange]; rewrite ?Hv; reflexivity.
Qed.

Ltac fields_membership :=
  repeat (rewrite elem_of_app || rewrite elem_of_changed || rewrite elem_of_nil
          || rewrite list_elem_of_singleton).

Lemma variant_fields_variantUpdate id v (c : Change) :
  is_variant_change c = true -> variant_fields (variantUpdate id v c) = [c].
Proof. destruct c; try discriminate; reflexivity. Qed.

(** One turn of the loop adds at most the property it is run for. *)
Lemma applyChange_fields csvProductData existingProduct u d x :
  x ∈ patch_fields (applyChange csvProductData existingProduct u d) ->
  x = d \/ x ∈ patch_fields u.
Proof.
  destruct d; cbn [applyChange];
    try (destruct (ep_variants existingProduct) as [|ev evs];
         destruct (variants csvProductData) as [|v vs]);
    unfold patch_fields, set_variants;
    cbn [u_id u_title u_body_html u_product_type u_tags u_status
         u_product_category_id u_images u_variants];
    try (destruct (u_variants u) as [vs0|]);
    cbn [default flat_map app];
    fields_membership; cbn;
    rewrite ?variant_fields_variantUpdate by reflexivity;
    rewrite ?app_nil_r; fields_membership; tauto.
Qed.

(** A patch never carries a property that the changes do not name. *)
Lemma patch_fields_named csvProductData existingProduct changes c :
  c ∈ patch_fields (buildUpdateData csvProductData existingProduct changes) ->
  c ∈ changes.
Proof.
  unfold buildUpdateData.
  assert (H : forall cs u,
            c ∈ patch_fields (foldl (applyChange csvProductData existingProduct) u cs) ->
            c ∈ cs \/ c ∈ patch_fields u).
  { induction cs as [|d cs IH]; intros u Hc; [right; exact Hc|].
    cbn [foldl] in Hc. destruct (IH _ Hc) as [Hin | Hin].
    - left. right. exact Hin.
    - apply applyChange_fields in Hin. destruct Hin as [-> | Hin]; [left; left | right; auto]. }
  intros Hc. destruct (H _ _ Hc) as [Hin | Hin]; [exact Hin|].
  revert Hin. unfold patch_fields, empty_patch. cbn. fields_membership.
  intuition discriminate.
Qed.

(** C2: for the chain whose price and stock both changed the comparator
    names both, and the patch built from them carries the stock only: the
    variant entry written for the price is replaced, not merged. *)
Theorem buildUpdateData_keeps_last_variant_change :
  doesProductNeedUpdate Scenarios.chain_now Scenarios.chain_in_catalog
    = [price_; inventory_] /\
  patch_fields (buildUpdateData (mapCSVToShopifyProduct Scenarios.chain_now)
                  Scenarios.chain_in_catalog [price_; inventory_])
    = [inventory_].
Proof. vm_compute. split; reflexivity. Qed.

End ReconcileSpec.

Module DispatchSpec.
Import JsString JsNumber Normalizer Reconcile Dispatch Schedule Replies.

Section WithApi.
Context {api : CatalogApi}.

Lemma tally_counted value r :
  counted (type value) ->
  accounted (tally value r) = S (accounted r) /\
  (created (tally value r) + updated (tally value r) =
     S (created r + updated r))%nat /\
  errors (tally value r) = errors r /\
  errorDetails (tally value r) = errorDetails r /\
  skipped (tally value r) = skipped r.
Proof.
  unfold tally, accounted. intros [H | H]; rewrite H; cbn; repeat split; lia.
Qed.

Lemma tally_dry value r :
  type value = dry_run_create \/ type value = dry_run_update -> tally value r = r.
Proof. unfold tally. intros [H | H]; rewrite H; reflexivity. Qed.

Lemma record_error_fields detail r :
  accounted (record_error detail r) = S (accounted r) /\
  (created (record_error detail r) + updated (record_error detail r) =
     created r + updated r)%nat /\
  errors (record_error detail r) = S (errors r) /\
  errorDetails (record_error detail r) = errorDetails r ++ [detail] /\
  skipped (record_error detail r) = skipped r.
Proof. unfold record_error, accounted. cbn. repeat split; lia. Qed.

(** Outside a dry run an item operation issues exactly one request and
    either throws or yields a result that the tally counts. *)
Lemma processItem_live item history :
  exists request,
    is_network request = true /\
    (processItem item false history).2 = history ++ [request] /\
    match (processItem item false history).1 with
    | inl value => counted (type value)
    | inr _ => True
    end.
Proof.
  destruct item as [csv | csv existing changes]; cbn [processItem].
  - unfold processCreateItem. cbn iota.
    exists (NetCreate (mapCSVToShopifyProduct csv)).
    destruct (createProduct _ _); cbn; repeat split; auto. left. reflexivity.
  - unfold processUpdateItem. cbn iota.
    exists (NetUpdate (ep_id existing)
              (buildUpdateData (mapCSVToShopifyProduct csv) existing changes)).
    destruct (updateProduct _ _ _); cbn; repeat split; auto. right. reflexivity.
Qed.

(** In a dry run an item operation issues nothing and yields a result
    tagged as a dry run. *)
Lemma processItem_dry item history :
  exists value,
    processItem item true history = (inl value, history) /\
    (type value = dry_run_create \/ type value = dry_run_update).
Proof.
  destruct item as [csv | csv existing changes]; cbn;
    eexists; split; try reflexivity; cbn; auto.
Qed.

Lemma startAll_live batch : forall promises history,
  exists settled requests,
    foldl (fun '(promises, h) item =>
             match processItem item false h with
             | (inl result, h') => (promises ++ [fulfilled (succeeded result)], h')
             | (inr message, h') =>
                 (promises ++ [fulfilled (failed {| csvItem := identifier item;
                                                    error := message |})], h')
             end) (promises, history) batch
      = (promises ++ settled, history ++ requests) /\
    length requests = length batch /\
    Forall (fun e => is_network e = true) requests /\
    Forall2 settles_for batch settled.
Proof.
  induction batch as [|item batch IH]; intros promises history.
  - exists [], []. rewrite !app_nil_r. repeat split; constructor.
  - cbn [foldl].
    destruct (processItem_live item history) as (request & Hn & Htr & Hres).
    destruct (processItem item false history) as [[value | message] h'];
      cbn [fst snd] in Htr, Hres; subst h'.
    + destruct (IH (promises ++ [fulfilled (succeeded value)])
                   (history ++ [request])) as (settled & requests & -> & Hl & Hf & H2).
      exists (fulfilled (succeeded value) :: settled), (request :: requests).
      rewrite <- !app_assoc. cbn [app length].
      repeat split; auto. constructor; [|exact H2].
      eexists. split; [reflexivity | exact Hres].
    + destruct (IH (promises ++ [fulfilled (failed {| csvItem := identifier item;
                                                      error := message |})])
                   (history ++ [request])) as (settled & requests & -> & Hl & Hf & H2).
      eexists (fulfilled (failed _) :: settled), (request :: requests).
      rewrite <- !app_assoc. cbn [app length].
      repeat split; auto. constructor; [|exact H2].
      eexists. split; reflexivity.
Qed.

Lemma tallySettled_fold batch settled :
  Forall2 settles_for batch settled -> forall r,
  let r' := foldl tallySettled r (zip batch settled) in
  errors r' = (errors r + length (failures settled))%nat /\
  errorDetails r' = errorDetails r ++ failures settled /\
  (created r' + updated r' + length (failures settled) =
     created r + updated r + length batch)%nat /\
  skipped r' = skipped r.
Proof.
  induction 1 as [|item p batch settled Hp _ IH]; intros r.
  - cbn. rewrite app_nil_r. repeat split; lia.
  - cbn [zip zip_with foldl]. destruct Hp as (value & -> & Hv).
    specialize (IH (tallySettled r (item, fulfilled value))). cbv zeta in IH.
    destruct IH as (E1 & E2 & E3 & E4). cbv zeta.
    change (zip_with pair batch settled) with (zip batch settled).
    rewrite E1, E2, E4. unfold tallySettled in *. cbn [snd fst] in *.
    destruct value as [result | detail]; cbn [failures flat_map app length].
    + destruct (tally_counted result r Hv) as (_ & T2 & T3 & T4 & T5).
      rewrite T3, T4, T5. fold (failures settled) in *.
      repeat split; try lia.
    + destruct (record_error_fields detail r) as (_ & T2 & T3 & T4 & T5).
      rewrite T3, T4, T5. fold (failures settled) in *.
      rewrite <- app_assoc. repeat split; try lia.
Qed.

(** What the parallel routine does to a batch outside a dry run. *)
Lemma parallel_effect (batch : list Item) (st : Run) :
  let st' := processBatchParallelWithUpdates batch st false in
  let settled := (startAll batch false (trace st)).1 in
  (exists requests,
     trace st' = trace st ++ requests /\ length requests = length batch /\
     Forall (fun e => is_network e = true) requests) /\
  Forall2 settles_for batch settled /\
  errors (results st') = (errors (results st) + length (failures settled))%nat /\
  errorDetails (results st') = errorDetails (results st) ++ failures settled /\
  (created (results st') + updated (results st') + length (failures settled) =
     created (results st) + updated (results st) + length batch)%nat /\
  skipped (results st') = skipped (results st).
Proof.
  cbv zeta. unfold processBatchParallelWithUpdates, startAll.
  destruct (startAll_live batch [] (trace st))
    as (settled & requests & -> & Hl & Hn & H2).
  cbn [app fst snd results trace].
  split; [eauto|]. split; [exact H2|].
  apply (tallySettled_fold batch settled H2).
Qed.

(** *** Item outcomes in terms of the catalog's answers *)

(** Outside a dry run an item operation issues the item's request and
    turns the catalog's answer into its result. *)
Lemma processItem_answer item history :
  processItem item false history =
    (match answer item history with
     | inl product => inl (result_of item product)
     | inr message => inr message
     end, history ++ [request_of item]).
Proof.
  destruct item as [c | c e ch]; cbn [processItem answer request_of result_of].
  - unfold processCreateItem. destruct (createProduct _ _); reflexivity.
  - unfold processUpdateItem. destruct (updateProduct _ _ _); reflexivity.
Qed.



Lemma paced_answers_lookup batch : forall history k item,
  batch !! k = Some item ->
  paced_answers batch history !! k =
    Some (answer item
            (history ++ mjoin (zip_with paced (take k batch)
                                 (take k (paced_answers batch history))))).
Proof.
  induction batch as [|item0 batch IH]; intros history k item Hk; [discriminate|].
  destruct k as [|k].
  - injection Hk as <-. cbn. now rewrite app_nil_r.
  - cbn in Hk. cbn [paced_answers]. cbv zeta.
    change ((?x :: ?l) !! S k) with (l !! k).
    rewrite (IH _ _ _ Hk). cbn [take zip_with mjoin list_join].
    now rewrite <- app_assoc.
Qed.


Lemma length_paced_answers batch : forall history,
  length (paced_answers batch history) = length batch.
Proof. induction batch as [|i b IH]; intros h; cbn; [|rewrite IH]; reflexivity. Qed.

(** What tallying the outcomes of a batch adds to the results. *)
Lemma tallySettled_answers batch : forall replies r,
  let r' := foldl tallySettled r (zip batch (zip_with settle batch replies)) in
  errors r' = (errors r + length (refused batch replies))%nat /\
  errorDetails r' = errorDetails r ++ refused batch replies /\
  created r' = (created r + length (accepted_creates batch replies))%nat /\
  createdProducts r' = createdProducts r ++ accepted_creates batch replies /\
  updated r' = (updated r + length (accepted_updates batch replies))%nat /\
  updatedProducts r' = updatedProducts r ++ accepted_updates batch replies /\
  skipped r' = skipped r /\ total r' = total r.
Proof.
  induction batch as [|item batch IH]; intros replies r; cbv zeta.
  - cbn. rewrite !app_nil_r. repeat split; lia.
  - destruct replies as [|reply replies].
    { cbn. rewrite !app_nil_r. repeat split; lia. }
    cbn [zip_with zip foldl].
    change (zip_with pair batch (zip_with settle batch replies))
      with (zip batch (zip_with settle batch replies)).
    specialize (IH replies (tallySettled r (item, settle item reply))).
    cbv zeta in IH. destruct IH as (E1 & E2 & E3 & E4 & E5 & E6 & E7 & E8).
    rewrite E1, E2, E3, E4, E5, E6, E7, E8.
    unfold refused, accepted_creates, accepted_updates.
    cbn [zip zip_with omap list_omap].
    change (zip_with pair batch replies) with (zip batch replies).
    destruct reply as [product | message]; destruct item as [c | c e ch];
      cbn; rewrite <- ?app_assoc; cbn; repeat split; lia.
Qed.

Lemma outcomes_partition batch : forall replies,
  length replies = length batch ->
  (length (refused batch replies) + length (accepted_creates batch replies) +
   length (accepted_updates batch replies) = length batch)%nat.
Proof.
  induction batch as [|item batch IH]; intros [|reply replies] Hl;
    try discriminate Hl; [reflexivity|].
  injection Hl as Hl. specialize (IH replies Hl).
  unfold refused, accepted_creates, accepted_updates in *.
  cbn [zip zip_with omap list_omap length].
  change (zip_with pair batch replies) with (zip batch replies).
  destruct reply, item; cbn [fst snd length]; lia.
Qed.


(** One item of the sequential routine outside a dry run. *)
Lemma sequentialItem_answer st item :
  sequentialItem false st item =
    {| results := tallySettled (results st) (item, settle item (answer item (trace st)));
       trace := trace st ++ paced item (answer item (trace st)) |}.
Proof.
  unfold sequentialItem. rewrite processItem_answer.
  destruct (answer item (trace st)) as [product | message];
    cbn [settle paced tallySettled snd fst]; rewrite <- ?app_assoc; reflexivity.
Qed.

(** The whole effect of the sequential routine outside a dry run. *)
Lemma sequential_answers batch : forall st,
  processBatchSequentialWithUpdates batch st false =
    {| results := foldl tallySettled (results st)
                    (zip batch (zip_with settle batch (paced_answers batch (trace st))));
       trace := trace st ++
                mjoin (zip_with paced batch (paced_answers batch (trace st))) |}.
Proof.
  unfold processBatchSequentialWithUpdates.
  induction batch as [|item batch IH]; intros st.
  - cbn. rewrite app_nil_r. now destruct st.
  - cbn [foldl]. rewrite sequentialItem_answer, IH. cbn [results trace].
    cbn [paced_answers zip_with zip foldl mjoin list_join]. cbv zeta.
    now rewrite <- app_assoc.
Qed.


(** *** The sequential routine and the batch loop *)

Lemma sequentialItem_effect dry st item :
  let st' := sequentialItem dry st item in
  (exists added, trace st' = trace st ++ added /\ quiet dry added) /\
  (dry = false -> accounted (results st') = S (accounted (results st))) /\
  (dry = true -> results st' = results st).
Proof.
  cbv zeta. unfold sequentialItem. destruct dry.
  - destruct (processItem_dry item (trace st)) as (value & -> & Hv).
    cbn [results trace]. split; [|split; [discriminate|]].
    + exists [Delay 100]. split; [reflexivity|].
      split; [repeat constructor | intros _; repeat constructor].
    + intros _. apply tally_dry, Hv.
  - destruct (processItem_live item (trace st)) as (request & Hn & Htr & Hres).
    destruct (processItem item false (trace st)) as [[value | message] h'];
      cbn [fst snd] in Htr, Hres; subst h'; cbn [results trace].
    + split; [|split; [|discriminate]].
      * exists [request; Delay 100]. rewrite <- app_assoc. split; [reflexivity|].
        split; [|discriminate]. destruct request; try discriminate; repeat constructor.
      * intros _. apply tally_counted, Hres.
    + split; [|split; [|discriminate]].
      * exists [request]. split; [reflexivity|].
        split; [|discriminate]. destruct request; try discriminate; repeat constructor.
      * intros _. apply record_error_fields.
Qed.

Lemma quiet_app dry a b : quiet dry a -> quiet dry b -> quiet dry (a ++ b).
Proof.
  intros [A1 A2] [B1 B2]. split.
  - apply Forall_app. auto.
  - intros H. apply Forall_app. auto.
Qed.

Lemma sequential_effect dry batch : forall st,
  let st' := processBatchSequentialWithUpdates batch st dry in
  (exists added, trace st' = trace st ++ added /\ quiet dry added) /\
  (dry = false ->
     accounted (results st') = (accounted (results st) + length batch)%nat) /\
  (dry = true -> results st' = results st).
Proof.
  unfold processBatchSequentialWithUpdates.
  induction batch as [|item batch IH]; intros st; cbv zeta.
  - cbn. split; [|split; [intros; lia | reflexivity]].
    exists []. rewrite app_nil_r. split; [reflexivity|]. split; constructor.
  - cbn [foldl length].
    destruct (sequentialItem_effect dry st item) as ((a1 & T1 & Q1) & A1 & R1).
    destruct (IH (sequentialItem dry st item)) as ((a2 & T2 & Q2) & A2 & R2).
    split; [|split].
    + exists (a1 ++ a2). rewrite T2, T1, <- app_assoc.
      split; [reflexivity | apply quiet_app; assumption].
    + intros H. rewrite (A2 H), (A1 H). lia.
    + intros H. rewrite (R2 H), (R1 H). reflexivity.
Qed.

(** Whatever routine runs it, a batch announces no further batch; outside
    a dry run it accounts for each of its items once; in a dry run it
    issues no request and leaves the results as they were. *)
Lemma processBatch_effect o batch st :
  let st' := processBatch o batch st in
  (exists added, trace st' = trace st ++ added /\ quiet (dryRun o) added) /\
  (dryRun o = false ->
     accounted (results st') = (accounted (results st) + length batch)%nat) /\
  (dryRun o = true -> results st' = results st).
Proof.
  cbv zeta. unfold processBatch.
  destruct (parallelBatch o) eqn:Hp; destruct (dryRun o) eqn:Hd; cbn [andb negb];
    try apply sequential_effect.
  destruct (parallel_effect batch st)
    as ((requests & Ht & _ & Hn) & _ & E1 & _ & E3 & E4).
  split; [|split; [|discriminate]].
  - exists requests. split; [exact Ht|]. split; [|discriminate].
    eapply Forall_impl; [exact Hn|]. intros [] ?; auto; discriminate.
  - intros _. unfold accounted. lia.
Qed.

Lemma length_slice {A} (l : list A) (i b : Z) :
  0 <= i < Z.of_nat (length l) -> 1 <= b ->
  length (slice i (i + b) l) = Z.to_nat (Z.min b (Z.of_nat (length l) - i)).
Proof.
  intros Hi Hb. unfold slice.
  destruct (i <? 0) eqn:E1; [apply Z.ltb_lt in E1; lia|].
  destruct (i + b <? 0) eqn:E2; [apply Z.ltb_lt in E2; lia|].
  rewrite length_take, length_drop. lia.
Qed.

Lemma ceil_div_step n b i :
  1 <= b -> 0 <= i < n ->
  batches_ahead n b i = S (batches_ahead n b (i + b)) /\
  (1 <= batches_ahead n b i)%nat.
Proof.
  intros Hb Hi. unfold batches_ahead, ceil_div.
  destruct (i <? n) eqn:E1; [|apply Z.ltb_ge in E1; lia].
  destruct (i + b <? n) eqn:E2.
  - apply Z.ltb_lt in E2.
    replace (n - i + b - 1) with ((n - (i + b) + b - 1) + 1 * b) by lia.
    rewrite Z.div_add by lia.
    assert (0 <= (n - (i + b) + b - 1) / b) by (apply Z.div_pos; lia). lia.
  - apply Z.ltb_ge in E2.
    replace (n - i + b - 1) with ((n - i - 1) + 1 * b) by lia.
    rewrite Z.div_add by lia. rewrite Z.div_small by lia. cbn. lia.
Qed.

Lemma filter_app_batch_start (a b : list Event) :
  batches_announced (a ++ b) = (batches_announced a + batches_announced b)%nat.
Proof. unfold batches_announced. rewrite List.filter_app, length_app. reflexivity. Qed.

Lemma quiet_batches dry added : quiet dry added -> batches_announced added = 0%nat.
Proof.
  intros [H _]. unfold batches_announced.
  induction H as [|e l He _ IH]; [reflexivity|]. cbn. rewrite He. exact IH.
Qed.

Lemma quiet_requests added : quiet true added -> requests_issued added = [].
Proof.
  intros [_ H]. specialize (H eq_refl). unfold requests_issued.
  induction H as [|e l He _ IH]; [reflexivity|]. cbn. rewrite He. exact IH.
Qed.

(** With a positive batch size the loop ends; it announces one batch for
    every [batchSize] items still ahead (rounded up); outside a dry run
    each of those items is accounted for once; in a dry run no request is
    issued and the results do not move. *)
Lemma batchLoop_spec o all :
  1 <= batchSize o ->
  forall fuel i st,
    0 <= i ->
    (batches_ahead (Z.of_nat (length all)) (batchSize o) i <= fuel)%nat ->
    exists st',
      batchLoop fuel o all i st = Some st' /\
      batches_announced (trace st') =
        (batches_announced (trace st) +
         batches_ahead (Z.of_nat (length all)) (batchSize o) i)%nat /\
      (dryRun o = false ->
         accounted (results st') =
           (accounted (results st) + items_ahead (Z.of_nat (length all)) i)%nat) /\
      (dryRun o = true ->
         results st' = results st /\
         requests_issued (trace st') = requests_issued (trace st)).
Proof.
  intros Hb. set (n := Z.of_nat (length all)).
  induction fuel as [|fuel IH]; intros i st Hi Hfuel.
  - cbn [batchLoop]. fold n. destruct (i <? n) eqn:E.
    + apply Z.ltb_lt in E.
      destruct (ceil_div_step n (batchSize o) i Hb (conj Hi E)). lia.
    + exists st. unfold batches_ahead, items_ahead. rewrite E.
      apply Z.ltb_ge in E. repeat split; auto; lia.
  - cbn [batchLoop]. fold n. destruct (i <? n) eqn:E.
    + apply Z.ltb_lt in E.
      destruct (ceil_div_step n (batchSize o) i Hb (conj Hi E)) as [Hstep _].
      set (batch := slice i (i + batchSize o) all).
      set (st0 := announce (BatchStart (length batch)) st).
      destruct (processBatch_effect o batch st0) as ((added & Ht & Hq) & Ha & Hr).
      set (st1 := processBatch o batch st0) in *.
      set (st2 := if i + batchSize o <? n
                  then announce (Delay (delayBetweenBatches o)) st1 else st1).
      assert (H2 : results st2 = results st1 /\
                   exists pause, trace st2 = trace st1 ++ pause /\
                                 quiet (dryRun o) pause).
      { subst st2. destruct (i + batchSize o <? n).
        - split; [reflexivity|]. exists [Delay (delayBetweenBatches o)].
          split; [reflexivity|]. split; [|intros _]; repeat constructor.
        - split; [reflexivity|]. exists []. rewrite app_nil_r.
          split; [reflexivity|]. split; [|intros _]; constructor. }
      destruct H2 as (Hres2 & pause & Ht2 & Hq2).
      destruct (IH (i + batchSize o) st2) as (st' & Hrun & Hbatches & Hacc & Hdry);
        [lia | lia |].
      exists st'. split; [exact Hrun|]. split; [|split].
      * rewrite Hbatches, Ht2, Ht. subst st0. cbn [announce trace].
        rewrite !filter_app_batch_start.
        rewrite (quiet_batches _ _ Hq), (quiet_batches _ _ Hq2), Hstep.
        cbn. lia.
      * intros Hd. rewrite (Hacc Hd), Hres2, (Ha Hd).
        subst st0 batch. cbn [announce results].
        rewrite length_slice by (fold n; lia). fold n.
        unfold items_ahead. lia.
      * intros Hd. destruct (Hdry Hd) as [R1 R2]. split.
        -- rewrite R1, Hres2, (Hr Hd). reflexivity.
        -- rewrite R2, Ht2, Ht. subst st0. cbn [announce trace].
           unfold requests_issued. rewrite !List.filter_app.
           rewrite Hd in Hq, Hq2.
           fold (requests_issued added). fold (requests_issued pause).
           rewrite (quiet_requests _ Hq), (quiet_requests _ Hq2).
           cbn. rewrite !app_nil_r. reflexivity.
    + exists st. unfold batches_ahead, items_ahead. rewrite E.
      apply Z.ltb_ge in E. repeat split; auto; lia.
Qed.

(** The whole dispatch of a changeset of [N] items with a positive batch
    size [B]: it ends, it runs [ceil(N/B)] batches, outside a dry run
    [created + updated + skipped + errors = N], and in a dry run it
    issues no request and every count stays at zero. *)
Lemma dispatch_batches_and_accounting o all rows :
  1 <= batchSize o ->
  exists st',
    dispatch o all rows = Some st' /\
    Z.of_nat (batches_announced (trace st')) =
      ceil_div (Z.of_nat (length all)) (batchSize o) /\
    (dryRun o = false -> accounted (results st') = length all) /\
    (dryRun o = true ->
       results st' = initialResults rows /\ requests_issued (trace st') = []).
Proof.
  intros Hb. unfold dispatch.
  set (n := Z.of_nat (length all)).
  assert (Hn0 : 0 <= n) by (subst n; lia).
  assert (Hq : 0 <= ceil_div n (batchSize o) <= n).
  { unfold ceil_div. split.
    - apply Z.div_pos; lia.
    - destruct (Z.eq_dec n 0) as [Hn | Hn].
      + rewrite Hn. rewrite Z.div_small by lia. lia.
      + apply Z.div_le_upper_bound; [lia|].
        assert (0 <= (n - 1) * (batchSize o - 1))
          by (apply Z.mul_nonneg_nonneg; lia).
        lia. }
  assert (Hz : Z.of_nat (batches_ahead n (batchSize o) 0) = ceil_div n (batchSize o)).
  { unfold batches_ahead. rewrite Z.sub_0_r. destruct (0 <? n) eqn:E; [lia|].
    apply Z.ltb_ge in E. assert (Hn : n = 0) by lia. rewrite Hn.
    unfold ceil_div. rewrite Z.div_small by lia. reflexivity. }
  destruct (batchLoop_spec o all Hb (S (length all)) 0
              {| results := initialResults rows; trace := [] |})
    as (st' & Hrun & Hbatches & Hacc & Hdry); [lia | fold n; lia |].
  fold n in Hbatches, Hacc.
  exists st'. split; [exact Hrun|]. split; [|split].
  - rewrite Hbatches. cbn [trace batches_announced List.filter length]. lia.
  - intros Hd. rewrite (Hacc Hd). unfold items_ahead, accounted. cbn. lia.
  - intros Hd. destruct (Hdry Hd). auto.
Qed.

End WithApi.



(** C1: in a dry run the changeset of eight items is dispatched in one
    batch, as [ceil(8/10)] asks, and none of the eight is accounted for:
    every count is zero. *)
Theorem dry_run_leaves_items_unaccounted :
  exists st',
    @processProductsFromCSV Scenarios.accepting Scenarios.feed Scenarios.snapshot
      Scenarios.dry_run_options = Some st' /\
    length (changeset Scenarios.feed Scenarios.snapshot Scenarios.dry_run_options)
      = 8%nat /\
    batches_announced (trace st') = 1%nat /\
    accounted (results st') = 0%nat.
Proof. eexists. vm_compute. repeat split. Qed.

(** C3: in a dry run over five rows to create and three to update no
    request reaches the API, and the results report no create and no update:
    the would-be payloads are not recorded. *)
Theorem dry_run_reports_no_counts :
  exists st',
    @processProductsFromCSV Scenarios.accepting Scenarios.feed Scenarios.snapshot
      Scenarios.dry_run_options = Some st' /\
    is_create <$> changeset Scenarios.feed Scenarios.snapshot Scenarios.dry_run_options
      = [true; true; true; true; true; false; false; false] /\
    requests_issued (trace st') = [] /\
    created (results st') = 0%nat /\ updated (results st') = 0%nat /\
    createdProducts (results st') = [] /\ updatedProducts (results st') = [].
Proof. eexists. vm_compute. repeat split. Qed.

End DispatchSpec.

Module TransferSpec.
Import JsString Transfer.

(** The newest-first arrangement always starts with the first file, in
    listing order, that carries the greatest date. *)
Lemma sort_newest_head files :
  match sort_newest files with
  | [] => files = []
  | f :: _ =>
      exists pre post, files = pre ++ f :: post /\
        Forall (fun g => modifiedAt g < modifiedAt f) pre /\
        Forall (fun g => modifiedAt g <= modifiedAt f) post
  end.
Proof.
  induction files as [|x l IH]; [reflexivity|].
  unfold sort_newest in *. cbn [foldr].
  destruct (foldr insert_newest [] l) as [|f rest] eqn:Es.
  - subst l. cbn. exists [], []. repeat split; constructor.
  - destruct IH as (pre & post & Hl & Hpre & Hpost).
    cbn [insert_newest]. unfold compare_newest.
    destruct (0 <? modifiedAt f - modifiedAt x) eqn:E.
    + apply Z.ltb_lt in E. exists (x :: pre), post. subst l.
      repeat split; auto. constructor; [lia | assumption].
    + apply Z.ltb_ge in E. exists [], l. subst l. repeat split; [constructor|].
      apply Forall_app. split.
      * eapply Forall_impl; [exact Hpre|]. cbn. intros; lia.
      * constructor; [lia|]. eapply Forall_impl; [exact Hpost|]. cbn. intros; lia.
Qed.

Lemma insert_newest_perm x l : insert_newest x l ≡ₚ x :: l.
Proof.
  induction l as [|y ys IH]; cbn [insert_newest]; [reflexivity|].
  destruct (0 <? compare_newest x y); [|reflexivity].
  rewrite IH. apply Permutation_swap.
Qed.

(** Sorting rearranges the files and loses none. *)
Lemma sort_newest_perm files : sort_newest files ≡ₚ files.
Proof.
  unfold sort_newest. induction files as [|x l IH]; [reflexivity|].
  cbn [foldr]. rewrite insert_newest_perm, IH. reflexivity.
Qed.

Lemma insert_newest_sorted x l : newest_first l -> newest_first (insert_newest x l).
Proof.
  unfold newest_first. induction 1 as [|y ys Hs IH Hy]; cbn [insert_newest].
  - repeat constructor.
  - unfold compare_newest. destruct (0 <? modifiedAt y - modifiedAt x) eqn:E.
    + apply Z.ltb_lt in E. constructor; [exact IH|].
      rewrite (insert_newest_perm x ys). constructor; [lia | exact Hy].
    + apply Z.ltb_ge in E. constructor; [constructor; assumption|].
      constructor; [lia|]. eapply Forall_impl; [exact Hy|]. cbn. intros; lia.
Qed.

Lemma sort_newest_sorted files : newest_first (sort_newest files).
Proof.
  unfold sort_newest. induction files as [|x l IH]; [constructor|].
  cbn [foldr]. apply insert_newest_sorted, IH.
Qed.

Lemma listFiles_In f fileList :
  In f (listFiles fileList) <-> In f fileList /\ is_csv f = true.
Proof. unfold listFiles. apply filter_In. Qed.

(** C6 (amended): the selection fails exactly when no listed entry is a CSV
    file; otherwise it returns a listed CSV file with the most recent
    modification date, and among the CSV files sharing that date the one that
    comes first in the listing. *)
Theorem getLatestCSVFile_spec (fileList : list FileInfo) :
  match getLatestCSVFile fileList with
  | inr NoCsvFiles => listFiles fileList = []
  | inl f =>
      In f fileList /\ is_csv f = true /\
      (forall g, In g fileList -> is_csv g = true -> modifiedAt g <= modifiedAt f) /\
      exists pre post, listFiles fileList = pre ++ f :: post /\
        Forall (fun g => modifiedAt g < modifiedAt f) pre
  end.
Proof.
  unfold getLatestCSVFile.
  pose proof (sort_newest_head (listFiles fileList)) as H.
  destruct (decide (length (listFiles fileList) = 0%nat)) as [Hlen | Hlen];
    [destruct (listFiles fileList); [reflexivity | discriminate]|].
  destruct (sort_newest (listFiles fileList)) as [|f rest]; [exact H|].
  destruct H as (pre & post & Hl & Hpre & Hpost).
  assert (Hin : In f (listFiles fileList)).
  { rewrite Hl. apply in_or_app. right. left. reflexivity. }
  apply listFiles_In in Hin. destruct Hin as [Hin Hcsv].
  split; [exact Hin|]. split; [exact Hcsv|]. split.
  - intros g Hg Hgc.
    assert (Hg' : In g (listFiles fileList)) by (apply listFiles_In; auto).
    rewrite Hl in Hg'. apply in_app_or in Hg'. destruct Hg' as [Hg'|[Hg'|Hg']].
    + rewrite Forall_forall in Hpre. apply list_elem_of_In in Hg'.
      specialize (Hpre g Hg'). cbn in Hpre. lia.
    + subst g. lia.
    + rewrite Forall_forall in Hpost. apply list_elem_of_In in Hg'.
      exact (Hpost g Hg').
  - exists pre, post. split; assumption.
Qed.

(** C6 (as stated) fails: two CSV files with the same date are not ordered
    by name, the first listed one is returned. *)
Lemma getLatestCSVFile_tie_not_by_name :
  ~ (forall fileList f, getLatestCSVFile fileList = inl f ->
                        greatest_name_among_ties fileList f).
Proof.
  intros H. specialize (H [csv_a; csv_b] csv_a eq_refl csv_b).
  assert (Hin : In csv_b (listFiles [csv_a; csv_b])) by (vm_compute; auto).
  specialize (H Hin eq_refl). vm_compute in H. discriminate.
Qed.

Lemma length_append_string (a b : string) :
  String.length (a +:+ b) = (String.length a + String.length b)%nat.
Proof.
  induction a as [|c a IH]; [reflexivity|].
  change (String c a +:+ b) with (String c (a +:+ b)).
  cbn [String.length]. rewrite IH. reflexivity.
Qed.

Lemma backupPath_ne localFilePath : backupPath localFilePath <> localFilePath.
Proof.
  intros H. apply (f_equal String.length) in H. unfold backupPath in H.
  rewrite length_append_string in H. cbn in H. lia.
Qed.

Lemma existsSync_true (fs : gmap string string) path :
  existsSync fs path = true <-> is_Some (fs !! path).
Proof. unfold existsSync. apply bool_decide_eq_true. Qed.

Lemma existsSync_false (fs : gmap string string) path :
  existsSync fs path = false <-> fs !! path = None.
Proof.
  unfold existsSync. rewrite bool_decide_eq_false, eq_None_not_Some. reflexivity.
Qed.

(** The disk on which the stream writes: the old destination, when there
    was one, sits under the backup name, and nothing else has moved. *)
Lemma createBackup_lookup localFilePath (fs : gmap string string) p :
  createBackup localFilePath fs !! p =
    if decide (p = localFilePath) then None
    else if decide (p = backupPath localFilePath)
         then match fs !! localFilePath with
              | Some old => Some old
              | None => fs !! p
              end
         else fs !! p.
Proof.
  pose proof (backupPath_ne localFilePath) as Hne.
  unfold createBackup, renameSync.
  destruct (existsSync fs localFilePath) eqn:E.
  - apply existsSync_true in E. destruct E as [old E]. rewrite E.
    repeat case_decide; subst; simplify_map_eq; auto.
  - apply existsSync_false in E. rewrite E.
    repeat case_decide; subst; auto.
Qed.

Lemma restoreOrCleanup_lookup localFilePath (fs : gmap string string) p :
  restoreOrCleanup localFilePath fs !! p =
    if decide (p = localFilePath) then fs !! backupPath localFilePath
    else if decide (p = backupPath localFilePath) then None
         else fs !! p.
Proof.
  pose proof (backupPath_ne localFilePath) as Hne.
  unfold restoreOrCleanup, renameSync, unlinkSync.
  destruct (existsSync fs (backupPath localFilePath)) eqn:Eb.
  - apply existsSync_true in Eb. destruct Eb as [old Eb].
    destruct (existsSync fs localFilePath) eqn:El.
    + rewrite lookup_delete_ne by auto. rewrite Eb.
      repeat case_decide; subst; simplify_map_eq; auto.
    + rewrite Eb. repeat case_decide; subst; simplify_map_eq; auto.
  - apply existsSync_false in Eb.
    destruct (existsSync fs localFilePath) eqn:El.
    + repeat case_decide; subst; simplify_map_eq; auto.
    + apply existsSync_false in El.
      repeat case_decide; subst; simplify_map_eq; auto; congruence.
Qed.

(** The full effect of one download on the disk and on the result. *)
Lemma downloadFile_effect
    (a : Attempt) (remoteFilePath localFilePath : string) (fs : gmap string string) :
  let backup := backupPath localFilePath in
  let out := downloadFile a remoteFilePath localFilePath fs in
  (forall old, fs !! localFilePath = Some old ->
     createBackup localFilePath fs !! backup = Some old /\
     createBackup localFilePath fs !! localFilePath = None) /\
  match out.2 with
  | inl path =>
      path = localFilePath /\ out.1 !! backup = None /\
      is_Some (written a) /\ out.1 !! localFilePath = written a
  | inr error =>
      out.1 !! backup = None /\
      out.1 !! localFilePath =
        match fs !! localFilePath with
        | Some old => Some old
        | None => fs !! backup
        end
  end /\
  (forall message, streamError a = Some message ->
     out.2 = inr (StreamError message)) /\
  (forall bytes, streamError a = None -> written a = Some bytes ->
     let statsSize := Z.of_nat (String.length bytes) in
     let expected := remoteFileSize a remoteFilePath in
     0 < expected -> 1024 < Z.abs (statsSize - expected) ->
     out.2 = inr (SizeMismatch statsSize expected)) /\
  (forall p, p <> localFilePath -> p <> backup -> out.1 !! p = fs !! p).
Proof.
  pose proof (backupPath_ne localFilePath) as Hne.
  cbv zeta. split.
  { intros old Hold. rewrite !createBackup_lookup, Hold.
    repeat case_decide; try congruence; auto. }
  unfold downloadFile, tryDownload, downloadWithProgress.
  set (fs0 := createBackup localFilePath fs).
  assert (H0 : forall p, fs0 !! p = _) by (intros p; apply createBackup_lookup).
  destruct (streamError a) as [message|] eqn:Ee; cbn [fmap option_fmap option_map].
  { cbn [fst snd]. repeat split.
    - rewrite restoreOrCleanup_lookup. repeat case_decide; congruence.
    - rewrite restoreOrCleanup_lookup. rewrite decide_True by reflexivity.
      destruct (written a); [rewrite lookup_insert_ne by auto|]; rewrite H0;
        rewrite decide_False by auto; rewrite decide_True by reflexivity;
        destruct (fs !! localFilePath); reflexivity.
    - intros m Hm. congruence.
    - intros; discriminate.
    - intros p Hp Hb. rewrite restoreOrCleanup_lookup.
      rewrite !decide_False by auto.
      destruct (written a); [rewrite lookup_insert_ne by auto|]; rewrite H0;
        rewrite !decide_False by auto; reflexivity. }
  destruct (written a) as [bytes|] eqn:Ew.
  - rewrite lookup_insert_eq.
    destruct ((0 <? remoteFileSize a remoteFilePath) &&
              (1024 <? Z.abs (Z.of_nat (String.length bytes) -
                              remoteFileSize a remoteFilePath))) eqn:Esz.
    + cbn [fst snd]. repeat split.
      * rewrite restoreOrCleanup_lookup. repeat case_decide; congruence.
      * rewrite restoreOrCleanup_lookup. rewrite decide_True by reflexivity.
        rewrite lookup_insert_ne by auto. rewrite H0.
        rewrite decide_False by auto. rewrite decide_True by reflexivity.
        destruct (fs !! localFilePath); reflexivity.
      * intros; discriminate.
      * intros b _ Hb _ _. congruence.
      * intros p Hp Hb. rewrite restoreOrCleanup_lookup.
        rewrite !decide_False by auto. rewrite lookup_insert_ne by auto.
        rewrite H0. rewrite !decide_False by auto. reflexivity.
    + cbn [fst snd]. unfold unlinkSync.
      assert (Hcommit : forall p,
                (if existsSync (<[localFilePath:=bytes]> fs0) (backupPath localFilePath)
                 then delete (backupPath localFilePath) (<[localFilePath:=bytes]> fs0)
                 else <[localFilePath:=bytes]> fs0) !! p =
                if decide (p = backupPath localFilePath) then None
                else <[localFilePath:=bytes]> fs0 !! p).
      { intros p. destruct (existsSync _ _) eqn:Eb.
        - case_decide; subst; simplify_map_eq; auto.
        - apply existsSync_false in Eb. case_decide; subst; auto. }
      repeat split.
      * rewrite Hcommit. rewrite decide_True by reflexivity. reflexivity.
      * eauto.
      * rewrite Hcommit. rewrite decide_False by auto. apply lookup_insert_eq.
      * intros; discriminate.
      * intros b _ Hb Hpos Hdiff. injection Hb as <-.
        apply andb_false_iff in Esz. destruct Esz as [E|E];
          apply Z.ltb_ge in E; lia.
      * intros p Hp Hb. rewrite Hcommit. rewrite decide_False by auto.
        rewrite lookup_insert_ne by auto. rewrite H0.
        rewrite !decide_False by auto. reflexivity.
  - rewrite H0. rewrite decide_True by reflexivity. cbn [fst snd]. repeat split.
    + rewrite restoreOrCleanup_lookup. repeat case_decide; congruence.
    + rewrite restoreOrCleanup_lookup. rewrite decide_True by reflexivity.
      rewrite H0. rewrite decide_False by auto. rewrite decide_True by reflexivity.
      destruct (fs !! localFilePath); reflexivity.
    + intros; discriminate.
    + intros; discriminate.
    + intros p Hp Hb. rewrite restoreOrCleanup_lookup.
      rewrite !decide_False by auto. rewrite H0.
      rewrite !decide_False by auto. reflexivity.
Qed.

(** How one download ends: with the stream's error, with a missing
    file, with a size mismatch, or with the local path. *)
Lemma downloadFile_outcome
    (a : Attempt) (remoteFilePath localFilePath : string) (fs : gmap string string) :
  (downloadFile a remoteFilePath localFilePath fs).2 =
    match streamError a, written a with
    | Some message, _ => inr (StreamError message)
    | None, None => inr NotFoundLocally
    | None, Some bytes =>
        let statsSize := Z.of_nat (String.length bytes) in
        let expected := remoteFileSize a remoteFilePath in
        if (0 <? expected) && (1024 <? Z.abs (statsSize - expected))
        then inr (SizeMismatch statsSize expected)
        else inl localFilePath
    end.
Proof.
  unfold downloadFile, tryDownload, downloadWithProgress.
  pose proof (createBackup_lookup localFilePath fs localFilePath) as Hb.
  rewrite decide_True in Hb by reflexivity.
  set (fs0 := createBackup localFilePath fs) in *.
  destruct (streamError a) as [message|]; cbn [fmap option_fmap option_map].
  { reflexivity. }
  destruct (written a) as [bytes|].
  - rewrite lookup_insert_eq. cbv zeta.
    destruct ((0 <? remoteFileSize a remoteFilePath) &&
              (1024 <? Z.abs (Z.of_nat (String.length bytes) -
                              remoteFileSize a remoteFilePath))); reflexivity.
  - rewrite Hb. reflexivity.
Qed.

(** C7 (amended): an existing destination is renamed to its [.backup]
    sibling before the stream writes.  A stream that ends without an error
    and leaves a file of a fitting size is a success: the new bytes are at
    the destination and no backup is left.  A stream error, a missing file
    and a size mismatch are failures, and the error is returned; after a
    failure no backup and no partial file is left: a destination that
    existed before holds its previous content again, and where there was no
    destination, there is none unless a [.backup] sibling lay there from
    before, which is then renamed into place.  No other path is touched. *)
Theorem downloadFile_backup_restore
    (a : Attempt) (remoteFilePath localFilePath : string) (fs : gmap string string) :
  let backup := backupPath localFilePath in
  let out := downloadFile a remoteFilePath localFilePath fs in
  let expected := remoteFileSize a remoteFilePath in
  (forall old, fs !! localFilePath = Some old ->
     createBackup localFilePath fs !! backup = Some old /\
     createBackup localFilePath fs !! localFilePath = None) /\
  (forall bytes, streamError a = None -> written a = Some bytes ->
     (expected <= 0 \/ Z.abs (Z.of_nat (String.length bytes) - expected) <= 1024) ->
     out.2 = inl localFilePath /\
     out.1 !! localFilePath = Some bytes /\ out.1 !! backup = None) /\
  (forall message, streamError a = Some message ->
     out.2 = inr (StreamError message)) /\
  (streamError a = None -> written a = None -> out.2 = inr NotFoundLocally) /\
  (forall bytes, streamError a = None -> written a = Some bytes ->
     let statsSize := Z.of_nat (String.length bytes) in
     0 < expected -> 1024 < Z.abs (statsSize - expected) ->
     out.2 = inr (SizeMismatch statsSize expected)) /\
  (forall error, out.2 = inr error ->
     out.1 !! backup = None /\
     (forall old, fs !! localFilePath = Some old ->
        out.1 !! localFilePath = Some old) /\
     (fs !! localFilePath = None -> out.1 !! localFilePath = fs !! backup)) /\
  (forall p, p <> localFilePath -> p <> backup -> out.1 !! p = fs !! p).
Proof.
  cbv zeta.
  destruct (downloadFile_effect a remoteFilePath localFilePath fs)
    as (H1 & H2 & H3 & H4 & H5).
  pose proof (downloadFile_outcome a remoteFilePath localFilePath fs) as Hout.
  split; [exact H1|]. split; [|split; [exact H3|split; [|split; [exact H4|split]]]].
  - intros bytes He Hw Hfit. rewrite He, Hw in Hout. cbv zeta in Hout.
    destruct ((0 <? remoteFileSize a remoteFilePath) &&
              (1024 <? Z.abs (Z.of_nat (String.length bytes) -
                              remoteFileSize a remoteFilePath))) eqn:E.
    + apply andb_true_iff in E as [E1 E2]. apply Z.ltb_lt in E1, E2. lia.
    + rewrite Hout in H2. destruct H2 as (_ & Hb & _ & Hl).
      split; [exact Hout|]. split; [now rewrite Hl|exact Hb].
  - intros He Hw. now rewrite He, Hw in Hout.
  - intros error Herr. rewrite Herr in H2. destruct H2 as [Hb Hl].
    split; [exact Hb|]. split.
    + intros old Hold. rewrite Hl, Hold. reflexivity.
    + intros Hnone. rewrite Hl, Hnone. reflexivity.
  - exact H5.
Qed.

(** An interrupted download over an existing file: the stream leaves half of
    the expected bytes, the size check fails, and the previous file is back
    in place with no backup left; a download that completes over the same
    file leaves the new bytes and no backup. *)
Lemma downloadFile_backup_restore_witness :
  let fs : gmap string string := {[ interrupted_path := "old feed" ]} in
  let out := downloadFile interrupted "Extract.csv" interrupted_path fs in
  let done := downloadFile Fixtures.complete "Extract.csv" interrupted_path fs in
  (out.2 = inr (SizeMismatch 2048 4096) /\
   out.1 !! interrupted_path = Some "old feed" /\
   out.1 !! backupPath interrupted_path = None) /\
  (done.2 = inl interrupted_path /\
   done.1 !! interrupted_path = Some "Item,Qty" /\
   done.1 !! backupPath interrupted_path = None).
Proof.
  cbv zeta. split.
  - pose proof (downloadFile_backup_restore interrupted "Extract.csv" interrupted_path
                  {[ interrupted_path := "old feed" ]}) as H.
    cbv zeta in H. destruct H as (_ & _ & _ & _ & H4 & H5 & _).
    assert (Hout : (downloadFile interrupted "Extract.csv" interrupted_path
                      {[ interrupted_path := "old feed" ]}).2
                   = inr (SizeMismatch 2048 4096)).
    { apply (H4 (str (repeat "x"%char 2048))); [reflexivity | reflexivity | | ];
        vm_compute; reflexivity. }
    destruct (H5 _ Hout) as (Hb & Hold & _).
    split; [exact Hout|]. split; [|exact Hb].
    apply Hold. apply lookup_singleton_eq.
  - apply (downloadFile_backup_restore Fixtures.complete "Extract.csv" interrupted_path
             {[ interrupted_path := "old feed" ]});
      [reflexivity | reflexivity | right; vm_compute; discriminate].
Defined.

(** C7 (as stated) fails: a failed download does not always leave the
    destination as it was before.  Where no destination existed and a
    [.backup] sibling lay on the disk from before, the interrupted download
    ends with that old backup at the destination. *)
Lemma downloadFile_stale_backup_lands :
  ~ (forall (a : Attempt) (remoteFilePath localFilePath : string)
            (fs : gmap string string) (error : DownloadError),
       (downloadFile a remoteFilePath localFilePath fs).2 = inr error ->
       (downloadFile a remoteFilePath localFilePath fs).1 !! localFilePath
         = fs !! localFilePath).
Proof.
  intros H.
  pose (fs := {[ backupPath interrupted_path := "stale feed" ]} : gmap string string).
  assert (Hout : (downloadFile interrupted "Extract.csv" interrupted_path fs).2
                 = inr (SizeMismatch 2048 4096)) by (vm_compute; reflexivity).
  specialize (H interrupted "Extract.csv" interrupted_path fs _ Hout).
  vm_compute in H. discriminate.
Qed.

End TransferSpec.

Module OrchestratorSpec.
Import Orchestrator.

Lemma step_guarded j e : guarded j -> guarded (step j e).
Proof.
  intros [[Hr Ha] | [Hr Ha]]; destruct e as [|o]; cbn; unfold enter, settle;
    rewrite ?Hr, ?Ha; cbn; unfold guarded; cbn; auto.
Qed.

Lemma foldl_step_guarded events j : guarded j -> guarded (foldl step j events).
Proof.
  revert j. induction events as [|e events IH]; intros j Hj; [exact Hj|].
  cbn [foldl]. apply IH. apply step_guarded. exact Hj.
Qed.

Lemma run_guarded events : guarded (run events).
Proof. apply foldl_step_guarded. right. split; reflexivity. Qed.

(** C9: after any sequence of triggers and settlements at most one execution
    is inside the job body and the flag is raised exactly while one is; a
    trigger in that situation changes nothing but the log; whatever the
    outcome of a run, its settlement lowers the flag, and the next trigger
    starts a new run. *)
Theorem executeJob_single_run (events : list Event) :
  let j := run events in
  (active j <= 1)%nat /\
  (isRunning j = true <-> active j = 1%nat) /\
  (isRunning j = true ->
     isRunning (step j Trigger) = true /\ active (step j Trigger) = active j /\
     log (step j Trigger) = log j ++ [AlreadyRunningSkipped]) /\
  (forall o, isRunning (step j (Settle o)) = false /\
             active (step j (Settle o)) = 0%nat /\
             isRunning (step (step j (Settle o)) Trigger) = true /\
             active (step (step j (Settle o)) Trigger) = 1%nat).
Proof.
  cbv zeta. pose proof (run_guarded events) as H.
  destruct (run events) as [r a l]. unfold guarded in H. cbn in H.
  destruct H as [[-> ->] | [-> ->]]; cbn; repeat split; auto; try discriminate;
    intros; destruct o; cbn; auto.
Qed.

End OrchestratorSpec.

(** ** The normaliser: handles, prices and the product it builds *)

Module NormalizerSpec.
Import JsString JsNumber Handle Normalizer Reconcile Shape JsStringFacts HandleSpec NumberFacts.

(** X1: whatever the title, the handle that [generateHandle] returns has at
    most 100 characters, all of them lower-case letters, digits or hyphens;
    it has no two hyphens in a row and does not start with one.  (It may
    still end with one, after the cut at 100.) *)
Theorem generateHandle_url_safe (title : string) :
  finished (chars (generateHandle title)).
Proof.
  unfold generateHandle. destruct (String.eqb title "").
  - repeat split; cbn; try lia. repeat constructor.
  - rewrite chars_str. apply slug_chars_finished.
Qed.

Lemma span_digits_none s :
  match s with c :: _ => is_digit c = false | [] => True end ->
  span_digits s = ([], s).
Proof. destruct s as [|c s]; cbn; [reflexivity|]. now intros ->. Qed.

Lemma filter_numeric_no_digit s :
  Forall (fun c => is_digit c = false) s ->
  Forall (fun c => c = "."%char \/ c = "-"%char) (List.filter numeric_char s).
Proof.
  induction 1 as [|c s Hc _ IH]; cbn; [constructor|].
  unfold numeric_char at 1. rewrite Hc. cbn.
  destruct (Ascii.eqb_spec c "."); [constructor; auto|].
  destruct (Ascii.eqb_spec c "-"); [constructor; auto|]. exact IH.
Qed.

Lemma parseFloat_no_digit s :
  Forall (fun c => c = "."%char \/ c = "-"%char) s -> parseFloat s = NaN.
Proof.
  intros Hs. unfold parseFloat.
  assert (Hskip : skip_space s = s).
  { destruct Hs as [|c s [-> | ->] _]; reflexivity. }
  rewrite Hskip.
  assert (Hlit : forall neg body,
             Forall (fun c => c = "."%char \/ c = "-"%char) body ->
             read_literal neg body = NaN).
  { clear. intros neg body Hb. unfold read_literal.
    destruct Hb as [|c body Hc Hb]; [reflexivity|].
    destruct Hc as [-> | ->].
    - change (starts_with (chars "Infinity") ("."%char :: body)) with false.
      rewrite (span_digits_none ("."%char :: body)) by reflexivity.
      cbn iota. rewrite span_digits_none; [reflexivity|].
      destruct Hb as [|d ? [-> | ->] _]; auto.
    - change (starts_with (chars "Infinity") ("-"%char :: body)) with false.
      rewrite (span_digits_none ("-"%char :: body)) by reflexivity.
      reflexivity. }
  destruct Hs as [|c s [-> | ->] Hs]; cbn.
  - reflexivity.
  - apply (Hlit false ("."%char :: s)). constructor; auto.
  - apply Hlit, Hs.
Qed.

(** X2: a price field that is missing, empty or without any digit is
    normalised to ["0.00"]. *)
Theorem parsePrice_without_digits (priceStr : option string) :
  match priceStr with
  | Some s => Forall (fun c => is_digit c = false) (chars s)
  | None => True
  end ->
  parsePrice priceStr = "0.00".
Proof.
  destruct priceStr as [s|]; [|reflexivity]. intros Hs. unfold parsePrice.
  destruct (truthy (Some s)); [|reflexivity].
  now rewrite (parseFloat_no_digit _ (filter_numeric_no_digit _ Hs)).
Qed.

Lemma parsePrice_without_digits_witness :
  parsePrice (Some "$ n/a -.") = "0.00".
Proof.
  apply (parsePrice_without_digits (Some "$ n/a -.")). cbn.
  repeat constructor.
Defined.

Lemma decimal_digits_all fuel : forall n acc,
  Forall (fun c => is_digit c = true) acc ->
  Forall (fun c => is_digit c = true) (decimal_digits fuel n acc).
Proof.
  induction fuel as [|fuel IH]; intros n acc Hacc; cbn.
  - constructor; [|exact Hacc].
    apply digit_char_is_digit. pose proof (Z.mod_pos_bound n 10). lia.
  - assert (Forall (fun c => is_digit c = true) (digit_char (n mod 10) :: acc)).
    { constructor; [|exact Hacc].
      apply digit_char_is_digit. pose proof (Z.mod_pos_bound n 10). lia. }
    destruct (n <? 10); [assumption|]. now apply IH.
Qed.

Lemma toFixed2_finite s m e : two_decimals (toFixed2 (S754_finite s m e)).
Proof.
  cbn. set (n := scaled_round m e).
  exists (if s then ["-"%char] else []), (Z_to_digits (n / 100)),
         (digit_char (n mod 100 / 10)), (digit_char (n mod 10)).
  split; [reflexivity|]. split; [destruct s; auto|]. split.
  - unfold Z_to_digits.
    destruct (decimal_digits_head (Z.to_nat (Z.log2 (n / 100))) (n / 100) [])
      as (c & rest & -> & _). discriminate.
  - apply Forall_app. split; [apply decimal_digits_all; constructor|].
    repeat constructor; apply digit_char_is_digit.
    + pose proof (Z.mod_pos_bound n 100).
      assert (0 <= n mod 100 / 10) by (apply Z.div_pos; lia).
      assert (n mod 100 / 10 < 10) by (apply Z.div_lt_upper_bound; lia). lia.
    + pose proof (Z.mod_pos_bound n 10). lia.
Qed.

Lemma two_decimals_zero : two_decimals (chars "0.00").
Proof.
  exists [], ["0"%char], "0"%char, "0"%char. cbn.
  repeat split; auto; try discriminate.
Qed.

(** X3: as long as the number read from the field is below 1e21 in
    magnitude, [parsePrice] returns an optional minus sign, at least one
    digit, a dot and exactly two digits; this covers the missing and the
    unreadable field. *)
Theorem parsePrice_two_decimals (priceStr : option string) :
  prints_plainly (priceNumber priceStr) = true ->
  two_decimals (chars (parsePrice priceStr)).
Proof.
  destruct priceStr as [s|]; [|intros _; apply two_decimals_zero].
  unfold parsePrice, priceNumber.
  destruct (truthy (Some s)); [|intros _; apply two_decimals_zero].
  set (x := parseFloat _).
  destruct x as [neg|neg| |neg m e]; cbn [isNaN]; intros Hx;
    rewrite ?chars_str.
  - apply two_decimals_zero.
  - exfalso. revert Hx. destruct neg; vm_compute; discriminate.
  - apply two_decimals_zero.
  - apply toFixed2_finite.
Qed.

Lemma parsePrice_two_decimals_witness :
  two_decimals (chars (parsePrice (Some "$1,299.5"))).
Proof. apply (parsePrice_two_decimals (Some "$1,299.5")). vm_compute. reflexivity. Defined.

Lemma or_default_nonempty a b literal :
  literal <> "" -> or_default (or_else a b) literal <> "".
Proof.
  intros Hl. unfold or_default, or_else.
  destruct a as [a|], b as [b|]; cbn;
    repeat match goal with
           | |- context [String.eqb ?x ""] => destruct (String.eqb_spec x ""); cbn
           end; congruence.
Qed.

Lemma length_view_image csvItem i : (length (view_image csvItem i) <= 1)%nat.
Proof.
  unfold view_image. destruct (csvItem !! _); cbn; [|lia].
  destruct (_ && _); cbn; lia.
Qed.

Lemma length_createImages csvItem : (length (createImages csvItem) <= 10)%nat.
Proof.
  unfold createImages. rewrite length_app. cbn [flat_map]. rewrite !length_app.
  pose proof (length_view_image csvItem "1"). pose proof (length_view_image csvItem "2").
  pose proof (length_view_image csvItem "3"). pose proof (length_view_image csvItem "4").
  pose proof (length_view_image csvItem "5"). pose proof (length_view_image csvItem "6").
  pose proof (length_view_image csvItem "7"). pose proof (length_view_image csvItem "8").
  pose proof (length_view_image csvItem "9").
  destruct (csvItem !! "ImageLink_1000") as [link|]; [destruct (truthy (Some link))|];
    cbn [length]; lia.
Qed.

(** X4: the product built from any row has a non-empty title, the status
    [active] or [draft] ([active] exactly for the status column ["Active"]),
    exactly one variant, at most ten images, and no category identifier. *)
Theorem mapCSVToShopifyProduct_shape (csvItem : gmap string string) :
  let p := mapCSVToShopifyProduct csvItem in
  title p <> "" /\
  (status p = "active" \/ status p = "draft") /\
  (status p = "active" <-> csvItem !! "Status" = Some "Active") /\
  variants p = [createVariant csvItem] /\
  (length (images p) <= 10)%nat /\
  product_category_id p = None.
Proof.
  cbn. split; [apply or_default_nonempty; discriminate|].
  split; [destruct (decide _); auto|].
  split; [destruct (decide _); split; intros; congruence|].
  split; [reflexivity|]. split; [apply length_createImages|reflexivity].
Qed.

End NormalizerSpec.

(** ** The order of [array.sort()] on strings *)

Module StringOrder.
Import Reconcile.

Lemma ascii_compare_refl a : Ascii.compare a a = Eq.
Proof. apply N.compare_refl. Qed.

Lemma ascii_compare_lt_trans a b c :
  Ascii.compare a b = Lt -> Ascii.compare b c = Lt -> Ascii.compare a c = Lt.
Proof. unfold Ascii.compare. rewrite !N.compare_lt_iff. lia. Qed.

Lemma compare_lt_trans s1 : forall s2 s3,
  String.compare s1 s2 = Lt -> String.compare s2 s3 = Lt -> String.compare s1 s3 = Lt.
Proof.
  induction s1 as [|a s1 IH]; intros [|b s2] [|c s3]; cbn; try congruence.
  destruct (Ascii.compare a b) eqn:Eab; try discriminate;
    destruct (Ascii.compare b c) eqn:Ebc; try discriminate; intros H1 H2.
  - apply Ascii.compare_eq_iff in Eab, Ebc. subst. rewrite ascii_compare_refl. eauto.
  - apply Ascii.compare_eq_iff in Eab. subst. now rewrite Ebc.
  - apply Ascii.compare_eq_iff in Ebc. subst. now rewrite Eab.
  - now rewrite (ascii_compare_lt_trans _ _ _ Eab Ebc).
Qed.

Lemma compare_refl s : String.compare s s = Eq.
Proof. induction s as [|a s IH]; cbn; [reflexivity|]. now rewrite ascii_compare_refl. Qed.

Lemma leb_iff a b : String.leb a b = true <-> String.compare a b = Lt \/ a = b.
Proof.
  unfold String.leb. destruct (String.compare a b) eqn:E.
  - apply String.compare_eq_iff in E. tauto.
  - tauto.
  - split; [discriminate|]. intros [H | ->]; [discriminate|].
    rewrite compare_refl in E. discriminate.
Qed.

Lemma leb_refl a : String.leb a a = true.
Proof. apply leb_iff. now right. Qed.

Lemma leb_trans a b c :
  String.leb a b = true -> String.leb b c = true -> String.leb a c = true.
Proof.
  rewrite !leb_iff. intros [H1 | ->] [H2 | ->]; auto.
  left. eapply compare_lt_trans; eauto.
Qed.

Lemma ltb_leb a b : String.ltb a b = true -> String.leb a b = true.
Proof.
  unfold String.ltb, String.leb. destruct (String.compare a b); auto.
Qed.

Lemma not_ltb_leb a b : String.ltb b a = false -> String.leb a b = true.
Proof.
  unfold String.ltb, String.leb. rewrite (String.compare_antisym a b).
  destruct (String.compare b a); cbn; auto; discriminate.
Qed.

Lemma insert_string_perm x l : insert_string x l ≡ₚ x :: l.
Proof.
  induction l as [|y l IH]; cbn; [reflexivity|].
  destruct (String.ltb y x); [|reflexivity].
  rewrite IH. apply Permutation_swap.
Qed.

Lemma sort_strings_perm l : sort_strings l ≡ₚ l.
Proof.
  induction l as [|x l IH]; cbn; [reflexivity|].
  change (foldr insert_string [] l) with (sort_strings l).
  now rewrite insert_string_perm, IH.
Qed.

Lemma insert_string_sorted x l :
  StronglySorted (fun a b => String.leb a b = true) l ->
  StronglySorted (fun a b => String.leb a b = true) (insert_string x l).
Proof.
  induction 1 as [|y l Hl IH Hy]; cbn; [repeat constructor|].
  destruct (String.ltb y x) eqn:E.
  - constructor; [exact IH|].
    rewrite insert_string_perm. constructor; [now apply ltb_leb | exact Hy].
  - apply not_ltb_leb in E. constructor; [now constructor|].
    constructor; [exact E|].
    eapply Forall_impl; [exact Hy|]. intros z Hz. cbn in Hz |- *.
    eapply leb_trans; eauto.
Qed.

Lemma sort_strings_sorted l :
  StronglySorted (fun a b => String.leb a b = true) (sort_strings l).
Proof.
  induction l as [|x l IH]; cbn; [constructor|]. now apply insert_string_sorted.
Qed.

Lemma sorted_unique l1 : forall l2,
  StronglySorted (fun a b => String.leb a b = true) l1 ->
  StronglySorted (fun a b => String.leb a b = true) l2 ->
  l1 ≡ₚ l2 -> l1 = l2.
Proof.
  induction l1 as [|x1 l1 IH]; intros l2 H1 H2 E.
  { symmetry. now apply Permutation_nil. }
  destruct l2 as [|x2 l2]; [now apply Permutation_nil_r in E|].
  apply StronglySorted_inv in H1 as [H1 Hx1], H2 as [H2 Hx2].
  rewrite Forall_forall in Hx1, Hx2.
  assert (x1 = x2) as ->.
  { assert (Hin2 : x2 ∈ x1 :: l1) by (rewrite E; left).
    assert (Hin1 : x1 ∈ x2 :: l2) by (rewrite <- E; left).
    apply elem_of_cons in Hin1 as [? | Hin1]; [assumption|].
    apply elem_of_cons in Hin2 as [? | Hin2]; [congruence|].
    apply String.leb_antisym; auto. }
  f_equal. apply IH; auto. now apply (inj (cons x2)).
Qed.

(** Sorting forgets the order of its input. *)
Lemma sort_strings_canonical l1 l2 : l1 ≡ₚ l2 -> sort_strings l1 = sort_strings l2.
Proof.
  intros H. apply sorted_unique; try apply sort_strings_sorted.
  now rewrite !sort_strings_perm.
Qed.

End StringOrder.

(** ** The comparator, the patch builder and the matcher, in general *)

Module ReconcileLaws.
Import JsString JsNumber Normalizer Reconcile Shape JsStringFacts NumberFacts.
Import ReconcileSpec StringOrder.

(** X5: the comparator never reports a category change, whatever the row
    and the snapshot entry: the normaliser does not set the category
    identifier that the comparison reads.  So the patch built from the
    comparator's answer never carries a category either. *)
Theorem category_never_reported
    (csvItem : gmap string string) (existingProduct : ExistingProduct) :
  (category_ ∉ doesProductNeedUpdate csvItem existingProduct) /\
  u_product_category_id
    (buildUpdateData (mapCSVToShopifyProduct csvItem) existingProduct
       (doesProductNeedUpdate csvItem existingProduct)) = None.
Proof.
  assert (H : category_ ∉ doesProductNeedUpdate csvItem existingProduct).
  { unfold doesProductNeedUpdate, compareProducts.
    destruct (ep_variants existingProduct) as [|ev evs];
      cbn [variants mapCSVToShopifyProduct product_category_id truthy andb];
      unfold compareVariants; changes_membership; intuition discriminate. }
  split; [exact H|].
  destruct (u_product_category_id _) eqn:E; [|reflexivity].
  exfalso. apply H. eapply patch_fields_named.
  unfold patch_fields. rewrite E. fields_membership.
  do 5 right. left. split; [|reflexivity]. apply bool_decide_eq_true. eauto.
Qed.

Lemma round_not_nan x : isNaN x = false -> isNaN (round x) = false.
Proof.
  destruct x as [s|s| |s m e]; cbn [round]; auto. intros _.
  destruct (0 <=? e); [reflexivity|].
  destruct (_ =? 0); [reflexivity|].
  unfold of_Z, binary_normalize.
  destruct (_ / _) as [|n|n]; [reflexivity| |];
    unfold binary_round; destruct (shl_align _ _ _) as [mz ez];
    apply binary_round_aux_not_nan; lia.
Qed.

Lemma mul_ounce_not_nan x : isNaN x = false -> isNaN (mul x ounce_to_gram) = false.
Proof.
  destruct ounce_to_gram as [s|s| |s m e] eqn:E; try (vm_compute in E; discriminate).
  unfold mul.
  destruct x as [sx|sx| |sx mx ex]; cbn [SFmul isNaN]; auto. intros _.
  apply binary_round_aux_not_nan. lia.
Qed.

(** The weight the normaliser produces is always a number. *)
Lemma parseWeight_number v : isNaN (parseWeight v) = false.
Proof.
  unfold parseWeight. destruct v as [s|]; [|reflexivity].
  destruct (truthy (Some s)); [|reflexivity].
  set (w := parseFloat _). destruct (isNaN w) eqn:E; [reflexivity|].
  apply round_not_nan, mul_ounce_not_nan, E.
Qed.

Lemma strict_neq_same x : isNaN x = false -> strict_neq x x = false.
Proof. intros H. unfold strict_neq. now rewrite SFeqb_refl. Qed.

Lemma compareVariants_same csvItem ev :
  let v := createVariant csvItem in
  ev_price ev = price v -> ev_compare_at_price ev = compare_at_price v ->
  default 0 (ev_inventory_quantity ev) = inventory_quantity v ->
  ev_sku ev = Some (sku v) -> ev_barcode ev = Some (barcode v) ->
  ev_weight ev = weight v ->
  compareVariants v ev = [].
Proof.
  intros v Hp Hc Hq Hs Hb Hw. unfold compareVariants.
  rewrite Hp, Hc, Hq, Hs, Hb, Hw, Z.eqb_refl, !bool_decide_eq_true_2 by reflexivity.
  rewrite (strict_neq_same (weight v)) by apply parseWeight_number.
  rewrite (strict_neq_same (parseFloat (chars (price v)))) by apply parsePrice_number.
  assert (Hcap : match compare_at_price v with
                 | Some cap => truthy (Some cap) &&
                     strict_neq (parseFloat (chars cap))
                                (parseFloat_or_zero (compare_at_price v))
                 | None => false
                 end = false).
  { subst v. cbn [createVariant compare_at_price].
    destruct (truthy (csvItem !! "MSRP")); [|reflexivity].
    destruct (truthy (Some (parsePrice (csvItem !! "MSRP")))) eqn:E; [|reflexivity].
    unfold parseFloat_or_zero. rewrite E. cbn [andb].
    apply strict_neq_same, parsePrice_number. }
  rewrite Hcap. reflexivity.
Qed.

(** A snapshot entry that mirrors the row gives the comparator nothing to
    report. *)
Lemma mirrors_unchanged
    (csvItem : gmap string string) (existingProduct : ExistingProduct) :
  mirrors csvItem existingProduct ->
  doesProductNeedUpdate csvItem existingProduct = [].
Proof.
  intros (Ht & Hb & Hp & Htags & Hs & Himg & Hv).
  unfold doesProductNeedUpdate, compareProducts.
  change (truthy (product_category_id (mapCSVToShopifyProduct csvItem))) with false.
  change (variants (mapCSVToShopifyProduct csvItem)) with [createVariant csvItem].
  cbn [andb].
  rewrite Ht, Hb, Hp, Htags, Hs, !String.eqb_refl, (sort_strings_canonical _ _ Himg).
  rewrite !bool_decide_eq_true_2 by reflexivity.
  cbn [negb changed app].
  destruct (ep_variants existingProduct) as [|ev evs]; [reflexivity|].
  destruct Hv as (H1 & H2 & H3 & H4 & H5 & H6).
  rewrite compareVariants_same; auto.
Qed.

(** X6: a row whose snapshot entry already holds exactly what the row
    maps to (the images in any order, the first variant field by field,
    prices as the normaliser prints them) yields no change at all. *)
Theorem unchanged_product_needs_no_update
    (csvItem : gmap string string) (existingProduct : ExistingProduct) :
  mirrors csvItem existingProduct ->
  doesProductNeedUpdate csvItem existingProduct = [].
Proof. apply mirrors_unchanged. Qed.

Lemma unchanged_product_needs_no_update_witness :
  doesProductNeedUpdate Scenarios.chain_before Scenarios.chain_in_catalog = [].
Proof.
  apply (unchanged_product_needs_no_update Scenarios.chain_before
           Scenarios.chain_in_catalog).
  unfold mirrors. cbn.
  repeat split; reflexivity.
Defined.

End ReconcileLaws.

(** ** The patch builder and the matcher, in general *)

Module PatchLaws.
Import JsString JsNumber Normalizer Reconcile Shape JsStringFacts.
Import ReconcileSpec.

Lemma elem_of_patch_fields u x :
  x ∈ patch_fields u <-> x ∈ product_fields u \/ x ∈ variant_part u.
Proof.
  unfold patch_fields, product_fields, variant_part.
  rewrite !elem_of_app. tauto.
Qed.

Lemma product_fields_flag u x : x ∈ product_fields u -> is_variant_change x = false.
Proof.
  unfold product_fields. fields_membership.
  intuition (subst; reflexivity).
Qed.

Lemma variant_fields_flag v x : x ∈ variant_fields v -> is_variant_change x = true.
Proof.
  unfold variant_fields. fields_membership.
  intuition (subst; reflexivity).
Qed.

Lemma variant_part_flag u x : x ∈ variant_part u -> is_variant_change x = true.
Proof.
  unfold variant_part. rewrite list_elem_of_In, in_flat_map.
  intros (v & _ & Hx). apply list_elem_of_In in Hx. eapply variant_fields_flag, Hx.
Qed.

(** A product-level change adds its own property and keeps the rest. *)
Lemma applyChange_product p e u d x :
  is_variant_change d = false ->
  (x ∈ product_fields (applyChange p e u d) <-> x = d \/ x ∈ product_fields u) /\
  u_variants (applyChange p e u d) = u_variants u /\
  u_id (applyChange p e u d) = u_id u.
Proof.
  intros Hd. destruct d; try discriminate Hd; cbn [applyChange];
    (split; [|split; reflexivity]);
    unfold product_fields;
    cbn [u_id u_title u_body_html u_product_type u_tags u_status
         u_product_category_id u_images u_variants];
    fields_membership;
    rewrite ?bool_decide_eq_true;
    intuition (subst; eauto; try discriminate).
Qed.

(** A variant-level change keeps the product-level properties and replaces
    the variant entry by one that carries its own property only. *)
Lemma applyChange_variant p e ev evs v vs u d :
  ep_variants e = ev :: evs -> variants p = v :: vs ->
  is_variant_change d = true ->
  product_fields (applyChange p e u d) = product_fields u /\
  u_variants (applyChange p e u d) = Some [variantUpdate (ev_id ev) v d] /\
  u_id (applyChange p e u d) = u_id u.
Proof.
  intros He Hp Hd.
  destruct d; try discriminate Hd; cbn [applyChange]; rewrite He, Hp;
    repeat split; reflexivity.
Qed.

Lemma filter_variant_snoc cs d :
  List.filter is_variant_change (cs ++ [d]) =
  List.filter is_variant_change cs ++ (if is_variant_change d then [d] else []).
Proof. rewrite List.filter_app. reflexivity. Qed.

Lemma buildUpdateData_snoc p e cs d :
  buildUpdateData p e (cs ++ [d]) = applyChange p e (buildUpdateData p e cs) d.
Proof. unfold buildUpdateData. now rewrite foldl_app. Qed.

Lemma buildUpdateData_parts p e ev evs v vs changes :
  ep_variants e = ev :: evs -> variants p = v :: vs ->
  let u := buildUpdateData p e changes in
  u_id u = ep_id e /\
  (forall x, x ∈ product_fields u <-> is_variant_change x = false /\ x ∈ changes) /\
  u_variants u =
    (fun c => [variantUpdate (ev_id ev) v c]) <$> last_variant_change changes.
Proof.
  intros He Hp. induction changes as [|d cs IH] using rev_ind.
  - cbn zeta. split; [reflexivity|]. split; [|reflexivity]. intros x.
    change (product_fields (buildUpdateData p e [])) with (@nil Change).
    rewrite !elem_of_nil. tauto.
  - cbn zeta in IH |- *. destruct IH as (Hid & Hprod & Hvar).
    rewrite buildUpdateData_snoc. unfold last_variant_change in *.
    rewrite filter_variant_snoc.
    destruct (is_variant_change d) eqn:Hd.
    + destruct (applyChange_variant p e ev evs v vs (buildUpdateData p e cs) d He Hp Hd)
        as (H1 & H2 & H3).
      rewrite H1, H2, H3, last_snoc. split; [exact Hid|]. split; [|reflexivity].
      intros x. rewrite Hprod, elem_of_app, list_elem_of_singleton.
      intuition (subst; congruence).
    + rewrite app_nil_r.
      split; [|split].
      * destruct (applyChange_product p e (buildUpdateData p e cs) d d Hd)
          as (_ & _ & ->). exact Hid.
      * intros x.
        destruct (applyChange_product p e (buildUpdateData p e cs) d x Hd)
          as (-> & _ & _).
        rewrite Hprod, elem_of_app, list_elem_of_singleton.
        intuition (subst; auto).
      * destruct (applyChange_product p e (buildUpdateData p e cs) d d Hd)
          as (_ & -> & _). exact Hvar.
Qed.

(** X7: when the snapshot entry has a variant, the patch built for a list
    of changes carries the product's identifier, every product-level
    property the list names, and of the variant-level properties only the
    one named last; its variant list has at most one entry, which carries
    the identifier of the first existing variant. *)
Theorem buildUpdateData_fields
    (csvItem : gmap string string) (existingProduct : ExistingProduct)
    (existingVariant : ExistingVariant) (others : list ExistingVariant)
    (changes : list Change) :
  ep_variants existingProduct = existingVariant :: others ->
  let u := buildUpdateData (mapCSVToShopifyProduct csvItem) existingProduct changes in
  u_id u = ep_id existingProduct /\
  (forall c, c ∈ patch_fields u <->
     if is_variant_change c then last_variant_change changes = Some c
     else c ∈ changes) /\
  u_variants u =
    (fun c => [variantUpdate (ev_id existingVariant) (createVariant csvItem) c])
      <$> last_variant_change changes.
Proof.
  intros He.
  destruct (buildUpdateData_parts (mapCSVToShopifyProduct csvItem) existingProduct
              existingVariant others (createVariant csvItem) [] changes He eq_refl)
    as (Hid & Hprod & Hvar).
  cbn zeta. split; [exact Hid|]. split; [|exact Hvar].
  intros c. rewrite elem_of_patch_fields. unfold variant_part. rewrite Hvar.
  assert (Hlast : forall x, last_variant_change changes = Some x ->
                            is_variant_change x = true).
  { intros x Hx. unfold last_variant_change in Hx.
    apply last_Some_elem_of, list_elem_of_In, List.filter_In in Hx. tauto. }
  destruct (is_variant_change c) eqn:Hc.
  - split.
    + intros [H | H]; [apply Hprod in H; destruct H; congruence|].
      destruct (last_variant_change changes) as [x|]; cbn in H.
      * rewrite app_nil_r, variant_fields_variantUpdate in H by auto.
        apply list_elem_of_singleton in H. now subst.
      * now apply elem_of_nil in H.
    + intros ->. right. cbn.
      rewrite app_nil_r, variant_fields_variantUpdate by auto. now left.
  - rewrite Hprod. split; [|tauto].
    intros [H | H]; [tauto|].
    destruct (last_variant_change changes) as [x|] eqn:E; cbn in H.
    + rewrite app_nil_r, variant_fields_variantUpdate in H by auto.
      apply list_elem_of_singleton in H. subst. rewrite (Hlast x) in Hc; auto.
      discriminate.
    + now apply elem_of_nil in H.
Qed.

Lemma buildUpdateData_fields_witness :
  let u := buildUpdateData (mapCSVToShopifyProduct Scenarios.chain_now)
             Scenarios.chain_in_catalog [price_; title_; inventory_] in
  u_id u = 9002 /\ (price_ ∉ patch_fields u) /\ inventory_ ∈ patch_fields u /\
  title_ ∈ patch_fields u.
Proof.
  destruct (buildUpdateData_fields Scenarios.chain_now Scenarios.chain_in_catalog
              _ _ [price_; title_; inventory_] eq_refl) as (Hid & Hf & _).
  cbn zeta. split; [exact Hid|].
  split; [intros H; apply Hf in H; discriminate H|].
  split; apply Hf; [reflexivity|]. cbn. apply elem_of_cons. right. left.
Defined.

End PatchLaws.

Module MatcherLaws.
Import JsString JsNumber Normalizer Reconcile Shape JsStringFacts.

Lemma omap_cons {A B} (f : A -> option B) x l :
  omap f (x :: l) = match f x with Some y => y :: omap f l | None => omap f l end.
Proof. reflexivity. Qed.

Lemma categorize_fold (csvData : list (gmap string string))
    (bySku byTitle : gmap string ExistingProduct) (enableUpdates : bool) :
  forall cs us : list Item,
  @foldl (list Item * list Item) (gmap string string)
        (fun '(productsToCreate, productsToUpdate) csvItem =>
           match findExisting bySku byTitle csvItem with
           | Some existingProduct =>
               if enableUpdates then
                 match doesProductNeedUpdate csvItem existingProduct with
                 | [] => (productsToCreate, productsToUpdate)
                 | changes => (productsToCreate,
                               productsToUpdate ++ [update csvItem existingProduct changes])
                 end
               else (productsToCreate, productsToUpdate)
           | None => (productsToCreate ++ [create csvItem], productsToUpdate)
           end)
        (cs, us) csvData
  = (cs ++ (create <$> List.filter (unmatched bySku byTitle) csvData),
     us ++ omap (update_for bySku byTitle enableUpdates) csvData).
Proof.
  destruct enableUpdates;
    (induction csvData as [|c rest IH]; intros cs us;
     cbn [foldl List.filter];
     [now rewrite !app_nil_r|]);
    rewrite omap_cons;
    unfold unmatched at 1, update_for at 1;
    destruct (findExisting bySku byTitle c) as [e|] eqn:E;
    rewrite ?bool_decide_eq_false_2 by discriminate;
    rewrite ?bool_decide_eq_true_2 by reflexivity.
  - destruct (doesProductNeedUpdate c e) as [|ch chs]; [apply IH|].
    rewrite IH. now rewrite <- app_assoc.
  - rewrite IH. cbn. now rewrite <- app_assoc.
  - apply IH.
  - rewrite IH. cbn. now rewrite <- app_assoc.
Qed.

(** X8: [categorizeProducts] keeps the feed order and looks at every row
    once: the rows to create are exactly the rows without a match; the rows
    to update are exactly the matched rows for which the comparator names a
    change, each with its match and those changes; a matched row without a
    change is in neither list, and with updates disabled nothing is
    updated. *)
Theorem categorizeProducts_partition
    (csvData : list (gmap string string))
    (bySku byTitle : gmap string ExistingProduct) (enableUpdates : bool) :
  let out := categorizeProducts csvData bySku byTitle enableUpdates in
  out.1 = create <$> List.filter (unmatched bySku byTitle) csvData /\
  out.2 = omap (update_for bySku byTitle enableUpdates) csvData /\
  (length out.1 + length out.2 <= length csvData)%nat /\
  (enableUpdates = false -> out.2 = []) /\
  Forall (fun item =>
            exists csvItem existingProduct changes,
              item = update csvItem existingProduct changes /\
              csvItem ∈ csvData /\
              findExisting bySku byTitle csvItem = Some existingProduct /\
              changes = doesProductNeedUpdate csvItem existingProduct /\
              changes <> []) out.2.
Proof.
  cbn zeta. unfold categorizeProducts. rewrite categorize_fold. cbn [fst snd app].
  split; [reflexivity|]. split; [reflexivity|].
  split; [|split].
  - rewrite length_fmap.
    induction csvData as [|c rest IH]; cbn [List.filter length]; [cbn; lia|].
    rewrite omap_cons. unfold unmatched at 1, update_for at 1.
    destruct (findExisting bySku byTitle c) as [e|].
    + rewrite bool_decide_eq_false_2 by discriminate.
      destruct enableUpdates; [destruct (doesProductNeedUpdate c e)|]; cbn; lia.
    + rewrite bool_decide_eq_true_2 by reflexivity. cbn. lia.
  - intros ->. induction csvData as [|c rest IH]; [reflexivity|].
    rewrite omap_cons. unfold update_for at 1.
    destruct (findExisting bySku byTitle c); exact IH.
  - apply Forall_forall. intros item Hin.
    apply list_elem_of_omap in Hin as (c & Hc & Hu).
    unfold update_for in Hu.
    destruct (findExisting bySku byTitle c) as [e|] eqn:E; [|discriminate].
    destruct enableUpdates; [|discriminate].
    destruct (doesProductNeedUpdate c e) as [|ch chs] eqn:Ech; [discriminate|].
    injection Hu as <-. exists c, e, (ch :: chs).
    repeat split; auto.
Qed.

End MatcherLaws.

Module IndexLaws.
Import JsString JsNumber Normalizer Reconcile Shape JsStringFacts.

Lemma truthy_Some s : truthy (Some s) = true <-> s <> "".
Proof.
  cbn. destruct (String.eqb_spec s ""); cbn; split; congruence.
Qed.

Lemma sku_inner product vs : forall (m : gmap string ExistingProduct) k,
  let m' := foldl (fun m' variant =>
                     match ev_sku variant with
                     | Some s => if truthy (Some s)
                                 then <[str (toLowerCase (chars s)) := product]> m'
                                 else m'
                     | None => m'
                     end) m vs in
  (m' !! k = Some product /\
   exists v s, v ∈ vs /\ ev_sku v = Some s /\ s <> "" /\ lower s = k) \/
  (m' !! k = m !! k /\
   ~ exists v s, v ∈ vs /\ ev_sku v = Some s /\ s <> "" /\ lower s = k).
Proof.
  induction vs as [|v vs IH] using rev_ind; intros m k; cbn zeta.
  - right. split; [reflexivity|]. intros (v & s & Hv & _). now apply elem_of_nil in Hv.
  - rewrite foldl_app. cbn [foldl].
    set (m0 := foldl _ m vs) in *.
    assert (Hkeep : forall P : Prop,
              (forall s, ev_sku v = Some s -> s <> "" -> lower s <> k) ->
              ((exists v0 s, v0 ∈ vs ++ [v] /\ ev_sku v0 = Some s /\ s <> "" /\ lower s = k)
               <-> exists v0 s, v0 ∈ vs /\ ev_sku v0 = Some s /\ s <> "" /\ lower s = k)).
    { intros _ Hv. split.
      - intros (v0 & s & Hin & Hs & Hne & Hk).
        apply elem_of_app in Hin as [Hin | Hin]; [eauto 6|].
        apply list_elem_of_singleton in Hin. subst v0. exfalso. eapply Hv; eauto.
      - intros (v0 & s & Hin & H). exists v0, s. split; [|exact H].
        apply elem_of_app. now left. }
    destruct (ev_sku v) as [s|] eqn:Es.
    + destruct (truthy (Some s)) eqn:Et.
      * apply truthy_Some in Et.
        destruct (decide (lower s = k)) as [Hk | Hk].
        -- left. split; [subst k; apply lookup_insert_eq|].
           exists v, s. repeat split; auto. apply elem_of_app. right. now left.
        -- change (str (toLowerCase (chars s))) with (lower s).
           rewrite lookup_insert_ne by exact Hk.
           rewrite (Hkeep True) by (intros s' [= <-] _; exact Hk).
           apply IH.
      * rewrite (Hkeep True).
        -- apply IH.
        -- intros s' [= <-] Hne. apply truthy_Some in Hne. congruence.
    + rewrite (Hkeep True) by (intros s' [=]). apply IH.
Qed.

(** What the SKU index holds under a key: a product of the snapshot that
    carries the key, if there is one. *)
Lemma indexBySku_lookup products k :
  match indexBySku products !! k with
  | Some p => p ∈ products /\ carries_sku k p
  | None => forall p, p ∈ products -> ~ carries_sku k p
  end.
Proof.
  unfold indexBySku.
  assert (H : forall (m : gmap string ExistingProduct),
            let m' := foldl (fun m product =>
                               foldl (fun m' variant =>
                                        match ev_sku variant with
                                        | Some s => if truthy (Some s)
                                                    then <[str (toLowerCase (chars s)) := product]> m'
                                                    else m'
                                        | None => m'
                                        end) m (ep_variants product)) m products in
            (exists p, m' !! k = Some p /\ p ∈ products /\ carries_sku k p) \/
            (m' !! k = m !! k /\ forall p, p ∈ products -> ~ carries_sku k p)).
  { induction products as [|q ps IH] using rev_ind; intros m; cbn zeta.
    - right. split; [reflexivity|]. intros p Hp. now apply elem_of_nil in Hp.
    - rewrite foldl_app. cbn [foldl]. specialize (IH m). cbn zeta in IH.
      set (m0 := foldl _ m ps) in *.
      destruct (sku_inner q (ep_variants q) m0 k) as [[Hq Hc] | [Hq Hc]].
      + left. exists q. split; [exact Hq|]. split; [|exact Hc].
        apply elem_of_app. right. now left.
      + cbn zeta in Hq. rewrite Hq.
        destruct IH as [(p & Hp & Hin & Hcar) | [Hp Hnone]].
        * left. exists p. split; [exact Hp|]. split; [|exact Hcar].
          apply elem_of_app. now left.
        * right. split; [exact Hp|]. intros p Hin.
          apply elem_of_app in Hin as [Hin | Hin]; [now apply Hnone|].
          apply list_elem_of_singleton in Hin. now subst p. }
  destruct (H ∅) as [(p & Hp & Hin & Hcar) | [Hp Hnone]]; cbn zeta in *.
  - rewrite Hp. auto.
  - rewrite Hp, lookup_empty. exact Hnone.
Qed.

Lemma indexByTitle_lookup products k :
  match indexByTitle products !! k with
  | Some p => p ∈ products /\ lower (ep_title p) = k
  | None => forall p, p ∈ products -> lower (ep_title p) <> k
  end.
Proof.
  unfold indexByTitle.
  assert (H : forall (m : gmap string ExistingProduct),
            let m' := foldl (fun m product =>
                               <[str (toLowerCase (chars (ep_title product))) := product]> m)
                            m products in
            (exists p, m' !! k = Some p /\ p ∈ products /\ lower (ep_title p) = k) \/
            (m' !! k = m !! k /\ forall p, p ∈ products -> lower (ep_title p) <> k)).
  { induction products as [|q ps IH] using rev_ind; intros m; cbn zeta.
    - right. split; [reflexivity|]. intros p Hp. now apply elem_of_nil in Hp.
    - rewrite foldl_app. cbn [foldl].
      change (str (toLowerCase (chars (ep_title q)))) with (lower (ep_title q)).
      destruct (decide (lower (ep_title q) = k)) as [Hk | Hk].
      + left. exists q. split; [subst k; apply lookup_insert_eq|]. split; [|exact Hk].
        apply elem_of_app. right. now left.
      + rewrite lookup_insert_ne by exact Hk.
        destruct (IH m) as [(p & Hp & Hin & Ht) | [Hp Hnone]].
        * left. exists p. split; [exact Hp|]. split; [|exact Ht].
          apply elem_of_app. now left.
        * right. split; [exact Hp|]. intros p Hin.
          apply elem_of_app in Hin as [Hin | Hin]; [now apply Hnone|].
          apply list_elem_of_singleton in Hin. now subst p. }
  destruct (H ∅) as [(p & Hp & Hin & Ht) | [Hp Hnone]]; cbn zeta in *.
  - rewrite Hp. auto.
  - rewrite Hp, lookup_empty. exact Hnone.
Qed.

Lemma findExisting_cases products csvItem :
  findExisting (indexBySku products) (indexByTitle products) csvItem =
    match skuKey csvItem with
    | Some k =>
        if decide (k = "") then
          if decide (titleKey csvItem = "") then None
          else indexByTitle products !! titleKey csvItem
        else match indexBySku products !! k with
             | Some p => Some p
             | None => if decide (titleKey csvItem = "") then None
                       else indexByTitle products !! titleKey csvItem
             end
    | None => if decide (titleKey csvItem = "") then None
              else indexByTitle products !! titleKey csvItem
    end.
Proof.
  unfold findExisting, skuKey. fold (titleKey csvItem).
  assert (Ht : forall t, (if truthy (Some t) then indexByTitle products !! t else None) =
                         (if decide (t = "") then None else indexByTitle products !! t)).
  { intros t. destruct (decide (t = "")) as [-> | Hne]; [reflexivity|].
    apply truthy_Some in Hne. now rewrite Hne. }
  destruct (csvItem !! "Item") as [item|]; cbn [fmap option_fmap option_map].
  - change (default "" (Some (lower item))) with (lower item).
    destruct (decide (lower item = "")) as [He | Hne].
    + rewrite He. change (truthy (Some "")) with false. cbn iota. apply Ht.
    + apply truthy_Some in Hne. rewrite Hne.
      destruct (indexBySku products !! lower item); [reflexivity|apply Ht].
  - change (truthy None) with false. cbn iota. apply Ht.
Qed.

(** X9: the match that [categorizeProducts] finds for a row is a product
    of the snapshot that has a variant with the row's SKU or that bears the
    row's title, letter case apart; and a row without a match is matched by
    no product of the snapshot, neither by SKU nor by title. *)
Theorem findExisting_sound_and_complete
    (products : list ExistingProduct) (csvItem : gmap string string) :
  match findExisting (indexBySku products) (indexByTitle products) csvItem with
  | Some p => p ∈ products /\ (matches_by_sku csvItem p \/ matches_by_title csvItem p)
  | None => forall p, p ∈ products ->
                      ~ matches_by_sku csvItem p /\ ~ matches_by_title csvItem p
  end.
Proof.
  rewrite findExisting_cases.
  pose proof (indexByTitle_lookup products (titleKey csvItem)) as Ht.
  assert (Htitle :
            match (if decide (titleKey csvItem = "") then None
                   else indexByTitle products !! titleKey csvItem) with
            | Some p => p ∈ products /\ matches_by_title csvItem p
            | None => forall p, p ∈ products -> ~ matches_by_title csvItem p
            end).
  { unfold matches_by_title. destruct (decide (titleKey csvItem = "")) as [He | Hne].
    - intros p _ [H _]. contradiction.
    - destruct (indexByTitle products !! titleKey csvItem) as [p|].
      + destruct Ht. auto.
      + intros p Hin [_ H]. now apply (Ht p). }
  unfold matches_by_sku.
  destruct (skuKey csvItem) as [k|] eqn:Ek.
  - destruct (decide (k = "")) as [-> | Hne].
    + destruct (if decide (titleKey csvItem = "") then None else _) as [p|].
      * destruct Htitle. auto.
      * intros p Hin. split; [|now apply Htitle].
        intros (k' & [= <-] & Hk & _). contradiction.
    + pose proof (indexBySku_lookup products k) as Hs.
      destruct (indexBySku products !! k) as [p|].
      * destruct Hs as [Hin Hc]. split; [exact Hin|]. left. eauto.
      * destruct (if decide (titleKey csvItem = "") then None else _) as [p|].
        -- destruct Htitle. auto.
        -- intros p Hin. split; [|now apply Htitle].
           intros (k' & [= <-] & _ & Hc). now apply (Hs p).
  - destruct (if decide (titleKey csvItem = "") then None else _) as [p|].
    + destruct Htitle. auto.
    + intros p Hin. split; [|now apply Htitle].
      intros (k' & [=] & _).
Qed.

(** Products that do not carry a key leave the SKU index as it is under
    that key. *)
Lemma indexBySku_miss products k : forall (m : gmap string ExistingProduct),
  (forall p, p ∈ products -> ~ carries_sku k p) ->
  foldl (fun m product =>
           foldl (fun m' variant =>
                    match ev_sku variant with
                    | Some s => if truthy (Some s)
                                then <[str (toLowerCase (chars s)) := product]> m'
                                else m'
                    | None => m'
                    end) m (ep_variants product)) m products !! k = m !! k.
Proof.
  induction products as [|q ps IH]; intros m Hnone; [reflexivity|].
  cbn [foldl]. rewrite IH by (intros p Hp; apply Hnone; now right).
  destruct (sku_inner q (ep_variants q) m k) as [[_ Hc] | [Hq _]].
  - exfalso. apply (Hnone q); [now left | exact Hc].
  - exact Hq.
Qed.

(** Of the products that carry a key the one listed last is the one the
    SKU index holds under it. *)
Lemma indexBySku_split before q after k :
  carries_sku k q -> (forall p, p ∈ after -> ~ carries_sku k p) ->
  indexBySku (before ++ q :: after) !! k = Some q.
Proof.
  intros Hc Hnone. unfold indexBySku. rewrite foldl_app. cbn [foldl].
  rewrite indexBySku_miss by exact Hnone.
  match goal with
  | |- foldl _ ?m (ep_variants q) !! k = _ =>
      destruct (sku_inner q (ep_variants q) m k) as [[Hq _] | [_ Hn]]
  end; [exact Hq|].
  exfalso. apply Hn. exact Hc.
Qed.

Lemma indexByTitle_miss products k : forall (m : gmap string ExistingProduct),
  (forall p, p ∈ products -> lower (ep_title p) <> k) ->
  foldl (fun m product => <[str (toLowerCase (chars (ep_title product))) := product]> m)
        m products !! k = m !! k.
Proof.
  induction products as [|q ps IH]; intros m Hnone; [reflexivity|].
  cbn [foldl]. rewrite IH by (intros p Hp; apply Hnone; now right).
  apply lookup_insert_ne. apply (Hnone q). now left.
Qed.

Lemma indexByTitle_split before q after :
  (forall p, p ∈ after -> lower (ep_title p) <> lower (ep_title q)) ->
  indexByTitle (before ++ q :: after) !! lower (ep_title q) = Some q.
Proof.
  intros Hnone. unfold indexByTitle. rewrite foldl_app. cbn [foldl].
  rewrite indexByTitle_miss by exact Hnone. apply lookup_insert_eq.
Qed.

(** X10: the SKU decides before the title, and of several snapshot
    entries under one key the one listed last wins, wherever it stands in
    the snapshot.  A product that matches the row by SKU, with no product
    after it that does, is the match, whatever products bear the row's
    title; and when no product matches by SKU, a product that bears the
    row's title, with no product after it that does, is the match. *)
Theorem findExisting_precedence
    (before after : list ExistingProduct) (q : ExistingProduct)
    (csvItem : gmap string string) :
  let products := before ++ q :: after in
  let found := findExisting (indexBySku products) (indexByTitle products) csvItem in
  (matches_by_sku csvItem q ->
   (forall p, p ∈ after -> ~ matches_by_sku csvItem p) ->
   found = Some q) /\
  ((forall p, p ∈ products -> ~ matches_by_sku csvItem p) ->
   matches_by_title csvItem q ->
   (forall p, p ∈ after -> ~ matches_by_title csvItem p) ->
   found = Some q).
Proof.
  cbv zeta. rewrite findExisting_cases. split.
  - intros (k & Hk & Hne & Hc) Hnone. rewrite Hk.
    destruct (decide (k = "")); [contradiction|].
    rewrite (indexBySku_split before q after k Hc); [reflexivity|].
    intros p Hp Hcp. apply (Hnone p Hp). exists k. auto.
  - intros Hnosku [Ht Hq] Hnone.
    assert (Htitle : indexByTitle (before ++ q :: after) !! titleKey csvItem = Some q).
    { rewrite <- Hq. apply indexByTitle_split.
      intros p Hp Heq. apply (Hnone p Hp). split; [exact Ht | congruence]. }
    destruct (decide (titleKey csvItem = "")); [contradiction|].
    destruct (skuKey csvItem) as [k|] eqn:Hk; [|exact Htitle].
    destruct (decide (k = "")) as [|Hne]; [exact Htitle|].
    pose proof (indexBySku_lookup (before ++ q :: after) k) as Hs.
    destruct (indexBySku (before ++ q :: after) !! k) as [p|]; [|exact Htitle].
    exfalso. destruct Hs as [Hin Hc]. apply (Hnosku p Hin). exists k. auto.
Qed.

(** Two products carry the SKU of the row and a third one, listed last,
    bears its title: the match is the second of the two. *)
Lemma findExisting_precedence_witness :
  let relisted := Scenarios.stored 9003 7003
                    (mapCSVToShopifyProduct (Scenarios.row "qg-200" "Box Chain" "99.00" "1")) in
  let products := [Scenarios.chain_in_catalog; relisted; Scenarios.ring_in_catalog] in
  findExisting (indexBySku products) (indexByTitle products)
               (Scenarios.row "QG-200" "Gold Ring" "1.00" "1")
    = Some relisted.
Proof.
  cbv zeta.
  apply (proj1 (findExisting_precedence [Scenarios.chain_in_catalog]
                  [Scenarios.ring_in_catalog]
                  (Scenarios.stored 9003 7003
                     (mapCSVToShopifyProduct (Scenarios.row "qg-200" "Box Chain" "99.00" "1")))
                  (Scenarios.row "QG-200" "Gold Ring" "1.00" "1"))).
  - exists "qg-200". split; [reflexivity|]. split; [discriminate|].
    eexists _, "qg-200". split; [left|]. repeat split. discriminate.
  - intros p Hp (k & Hk & _ & v & s & Hv & Hs & _ & Hl).
    apply list_elem_of_singleton in Hp. subst p.
    injection Hk as <-. cbn in Hv. apply list_elem_of_singleton in Hv. subst v.
    injection Hs as <-. vm_compute in Hl. discriminate.
Defined.

End IndexLaws.

(** ** The schedule of a dispatch *)

Module ScheduleLaws.
Import JsString JsNumber Normalizer Reconcile Dispatch Schedule.
Import DispatchSpec.

Lemma requests_app a b : requests_issued (a ++ b) = requests_issued a ++ requests_issued b.
Proof. unfold requests_issued. apply List.filter_app. Qed.

Lemma batch_sizes_app a b : batch_sizes (a ++ b) = batch_sizes a ++ batch_sizes b.
Proof. unfold batch_sizes. apply omap_app. Qed.

Lemma pauses_app a b : pauses (a ++ b) = pauses a ++ pauses b.
Proof. unfold pauses. apply omap_app. Qed.

Lemma requests_of_batch batch :
  requests_issued (request_of <$> batch) = request_of <$> batch /\
  batch_sizes (request_of <$> batch) = [] /\
  pauses (request_of <$> batch) = [].
Proof.
  induction batch as [|item batch (IH1 & IH2 & IH3)]; [repeat split|].
  change (request_of <$> item :: batch) with (request_of item :: (request_of <$> batch)).
  change (requests_issued (request_of item :: (request_of <$> batch)))
    with (if is_network (request_of item)
          then request_of item :: requests_issued (request_of <$> batch)
          else requests_issued (request_of <$> batch)).
  change (batch_sizes (request_of item :: (request_of <$> batch)))
    with (match (match request_of item with BatchStart n => Some n | _ => None end) with
          | Some n => n :: batch_sizes (request_of <$> batch)
          | None => batch_sizes (request_of <$> batch)
          end).
  change (pauses (request_of item :: (request_of <$> batch)))
    with (match (match request_of item with Delay ms => Some ms | _ => None end) with
          | Some n => n :: pauses (request_of <$> batch)
          | None => pauses (request_of <$> batch)
          end).
  rewrite IH1, IH2, IH3. destruct item; repeat split.
Qed.

Lemma tally_coherent value r : coherent r -> coherent (tally value r).
Proof.
  intros (H1 & H2 & H3 & H4). unfold tally, coherent.
  destruct (type value); cbn; rewrite ?length_app; cbn; repeat split; lia.
Qed.

Lemma record_error_coherent detail r : coherent r -> coherent (record_error detail r).
Proof.
  intros (H1 & H2 & H3 & H4). unfold record_error, coherent.
  cbn; rewrite ?length_app; cbn; repeat split; lia.
Qed.

Lemma slice_take_drop {A} (l : list A) (i b : Z) :
  0 <= i < Z.of_nat (length l) -> 1 <= b ->
  slice i (i + b) l = take (Z.to_nat b) (drop (Z.to_nat i) l).
Proof.
  intros Hi Hb. unfold slice.
  destruct (i <? 0) eqn:E1; [apply Z.ltb_lt in E1; lia|].
  destruct (i + b <? 0) eqn:E2; [apply Z.ltb_lt in E2; lia|].
  replace (Z.to_nat (Z.min i (Z.of_nat (length l)))) with (Z.to_nat i) by lia.
  destruct (Z_le_gt_dec (i + b) (Z.of_nat (length l))) as [Hle | Hgt].
  - f_equal. lia.
  - rewrite !take_ge; [reflexivity | |]; rewrite length_drop; lia.
Qed.

Lemma Forall_slice {A} (P : A -> Prop) (l : list A) (i j : Z) :
  Forall P l -> Forall P (slice i j l).
Proof. intros H. unfold slice. apply Forall_take, Forall_drop, H. Qed.

Section WithApi.
Context {api : CatalogApi}.

Lemma processItem_request item history :
  (processItem item false history).2 = history ++ [request_of item].
Proof.
  destruct item as [c | c e ch]; cbn [processItem request_of].
  - unfold processCreateItem. destruct (createProduct _ _); reflexivity.
  - unfold processUpdateItem. destruct (updateProduct _ _ _); reflexivity.
Qed.

(** One item of the sequential routine outside a dry run: one request;
    then either the item is counted and a pause of 100 ms follows, or the
    error is counted and recorded under the item's name. *)
Lemma sequentialItem_live st item :
  let st' := sequentialItem false st item in
  accounted (results st') = S (accounted (results st)) /\
  (coherent (results st) -> coherent (results st')) /\
  ((trace st' = trace st ++ [request_of item; Delay 100] /\
    errors (results st') = errors (results st) /\
    errorDetails (results st') = errorDetails (results st) /\
    (created (results st') + updated (results st') =
       S (created (results st) + updated (results st)))%nat) \/
   (trace st' = trace st ++ [request_of item] /\
    errors (results st') = S (errors (results st)) /\
    (exists message,
       errorDetails (results st') =
         errorDetails (results st) ++ [{| csvItem := identifier item; error := message |}]) /\
    (created (results st') + updated (results st') =
       created (results st) + updated (results st))%nat)).
Proof.
  cbv zeta. unfold sequentialItem.
  pose proof (processItem_request item (trace st)) as Htr.
  destruct (processItem_live item (trace st)) as (_ & _ & _ & Hres).
  destruct (processItem item false (trace st)) as [[value | message] h'];
    cbn [fst snd] in Htr, Hres; subst h'; cbn [results trace].
  - destruct (tally_counted value (results st) Hres) as (A & B & C & D & _).
    split; [exact A|]. split; [apply tally_coherent|]. left.
    rewrite <- app_assoc. auto.
  - destruct (record_error_fields {| csvItem := identifier item; error := message |}
                (results st)) as (A & B & C & D & _).
    split; [exact A|]. split; [apply record_error_coherent|]. right.
    split; [reflexivity|]. split; [exact C|]. split; [eauto|exact B].
Qed.

Lemma sequential_live batch : forall st,
  let st' := processBatchSequentialWithUpdates batch st false in
  requests_issued (trace st') = requests_issued (trace st) ++ (request_of <$> batch) /\
  batch_sizes (trace st') = batch_sizes (trace st) /\
  accounted (results st') = (accounted (results st) + length batch)%nat /\
  (coherent (results st) -> coherent (results st')) /\
  (exists failed,
     errors (results st') = (errors (results st) + length failed)%nat /\
     errorDetails (results st') = errorDetails (results st) ++ failed /\
     Forall (fun detail => exists item, item ∈ batch /\ csvItem detail = identifier item)
            failed /\
     (created (results st') + updated (results st') + length failed =
        created (results st) + updated (results st) + length batch)%nat /\
     (length failed <= length batch)%nat /\
     pauses (trace st') =
       pauses (trace st) ++ repeat 100 (length batch - length failed)).
Proof.
  unfold processBatchSequentialWithUpdates.
  induction batch as [|item batch IH]; intros st; cbv zeta.
  - cbn [foldl fmap list_fmap length]. rewrite !app_nil_r.
    split; [reflexivity|]. split; [reflexivity|]. split; [lia|]. split; [auto|].
    exists []. cbn [length repeat Nat.sub]. rewrite !app_nil_r.
    split; [lia|]. split; [reflexivity|]. split; [constructor|]. split; [lia|].
    split; [lia|reflexivity].
  - cbn [foldl length].
    destruct (sequentialItem_live st item) as (A1 & C1 & Hcase).
    destruct (IH (sequentialItem false st item))
      as (R2 & B2 & A2 & C2 & failed & E2 & D2 & F2 & N2 & L2 & P2).
    set (st1 := sequentialItem false st item) in *.
    assert (Hin : forall failed0,
              Forall (fun detail => exists item0, item0 ∈ batch /\
                                                  csvItem detail = identifier item0) failed0 ->
              Forall (fun detail => exists item0, item0 ∈ item :: batch /\
                                                  csvItem detail = identifier item0) failed0).
    { intros f0 Hf0. eapply Forall_impl; [exact Hf0|].
      intros d (i0 & Hi0 & Hd). exists i0. split; [now right | exact Hd]. }
    destruct Hcase as [(T1 & E1 & D1 & N1) | (T1 & E1 & (message & D1) & N1)].
    + rewrite R2, B2, A2, A1, T1, requests_app, batch_sizes_app.
      split; [|split; [|split; [|split]]].
      * destruct item; cbn; rewrite <- app_assoc; reflexivity.
      * destruct item; cbn; now rewrite app_nil_r.
      * lia.
      * auto.
      * exists failed. rewrite E2, D2, E1, D1.
        split; [reflexivity|]. split; [reflexivity|]. split; [auto|]. split; [lia|].
        split; [lia|].
        rewrite P2, T1, pauses_app.
        replace (S (length batch) - length failed)%nat
          with (S (length batch - length failed)) by lia.
        destruct item; cbn; rewrite <- app_assoc; reflexivity.
    + rewrite R2, B2, A2, A1, T1, requests_app, batch_sizes_app.
      split; [|split; [|split; [|split]]].
      * destruct item; cbn; rewrite <- app_assoc; reflexivity.
      * destruct item; cbn; now rewrite app_nil_r.
      * lia.
      * auto.
      * exists ({| csvItem := identifier item; error := message |} :: failed).
        rewrite E2, D2, E1, D1, <- app_assoc. cbn [length app].
        split; [lia|]. split; [reflexivity|]. split.
        { constructor; [exists item; split; [now left | reflexivity] | auto]. }
        split; [lia|]. split; [lia|].
        rewrite P2, T1, pauses_app.
        replace (S (length batch) - S (length failed))%nat
          with (length batch - length failed)%nat by lia.
        destruct item; cbn; now rewrite app_nil_r.
Qed.



Lemma startAll_requests batch : forall promises history,
  (foldl (fun '(promises, h) item =>
            match processItem item false h with
            | (inl result, h') => (promises ++ [fulfilled (succeeded result)], h')
            | (inr message, h') =>
                (promises ++ [fulfilled (failed {| csvItem := identifier item;
                                                   error := message |})], h')
            end) (promises, history) batch).2
  = history ++ (request_of <$> batch).
Proof.
  induction batch as [|item batch IH]; intros promises history; cbn [foldl].
  - cbn. now rewrite app_nil_r.
  - pose proof (processItem_request item history) as Htr.
    destruct (processItem item false history) as [[value | message] h'];
      cbn [snd] in Htr; subst h'; rewrite IH; cbn; now rewrite <- app_assoc.
Qed.

Lemma tallySettled_coherent entries : forall r,
  coherent r -> coherent (foldl tallySettled r entries).
Proof.
  induction entries as [|entry entries IH]; intros r Hr; [exact Hr|].
  cbn [foldl]. apply IH. unfold tallySettled.
  destruct (entry.2) as [[value | detail] | message];
    auto using tally_coherent, record_error_coherent.
Qed.

Lemma parallel_live batch st :
  let st' := processBatchParallelWithUpdates batch st false in
  trace st' = trace st ++ (request_of <$> batch) /\
  accounted (results st') = (accounted (results st) + length batch)%nat /\
  (coherent (results st) -> coherent (results st')).
Proof.
  cbv zeta.
  destruct (parallel_effect batch st) as (_ & _ & E1 & _ & E3 & E4).
  split; [|split].
  - unfold processBatchParallelWithUpdates.
    pose proof (startAll_requests batch [] (trace st)) as Htr.
    unfold startAll. destruct (foldl _ _ batch) as [settled h]. exact Htr.
  - unfold accounted. lia.
  - unfold processBatchParallelWithUpdates.
    destruct (startAll batch false (trace st)) as [settled h]. cbn [results].
    apply tallySettled_coherent.
Qed.

(** A batch outside a dry run, whichever routine runs it. *)
Lemma processBatch_live o batch st :
  dryRun o = false ->
  let st' := processBatch o batch st in
  requests_issued (trace st') = requests_issued (trace st) ++ (request_of <$> batch) /\
  batch_sizes (trace st') = batch_sizes (trace st) /\
  accounted (results st') = (accounted (results st) + length batch)%nat /\
  (coherent (results st) -> coherent (results st')) /\
  (parallelBatch o = true -> pauses (trace st') = pauses (trace st)).
Proof.
  intros Hd. cbv zeta. unfold processBatch. rewrite Hd.
  destruct (parallelBatch o); cbn [andb negb].
  - destruct (parallel_live batch st) as (T & A & C).
    destruct (requests_of_batch batch) as (Q1 & Q2 & Q3).
    rewrite T, requests_app, batch_sizes_app, pauses_app, Q1, Q2, Q3, !app_nil_r.
    auto.
  - destruct (sequential_live batch st) as (R & B & A & C & _).
    split; [exact R|]. split; [exact B|]. split; [exact A|]. split; [exact C|].
    intros [=].
Qed.


Lemma batchLoop_unfold fuel o all i st :
  batchLoop (S fuel) o all i st =
    if i <? Z.of_nat (length all)
    then batchLoop fuel o all (i + batchSize o) (batchStep o all i st)
    else Some st.
Proof. reflexivity. Qed.

(** The loop as an invariant rule: with a positive batch size and enough
    fuel it ends, at the first multiple step past the last item, and what
    every turn keeps holds at the end. *)
Lemma batchLoop_invariant o all (P : Z -> Run -> Prop) :
  1 <= batchSize o ->
  (forall i st, 0 <= i < Z.of_nat (length all) -> P i st ->
                P (i + batchSize o) (batchStep o all i st)) ->
  forall fuel i st,
    0 <= i ->
    (batches_ahead (Z.of_nat (length all)) (batchSize o) i <= fuel)%nat ->
    P i st ->
    exists st' i',
      batchLoop fuel o all i st = Some st' /\ P i' st' /\
      Z.of_nat (length all) <= i' /\
      (i < Z.of_nat (length all) -> i' < Z.of_nat (length all) + batchSize o) /\
      (Z.of_nat (length all) <= i -> i' = i).
Proof.
  intros Hb Hstep. set (n := Z.of_nat (length all)) in *.
  induction fuel as [|fuel IH]; intros i st Hi Hfuel HP.
  - cbn [batchLoop]. fold n. destruct (i <? n) eqn:E.
    + apply Z.ltb_lt in E.
      destruct (ceil_div_step n (batchSize o) i Hb (conj Hi E)). lia.
    + apply Z.ltb_ge in E. exists st, i. repeat split; auto; lia.
  - rewrite batchLoop_unfold. fold n. destruct (i <? n) eqn:E.
    + apply Z.ltb_lt in E.
      destruct (ceil_div_step n (batchSize o) i Hb (conj Hi E)) as [Hs _].
      destruct (IH (i + batchSize o) (batchStep o all i st))
        as (st' & i' & Hrun & HP' & Hn & Hlt & Hge); [lia | lia | auto |].
      exists st', i'. split; [exact Hrun|]. split; [exact HP'|]. split; [exact Hn|].
      split; [|lia]. intros _.
      destruct (Z_lt_ge_dec (i + batchSize o) n); [auto|]. rewrite Hge; lia.
    + apply Z.ltb_ge in E. exists st, i. repeat split; auto; lia.
Qed.

Lemma dispatch_fuel (o : Options) (all : list Item) :
  1 <= batchSize o ->
  (batches_ahead (Z.of_nat (length all)) (batchSize o) 0 <= S (length all))%nat.
Proof.
  intros Hb. unfold batches_ahead, ceil_div. rewrite Z.sub_0_r.
  destruct (0 <? Z.of_nat (length all)) eqn:E; [|lia]. apply Z.ltb_lt in E.
  assert ((Z.of_nat (length all) + batchSize o - 1) / batchSize o
          < Z.of_nat (length all) + 1).
  { apply Z.div_lt_upper_bound; [lia|]. nia. }
  assert (0 <= (Z.of_nat (length all) + batchSize o - 1) / batchSize o)
    by (apply Z.div_pos; lia).
  lia.
Qed.

(** The schedule of a live dispatch: one request per item, in order. *)
Lemma dispatch_live (o : Options) (all : list Item) (rows : nat) :
  1 <= batchSize o -> dryRun o = false ->
  exists st',
    dispatch o all rows = Some st' /\
    requests_issued (trace st') = request_of <$> all /\
    (created (results st') + updated (results st') + errors (results st')
       = length all)%nat /\
    coherent (results st') /\
    total (results st') = rows.
Proof.
  intros Hb Hd. unfold dispatch.
  destruct (batchLoop_invariant o all
              (fun i st =>
                 requests_issued (trace st) = request_of <$> take (Z.to_nat i) all /\
                 accounted (results st) = Z.to_nat (Z.min i (Z.of_nat (length all))) /\
                 coherent (results st) /\ total (results st) = rows)
              Hb) with (fuel := S (length all)) (i := 0)
              (st := {| results := initialResults rows; trace := [] |})
    as (st' & i' & Hrun & (HR & HA & HC & HT) & Hn & _).
  - intros i st Hi (HR & HA & HC & HT). unfold batchStep.
    set (batch := slice i (i + batchSize o) all).
    destruct (processBatch_live o batch (announce (BatchStart (length batch)) st) Hd)
      as (R & _ & A & C & _).
    assert (Htot : total (results (processBatch o batch
                                     (announce (BatchStart (length batch)) st))) = rows).
    { clear - HT. unfold processBatch.
      assert (Hseq : forall dry b s, total (results
                       (processBatchSequentialWithUpdates b s dry)) = total (results s)).
      { intros dry b. unfold processBatchSequentialWithUpdates.
        induction b as [|it b IH]; intros s; [reflexivity|]. cbn [foldl].
        rewrite IH. unfold sequentialItem.
        destruct (processItem it dry (trace s)) as [[v | m] h]; cbn [results].
        - unfold tally. destruct (type v); reflexivity.
        - reflexivity. }
      assert (Hpar : forall b s dry, total (results
                       (processBatchParallelWithUpdates b s dry)) = total (results s)).
      { intros b s dry. unfold processBatchParallelWithUpdates.
        destruct (startAll b dry (trace s)) as [settled h]. cbn [results].
        generalize (zip b settled) (results s). clear.
        induction l as [|e l IH]; intros r; [reflexivity|]. cbn [foldl].
        rewrite IH. unfold tallySettled.
        destruct (e.2) as [[v | d] | m]; try reflexivity.
        unfold tally. destruct (type v); reflexivity. }
      destruct (parallelBatch o && negb (dryRun o)); rewrite ?Hseq, ?Hpar; exact HT. }
    cbn [announce results trace] in R, A, C.
    assert (Hall : requests_issued (trace (processBatch o batch
                     (announce (BatchStart (length batch)) st)))
                   = request_of <$> take (Z.to_nat (i + batchSize o)) all).
    { rewrite R, requests_app, HR. cbn [requests_issued List.filter is_network].
      rewrite app_nil_r. subst batch. rewrite slice_take_drop by lia.
      rewrite <- fmap_app, take_take_drop. f_equal. f_equal. lia. }
    assert (Hacc : accounted (results (processBatch o batch
                     (announce (BatchStart (length batch)) st)))
                   = Z.to_nat (Z.min (i + batchSize o) (Z.of_nat (length all)))).
    { rewrite A, HA. subst batch. rewrite length_slice by lia. lia. }
    destruct (i + batchSize o <? Z.of_nat (length all)); cbn [announce results trace].
    + rewrite requests_app. cbn [requests_issued List.filter is_network].
      rewrite app_nil_r. split; [exact Hall|]. split; [exact Hacc|]. split; [auto|exact Htot].
    + split; [exact Hall|]. split; [exact Hacc|]. split; [auto|exact Htot].
  - lia.
  - apply dispatch_fuel, Hb.
  - cbn [trace results]. split; [reflexivity|]. split; [|split; [repeat split|reflexivity]].
    unfold accounted, initialResults. cbn [created updated skipped errors]. lia.
  - exists st'. split; [exact Hrun|].
    rewrite take_ge in HR by lia. split; [exact HR|].
    destruct HC as (C1 & C2 & C3 & C4). unfold accounted in HA.
    repeat split; auto. lia.
Qed.

(** X11: outside a dry run, with a positive batch size, the dispatch ends
    after issuing exactly one request per item of the changeset, in the
    order of the changeset, whatever the API answers: [created + updated +
    errors] equals the number of items, nothing is counted as skipped, and
    each count agrees with the list kept beside it. *)
Theorem live_run_requests_each_item_once (o : Options) (all : list Item) (rows : nat) :
  1 <= batchSize o -> dryRun o = false ->
  exists st',
    dispatch o all rows = Some st' /\
    requests_issued (trace st') = request_of <$> all /\
    (created (results st') + updated (results st') + errors (results st')
       = length all)%nat /\
    coherent (results st') /\
    total (results st') = rows.
Proof. apply dispatch_live. Qed.

End WithApi.

Lemma live_run_requests_each_item_once_witness :
  exists st',
    @dispatch Scenarios.flaky Scenarios.live_options Scenarios.small_batch 3 = Some st' /\
    requests_issued (trace st') = request_of <$> Scenarios.small_batch /\
    (created (results st') + updated (results st') + errors (results st') = 3)%nat.
Proof.
  destruct (@live_run_requests_each_item_once Scenarios.flaky Scenarios.live_options
              Scenarios.small_batch 3 ltac:(cbn; lia) eq_refl)
    as (st' & H1 & H2 & H3 & _).
  exists st'. auto.
Defined.

End ScheduleLaws.

Module DispatchLaws.
Import JsString JsNumber Normalizer Reconcile Dispatch Schedule Replies Shape.
Import DispatchSpec ScheduleLaws.








Section WithApi.
Context {api : CatalogApi}.



(** X13: with a batch size of zero or less the loop over a changeset that
    is not empty never ends: whatever the number of turns allowed, the run
    is still going. *)
Theorem nonpositive_batch_size_never_ends
    (o : Options) (all : list Item) (fuel : nat) (i : Z) (st : Run) :
  batchSize o <= 0 -> i < Z.of_nat (length all) ->
  batchLoop fuel o all i st = None.
Proof.
  intros Hb. revert i st. induction fuel as [|fuel IH]; intros i st Hi.
  - cbn [batchLoop]. destruct (i <? Z.of_nat (length all)) eqn:E; [reflexivity|].
    apply Z.ltb_ge in E. lia.
  - rewrite batchLoop_unfold.
    destruct (i <? Z.of_nat (length all)) eqn:E; [|apply Z.ltb_ge in E; lia].
    apply IH. lia.
Qed.

(** X14: outside a dry run the sequential routine goes through the whole
    batch whatever fails.  Every item is requested once, in order, and a
    pause of 100 ms follows each accepted request and no refused one.  The
    outcome of each item is the catalog's answer to that item's own
    request, issued after what the items before it left in the trace: a
    refused item adds one to the error count and one entry with its name
    and the message to the error list, and the items after it are still
    requested and counted by their own answers. *)
Theorem sequential_batch_isolates_failures
    (o : Options) (batch : list Item) (st : Run) :
  parallelBatch o = false -> dryRun o = false ->
  let st' := processBatch o batch st in
  let replies := paced_answers batch (trace st) in
  trace st' = trace st ++ mjoin (zip_with paced batch replies) /\
  requests_issued (trace st') = requests_issued (trace st) ++ (request_of <$> batch) /\
  (forall k item, batch !! k = Some item ->
     replies !! k =
       Some (answer item (trace st ++
                          mjoin (zip_with paced (take k batch) (take k replies))))) /\
  errors (results st') = (errors (results st) + length (refused batch replies))%nat /\
  errorDetails (results st') = errorDetails (results st) ++ refused batch replies /\
  created (results st') =
    (created (results st) + length (accepted_creates batch replies))%nat /\
  createdProducts (results st') =
    createdProducts (results st) ++ accepted_creates batch replies /\
  updated (results st') =
    (updated (results st) + length (accepted_updates batch replies))%nat /\
  updatedProducts (results st') =
    updatedProducts (results st) ++ accepted_updates batch replies /\
  skipped (results st') = skipped (results st) /\
  (length (refused batch replies) + length (accepted_creates batch replies) +
   length (accepted_updates batch replies) = length batch)%nat.
Proof.
  intros Hpar Hd. cbv zeta. unfold processBatch. rewrite Hpar, Hd. cbn [andb].
  pose proof (sequential_live batch st) as (R & _).
  cbv zeta in R. rewrite sequential_answers in R |- *. cbn [results trace] in R |- *.
  split; [reflexivity|]. split; [exact R|].
  split; [intros k item Hk; now apply paced_answers_lookup|].
  destruct (tallySettled_answers batch (paced_answers batch (trace st)) (results st))
    as (E1 & E2 & E3 & E4 & E5 & E6 & E7 & _).
  repeat (split; [assumption|]).
  apply outcomes_partition, length_paced_answers.
Qed.



End WithApi.

Lemma nonpositive_batch_size_never_ends_witness :
  @batchLoop Scenarios.accepting 1000 Fixtures.stuck_options Scenarios.small_batch 0
    Scenarios.empty_run = None.
Proof.
  apply (@nonpositive_batch_size_never_ends Scenarios.accepting Fixtures.stuck_options
           Scenarios.small_batch 1000 0 Scenarios.empty_run); cbn; lia.
Defined.


(** Against a catalog that refuses the first request only, the items
    after the refused one are requested, counted and followed by their
    pauses. *)
Lemma sequential_batch_isolates_failures_witness :
  let st' := @processBatch first_refused Fixtures.sequential_options
               Scenarios.small_batch Scenarios.empty_run in
  requests_issued (trace st') = request_of <$> Scenarios.small_batch /\
  pauses (trace st') = [100; 100] /\
  (created (results st'), updated (results st'), errors (results st')) = (1, 1, 1)%nat /\
  errorDetails (results st')
    = [{| csvItem := "QG-100"; error := "503 Service Unavailable" |}].
Proof.
  pose proof (@sequential_batch_isolates_failures first_refused
                Fixtures.sequential_options Scenarios.small_batch Scenarios.empty_run
                eq_refl eq_refl) as H.
  cbv zeta in H.
  destruct H as (Ht & Hr & _ & He & Hd & Hc & _ & Hu & _).
  cbv zeta. rewrite Hr, Ht, He, Hd, Hc, Hu. vm_compute. repeat split.
Defined.


End DispatchLaws.

(** ** The create-only routines *)

Module LegacyLaws.
Import JsString JsNumber Normalizer Reconcile Dispatch Schedule Shape Legacy.
Import DispatchSpec ScheduleLaws DispatchLaws MatcherLaws.

Section WithApi.
Context {api : CatalogApi}.

Lemma sequentialCreate_counts dry st row :
  let st' := sequentialCreate dry st row in
  (created (results st') + errors (results st') =
     S (created (results st) + errors (results st)))%nat /\
  updated (results st') = updated (results st) /\
  skipped (results st') = skipped (results st) /\
  (dry = true ->
     created (results st') = S (created (results st)) /\
     errors (results st') = errors (results st) /\
     createdProducts (results st') = createdProducts (results st) /\
     requests_issued (trace st') = requests_issued (trace st)).
Proof.
  cbv zeta. unfold sequentialCreate. destruct dry.
  - cbn. repeat split; try lia. rewrite requests_app. cbn. now rewrite app_nil_r.
  - destruct (createProduct _ _); cbn; repeat split; try lia; discriminate.
Qed.

Lemma processBatchSequential_counts dry batch : forall st,
  let st' := processBatchSequential batch st dry in
  (created (results st') + errors (results st') =
     created (results st) + errors (results st) + length batch)%nat /\
  updated (results st') = updated (results st) /\
  skipped (results st') = skipped (results st) /\
  (dry = true ->
     created (results st') = (created (results st) + length batch)%nat /\
     errors (results st') = errors (results st) /\
     createdProducts (results st') = createdProducts (results st) /\
     requests_issued (trace st') = requests_issued (trace st)).
Proof.
  unfold processBatchSequential.
  induction batch as [|row batch IH]; intros st; cbv zeta; cbn [foldl length].
  - repeat split; auto; lia.
  - destruct (sequentialCreate_counts dry st row) as (A1 & U1 & S1 & D1).
    destruct (IH (sequentialCreate dry st row)) as (A2 & U2 & S2 & D2).
    split; [lia|]. split; [congruence|]. split; [congruence|].
    intros Hd. destruct (D1 Hd) as (a & b & c & d), (D2 Hd) as (a' & b' & c' & d').
    repeat split; try congruence; lia.
Qed.

Lemma startCreates_spec dry batch : forall promises history,
  exists settled history',
    foldl (fun '(promises, h) csvItem =>
             let '(p, h') := startCreate dry csvItem h in (promises ++ [p], h'))
          (promises, history) batch
      = (promises ++ settled, history') /\
    Forall2 (fun (_ : gmap string string) p =>
               match p with
               | legacy_fulfilled (legacy_succeeded t _) =>
                   if dry then t = dry_run_ else t = legacy_created_
               | legacy_fulfilled (legacy_failed _) => dry = false
               | legacy_rejected _ => False
               end) batch settled /\
    (dry = true -> history' = history).
Proof.
  induction batch as [|row batch IH]; intros promises history; cbn [foldl].
  - exists [], history. rewrite app_nil_r. repeat split; auto.
  - destruct (startCreate dry row history) as [p h1] eqn:E.
    destruct (IH (promises ++ [p]) h1) as (settled & h2 & Hrun & Hall & Hh).
    exists (p :: settled), h2. rewrite Hrun, <- app_assoc.
    split; [reflexivity|]. split.
    + constructor; [|exact Hall]. unfold startCreate in E. destruct dry.
      * injection E as <- _. reflexivity.
      * destruct (createProduct _ _); injection E as <- _; reflexivity.
    + intros Hd. rewrite (Hh Hd). unfold startCreate in E. rewrite Hd in E.
      now injection E as _ <-.
Qed.

Lemma tallyCreate_counts (dry : bool) (batch : list (gmap string string))
    (settled : list LegacySettled) :
  Forall2 (fun (_ : gmap string string) (p : LegacySettled) =>
             match p with
             | legacy_fulfilled (legacy_succeeded t _) =>
                 if dry then t = dry_run_ else t = legacy_created_
             | legacy_fulfilled (legacy_failed _) => dry = false
             | legacy_rejected _ => False
             end) batch settled ->
  forall r,
    let r' := foldl tallyCreate r (zip batch settled) in
    (created r' + errors r' = created r + errors r + length batch)%nat /\
    updated r' = updated r /\ skipped r' = skipped r /\
    (dry = true ->
       created r' = (created r + length batch)%nat /\ errors r' = errors r /\
       createdProducts r' = createdProducts r).
Proof.
  induction 1 as [|row p batch settled Hp _ IH]; intros r; cbv zeta.
  - cbn. repeat split; auto; lia.
  - cbn [zip zip_with foldl length].
    destruct (IH (tallyCreate r (row, p))) as (A & U & S & D).
    unfold tallyCreate in *. cbn [snd fst] in *.
    destruct p as [[t product | detail] | message]; [| |contradiction].
    + destruct dry; subst t; cbn in *.
      * split; [lia|]. split; [congruence|]. split; [congruence|].
        intros _. destruct (D eq_refl) as (a & b & c). repeat split; try congruence; lia.
      * split; [lia|]. split; [congruence|]. split; [congruence|]. discriminate.
    + subst dry. cbn in *.
      split; [lia|]. split; [congruence|]. split; [congruence|]. discriminate.
Qed.

(** X16: both create-only batch routines count every row of the batch
    once, as created or as an error, also in a dry run: there each row is
    counted as created although no request is issued and no product is
    listed. *)
Theorem legacy_batches_count_every_row
    (batch : list (gmap string string)) (st : Run) (dry parallel : bool) :
  let st' := if parallel then processBatchParallel batch st dry
             else processBatchSequential batch st dry in
  (created (results st') + errors (results st') =
     created (results st) + errors (results st) + length batch)%nat /\
  updated (results st') = updated (results st) /\
  skipped (results st') = skipped (results st) /\
  (dry = true ->
     created (results st') = (created (results st) + length batch)%nat /\
     errors (results st') = errors (results st) /\
     createdProducts (results st') = createdProducts (results st) /\
     requests_issued (trace st') = requests_issued (trace st)).
Proof.
  cbv zeta. destruct parallel; [|apply processBatchSequential_counts].
  unfold processBatchParallel, startCreates.
  destruct (startCreates_spec dry batch [] (trace st))
    as (settled & h' & -> & Hall & Hh).
  cbn [app results trace].
  destruct (tallyCreate_counts dry batch settled Hall (results st)) as (A & U & S & D).
  split; [exact A|]. split; [exact U|]. split; [exact S|].
  intros Hd. destruct (D Hd) as (a & b & c). rewrite (Hh Hd). auto.
Qed.

Lemma create_item_effect dry history item :
  is_create item = true ->
  let out := processItem item dry history in
  Forall (fun e => is_update_request e = false) history ->
  Forall (fun e => is_update_request e = false) out.2 /\
  match out.1 with
  | inl value => type value = created_ \/ type value = dry_run_create
  | inr _ => True
  end.
Proof.
  destruct item as [c | c e ch]; [|discriminate]. intros _. cbv zeta.
  cbn [processItem]. unfold processCreateItem. intros Htr.
  destruct dry; [cbn; auto|].
  destruct (createProduct _ _); cbn [fst snd]; (split; [|auto]);
    apply Forall_app; split; auto.
Qed.

Lemma tally_create value r :
  type value = created_ \/ type value = dry_run_create ->
  updated (tally value r) = updated r /\ updatedProducts (tally value r) = updatedProducts r.
Proof. unfold tally. intros [-> | ->]; auto. Qed.

(** A batch of create items issues no update request and updates nothing. *)
Lemma processBatch_creates o batch st :
  Forall (fun item => is_create item = true) batch ->
  Forall (fun e => is_update_request e = false) (trace st) ->
  let st' := processBatch o batch st in
  Forall (fun e => is_update_request e = false) (trace st') /\
  updated (results st') = updated (results st) /\
  updatedProducts (results st') = updatedProducts (results st).
Proof.
  intros Hb Ht. cbv zeta. unfold processBatch.
  destruct (parallelBatch o && negb (dryRun o)).
  - unfold processBatchParallelWithUpdates, startAll.
    assert (H : forall (promises : list Settled) h,
              Forall (fun e => is_update_request e = false) h ->
              let out := foldl (fun '(promises, h) item =>
                   match processItem item (dryRun o) h with
                   | (inl result, h') => (promises ++ [fulfilled (succeeded result)], h')
                   | (inr message, h') =>
                       (promises ++ [fulfilled (failed {| csvItem := identifier item;
                                                          error := message |})], h')
                   end) (promises, h) batch in
              Forall (fun e => is_update_request e = false) out.2 /\
              exists settled,
                out.1 = promises ++ settled /\
                Forall2 (fun (_ : Item) p =>
                           match p with
                           | fulfilled (succeeded value) =>
                               type value = created_ \/ type value = dry_run_create
                           | _ => True
                           end) batch settled).
    { clear st Ht. induction Hb as [|item batch Hi _ IH]; intros promises h Hh;
        cbv zeta; cbn [foldl].
      - split; [exact Hh|]. exists []. rewrite app_nil_r. split; [reflexivity|constructor].
      - destruct (create_item_effect (dryRun o) h item Hi Hh) as (Hh' & Hv).
        destruct (processItem item (dryRun o) h) as [[value | message] h1];
          cbn [fst snd] in Hh', Hv.
        + destruct (IH (promises ++ [fulfilled (succeeded value)]) h1 Hh')
            as (Hout & settled & Hs & Hall).
          split; [exact Hout|]. exists (fulfilled (succeeded value) :: settled).
          rewrite Hs, <- app_assoc. split; [reflexivity|]. constructor; assumption.
        + destruct (IH (promises ++ [fulfilled (failed {| csvItem := identifier item;
                                                          error := message |})]) h1 Hh')
            as (Hout & settled & Hs & Hall).
          split; [exact Hout|]. eexists (_ :: settled).
          rewrite Hs, <- app_assoc. split; [reflexivity|]. constructor; auto. }
    destruct (H [] (trace st) Ht) as (Hout & settled & Hs & Hall).
    destruct (foldl _ _ batch) as [promises h']. cbn [fst snd app] in Hout, Hs. subst promises.
    cbn [results trace]. split; [exact Hout|].
    clear - Hall. generalize (results st). induction Hall as [|item p batch settled Hp _ IH];
      intros r; [auto|]. cbn [zip zip_with foldl].
    destruct (IH (tallySettled r (item, p))) as (-> & ->).
    unfold tallySettled. cbn [snd fst].
    destruct p as [[value | detail] | message]; [apply tally_create, Hp | auto | auto].
  - unfold processBatchSequentialWithUpdates. revert st Ht.
    induction Hb as [|item batch Hi _ IH]; intros st Ht; cbn [foldl]; [auto|].
    destruct (create_item_effect (dryRun o) (trace st) item Hi Ht) as (Hh' & Hv).
    assert (Hstep : Forall (fun e => is_update_request e = false)
                           (trace (sequentialItem (dryRun o) st item)) /\
                    updated (results (sequentialItem (dryRun o) st item))
                      = updated (results st) /\
                    updatedProducts (results (sequentialItem (dryRun o) st item))
                      = updatedProducts (results st)).
    { unfold sequentialItem.
      destruct (processItem item (dryRun o) (trace st)) as [[value | message] h1];
        cbn [fst snd results trace] in *.
      - split; [apply Forall_app; split; [exact Hh'|repeat constructor]|].
        apply tally_create, Hv.
      - auto. }
    destruct Hstep as (T1 & U1 & P1).
    destruct (IH _ T1) as (T2 & U2 & P2). split; [exact T2|]. split; congruence.
Qed.

Lemma changeset_legacy csvData shopifyProducts o :
  changeset csvData shopifyProducts (legacyOptions o) =
    create <$> List.filter (unmatched (indexBySku shopifyProducts)
                                      (indexByTitle shopifyProducts)) csvData.
Proof.
  unfold changeset. change (enableUpdates (legacyOptions o)) with false.
  assert (Hfold : categorizeProducts csvData (indexBySku shopifyProducts)
                    (indexByTitle shopifyProducts) false =
                  (create <$> List.filter (unmatched (indexBySku shopifyProducts)
                                             (indexByTitle shopifyProducts)) csvData,
                   omap (update_for (indexBySku shopifyProducts)
                                    (indexByTitle shopifyProducts) false) csvData))
    by exact (categorize_fold csvData _ _ false [] []).
  rewrite Hfold.
  assert (H : forall rows, omap (update_for (indexBySku shopifyProducts)
                                            (indexByTitle shopifyProducts) false) rows = []).
  { induction rows as [|c rows IH]; [reflexivity|].
    rewrite omap_cons. unfold update_for at 1.
    destruct (findExisting _ _ c); exact IH. }
  rewrite H. apply app_nil_r.
Qed.

(** X17: [createProductsFromCSV] only ever creates.  Its changeset holds
    one create item for each row without a match, in feed order, and no
    update item; with a positive batch size the run ends without a single
    update request, with [updated] at zero and no updated product listed,
    whatever the options say about updates. *)
Theorem createProductsFromCSV_only_creates
    (csvData : list (gmap string string)) (shopifyProducts : list ExistingProduct)
    (o : Options) :
  1 <= batchSize o ->
  changeset csvData shopifyProducts (legacyOptions o) =
    create <$> List.filter (unmatched (indexBySku shopifyProducts)
                                      (indexByTitle shopifyProducts)) csvData /\
  exists st',
    createProductsFromCSV csvData shopifyProducts o = Some st' /\
    Forall (fun e => is_update_request e = false) (trace st') /\
    updated (results st') = 0%nat /\ updatedProducts (results st') = [].
Proof.
  intros Hb. split; [apply changeset_legacy|].
  unfold createProductsFromCSV, processProductsFromCSV, dispatch.
  set (all := changeset csvData shopifyProducts (legacyOptions o)).
  assert (Hall : Forall (fun item => is_create item = true) all).
  { subst all. rewrite changeset_legacy. apply Forall_fmap, Forall_forall. reflexivity. }
  destruct (batchLoop_invariant (legacyOptions o) all
              (fun _ st =>
                 Forall (fun e => is_update_request e = false) (trace st) /\
                 updated (results st) = 0%nat /\ updatedProducts (results st) = [])
              Hb) with (fuel := S (length all)) (i := 0)
              (st := {| results := initialResults (length csvData); trace := [] |})
    as (st' & i' & Hrun & HP & _).
  - intros i st Hi (HT & HU & HL). unfold batchStep.
    set (batch := slice i (i + batchSize (legacyOptions o)) all).
    destruct (processBatch_creates (legacyOptions o) batch
                (announce (BatchStart (length batch)) st))
      as (T & U & L).
    + subst batch. apply Forall_slice, Hall.
    + cbn [announce trace]. apply Forall_app. split; [exact HT|]. repeat constructor.
    + cbn [announce results] in U, L.
      destruct (_ <? _); cbn [announce results trace].
      * split; [apply Forall_app; split; [exact T|repeat constructor]|].
        split; congruence.
      * split; [exact T|]. split; congruence.
  - lia.
  - apply dispatch_fuel, Hb.
  - cbn. repeat split; constructor.
  - exists st'. split; [exact Hrun|]. exact HP.
Qed.

End WithApi.

Lemma createProductsFromCSV_only_creates_witness :
  exists st',
    @createProductsFromCSV Scenarios.flaky Scenarios.feed Scenarios.snapshot
      Scenarios.live_options = Some st' /\
    updated (results st') = 0%nat.
Proof.
  destruct (@createProductsFromCSV_only_creates Scenarios.flaky Scenarios.feed
              Scenarios.snapshot Scenarios.live_options ltac:(cbn; lia))
    as (_ & st' & H1 & _ & H2 & _).
  exists st'. auto.
Defined.

End LegacyLaws.

(** ** Downloads: the size check and the retries *)

Module DownloadLaws.
Import JsString Transfer Retry TransferSpec.

(** X18: [downloadFile] returns the local path exactly when the stream ends
    without an error, leaves a file at the destination, and that file is
    within 1024 bytes of the size the listing announced; a size that the
    listing does not give (or gives as zero) is not checked at all.  The
    destination then holds the bytes written.  A stream that ends without
    an error and without a file is reported as a file not found, also when
    a file was there before the download began. *)
Theorem downloadFile_succeeds_iff
    (a : Attempt) (remoteFilePath localFilePath : string) (fs : gmap string string) :
  let out := downloadFile a remoteFilePath localFilePath fs in
  let expected := remoteFileSize a remoteFilePath in
  (out.2 = inl localFilePath <->
     streamError a = None /\
     exists bytes, written a = Some bytes /\
       (expected <= 0 \/ Z.abs (Z.of_nat (String.length bytes) - expected) <= 1024)) /\
  (forall path, out.2 = inl path ->
     path = localFilePath /\ out.1 !! localFilePath = written a) /\
  (streamError a = None -> written a = None -> out.2 = inr NotFoundLocally).
Proof.
  cbv zeta. unfold downloadFile, tryDownload, downloadWithProgress.
  pose proof (createBackup_lookup localFilePath fs localFilePath) as Hb.
  rewrite decide_True in Hb by reflexivity.
  set (fs0 := createBackup localFilePath fs) in *.
  destruct (streamError a) as [message|]; cbn [fmap option_fmap option_map].
  { split; [|split]; [split|..]; cbn [fst snd]; try discriminate.
    intros [[=] _]. }
  destruct (written a) as [bytes|].
  - rewrite lookup_insert_eq.
    destruct ((0 <? remoteFileSize a remoteFilePath) &&
              (1024 <? Z.abs (Z.of_nat (String.length bytes) -
                              remoteFileSize a remoteFilePath))) eqn:E; cbn [fst snd].
    + apply andb_true_iff in E as [E1 E2]. apply Z.ltb_lt in E1, E2.
      split; [|split]; [split|..]; try discriminate.
      intros (_ & bytes' & [= <-] & H). lia.
    + apply andb_false_iff in E.
      assert (Hlook : (if existsSync (<[localFilePath:=bytes]> fs0) (backupPath localFilePath)
                       then unlinkSync (backupPath localFilePath)
                                       (<[localFilePath:=bytes]> fs0)
                       else <[localFilePath:=bytes]> fs0) !! localFilePath = Some bytes).
      { destruct (existsSync _ _); unfold unlinkSync;
          rewrite ?lookup_delete_ne by apply backupPath_ne; apply lookup_insert_eq. }
      split; [|split]; [split|..]; try discriminate.
      * intros _. split; [reflexivity|]. exists bytes. split; [reflexivity|].
        destruct E as [E | E]; [apply Z.ltb_ge in E | apply Z.ltb_ge in E]; lia.
      * reflexivity.
      * intros path [= <-]. auto.
  - rewrite Hb. cbn [fst snd].
    split; [|split]; [split|..]; try discriminate; auto.
    intros (_ & bytes & [=] & _).
Qed.

Lemma chars_append a b : chars (a +:+ b) = chars a ++ chars b.
Proof.
  induction a as [|x a IH]; [reflexivity|].
  change (chars (String x a +:+ b)) with (x :: chars (a +:+ b)). now rewrite IH.
Qed.

Lemma endsWith_backupPath q : endsWith (chars (backupPath q)) (chars ".backup") = true.
Proof.
  unfold endsWith, backupPath. apply bool_decide_eq_true.
  rewrite chars_append, length_app.
  replace (length (chars q) + length (chars ".backup") - length (chars ".backup"))%nat
    with (length (chars q)) by lia.
  now rewrite drop_app_length.
Qed.

Section WithPath.
Variable join : string -> string -> string.

Lemma attemptOnce_keeps (t : Try) (localDir : string) (fs : gmap string string)
    (p c : string) :
  (forall q, p <> backupPath q) -> fs !! p = Some c ->
  let out := attemptOnce join t localDir fs in
  (forall e, out.2 = inr e -> out.1 !! p = Some c) /\
  (forall path, out.2 = inl path -> path = p \/ out.1 !! p = Some c).
Proof.
  intros Hnb Hp. cbv zeta. unfold attemptOnce.
  destruct (listed t) as [fileList | message]; [|cbn; split; [auto|discriminate]].
  destruct (getLatestCSVFile fileList) as [latestFile | []];
    [|cbn; split; [auto|discriminate]].
  set (localFilePath := join localDir (name latestFile)).
  pose proof (downloadFile_effect (transfer t) (name latestFile) localFilePath fs) as H.
  cbv zeta in H. destruct H as (_ & Hres & _ & _ & Hother).
  destruct (downloadFile (transfer t) (name latestFile) localFilePath fs)
    as [fs' [path | e]]; cbn [fst snd] in *.
  - split; [discriminate|]. intros path' [= <-].
    destruct Hres as (-> & _). destruct (decide (localFilePath = p)); [now left|].
    right. rewrite Hother; auto.
  - split; [|discriminate]. intros _ _. destruct Hres as (_ & Hl).
    destruct (decide (p = localFilePath)) as [-> | Hne].
    + rewrite Hl, Hp. reflexivity.
    + rewrite Hother; auto.
Qed.

Lemma retryLoop_keeps tries localDir (p c : string) :
  (forall q, p <> backupPath q) ->
  forall remaining attempt fs events,
    fs !! p = Some c ->
    let out := retryLoop join tries localDir remaining attempt fs events in
    disk out !! p = Some c \/ answer out = Some (inl p).
Proof.
  intros Hnb. induction remaining as [|remaining IH]; intros attempt fs events Hp; cbv zeta.
  - left. exact Hp.
  - cbn [retryLoop].
    destruct (attemptOnce_keeps (tries (S attempt)) localDir fs p c Hnb Hp) as (He & Hs).
    destruct (attemptOnce join (tries (S attempt)) localDir fs) as [fs' [path | e]];
      cbn [fst snd disk answer] in *.
    + destruct (Hs path eq_refl) as [-> | H]; auto.
    + specialize (He e eq_refl). destruct remaining; [left; exact He|].
      apply IH, He.
Qed.

(** X19: a file that is on the local disk before [downloadLatestCSV] runs,
    and that is not a [.backup] sibling, is never lost: after the call,
    however many attempts failed and whatever they targeted, the file is
    still there with its content, unless it is the very file that the call
    returns as freshly downloaded. *)
Theorem downloadLatestCSV_keeps_files
    (tries : nat -> Try) (localDir : string) (fs : gmap string string) (p c : string) :
  endsWith (chars p) (chars ".backup") = false -> fs !! p = Some c ->
  let out := downloadLatestCSV join tries localDir fs in
  disk out !! p = Some c \/ answer out = Some (inl p).
Proof.
  intros Hnb Hp. apply retryLoop_keeps; [|assumption].
  intros q ->. now rewrite endsWith_backupPath in Hnb.
Qed.

Lemma retryLoop_unfold tries localDir remaining attempt fs events :
  retryLoop join tries localDir (S remaining) attempt fs events =
    match attemptOnce join (tries (S attempt)) localDir fs with
    | (fs', inl path) =>
        {| disk := fs'; answer := Some (inl path); attempts := S attempt; log := events |}
    | (fs', inr e) =>
        match remaining with
        | O => {| disk := fs'; answer := Some (inr e); attempts := S attempt;
                  log := events |}
        | S _ => retryLoop join tries localDir remaining (S attempt) fs'
                           (events ++ [Sleep retryDelay; Reconnect])
        end
    end.
Proof. reflexivity. Qed.

Lemma retryLoop_shape tries localDir :
  forall remaining attempt fs events,
    let out := retryLoop join tries localDir (S remaining) attempt fs events in
    let step := fun d j => (attemptOnce join (tries j) localDir d).1 in
    let before := fun k => foldl step fs (seq (S attempt) (k - S attempt)) in
    (attempt < attempts out <= attempt + S remaining)%nat /\
    log out = events ++ mjoin (repeat [Sleep retryDelay; Reconnect]
                                   (attempts out - S attempt)) /\
    (disk out, answer out) =
      (let r := attemptOnce join (tries (attempts out)) localDir (before (attempts out)) in
       (r.1, Some r.2)) /\
    (forall k, (attempt < k < attempts out)%nat ->
       exists e, (attemptOnce join (tries k) localDir (before k)).2 = inr e) /\
    ((forall path, answer out <> Some (inl path)) ->
       attempts out = (attempt + S remaining)%nat).
Proof.
  induction remaining as [|remaining IH]; intros attempt fs events; cbv zeta.
  - cbn [retryLoop].
    destruct (attemptOnce join (tries (S attempt)) localDir fs) as [fs' [path | e]] eqn:E;
      cbn [attempts log disk answer].
    + rewrite Nat.sub_diag. cbn [seq foldl repeat mjoin list_join]. rewrite E, app_nil_r.
      repeat split; auto; try lia; try (intros H; now destruct (H path)).
    + rewrite Nat.sub_diag. cbn [seq foldl repeat mjoin list_join]. rewrite E, app_nil_r.
      repeat split; auto; try lia.
  - rewrite retryLoop_unfold.
    destruct (attemptOnce join (tries (S attempt)) localDir fs) as [fs' [path | e]] eqn:E.
    + cbn [attempts log disk answer].
      rewrite Nat.sub_diag. cbn [seq foldl repeat mjoin list_join]. rewrite E, app_nil_r.
      repeat split; auto; try lia; try (intros H; now destruct (H path)).
    + specialize (IH (S attempt) fs' (events ++ [Sleep retryDelay; Reconnect])).
      cbv zeta in IH. destruct IH as (Hn & Hlog & Hans & Hfail & Hlast).
      set (out := retryLoop join tries localDir (S remaining) (S attempt) fs'
                            (events ++ [Sleep retryDelay; Reconnect])) in *.
      assert (Hseq : forall k, (S attempt < k)%nat ->
                foldl (fun d j => (attemptOnce join (tries j) localDir d).1) fs
                      (seq (S attempt) (k - S attempt)) =
                foldl (fun d j => (attemptOnce join (tries j) localDir d).1) fs'
                      (seq (S (S attempt)) (k - S (S attempt)))).
      { intros k Hk. replace (k - S attempt)%nat with (S (k - S (S attempt))) by lia.
        cbn [seq foldl]. now rewrite E. }
      split; [lia|]. split; [|split; [|split]].
      * rewrite Hlog, <- app_assoc. f_equal.
        replace (attempts out - S attempt)%nat with (S (attempts out - S (S attempt)))
          by lia.
        reflexivity.
      * rewrite Hans, Hseq by lia. reflexivity.
      * intros k Hk. destruct (decide (k = S attempt)) as [-> | Hne].
        -- rewrite Nat.sub_diag. cbn [seq foldl]. rewrite E. eauto.
        -- rewrite Hseq by lia. apply Hfail. lia.
      * intros H. rewrite (Hlast H). lia.
Qed.

(** X20: [downloadLatestCSV] makes at least one and at most ten attempts,
    each on the disk as the failed attempts before it left it, with a pause
    of five seconds and a reconnection between two attempts.  It stops at
    the first attempt that succeeds and returns its path; only when all
    ten attempts have failed does it fail, with the error of the tenth. *)
Theorem downloadLatestCSV_attempts
    (tries : nat -> Try) (localDir : string) (fs : gmap string string) :
  let out := downloadLatestCSV join tries localDir fs in
  let last := attemptOnce join (tries (attempts out)) localDir
                (diskBefore join tries localDir fs (attempts out)) in
  (1 <= attempts out <= 10)%nat /\
  log out = mjoin (repeat [Sleep 5000; Reconnect] (attempts out - 1)) /\
  disk out = last.1 /\ answer out = Some last.2 /\
  (forall k, (1 <= k < attempts out)%nat ->
     exists e, (attemptOnce join (tries k) localDir
                  (diskBefore join tries localDir fs k)).2 = inr e) /\
  ((forall path, answer out <> Some (inl path)) -> attempts out = 10%nat).
Proof.
  cbv zeta. unfold downloadLatestCSV, maxRetries, diskBefore.
  destruct (retryLoop_shape tries localDir 9 0 fs []) as (Hn & Hlog & Hans & Hfail & Hlast).
  cbv zeta in Hans. injection Hans as Hd Ha.
  split; [lia|]. split; [exact Hlog|]. split; [exact Hd|]. split; [exact Ha|].
  split; [|exact Hlast]. intros k Hk. apply Hfail. lia.
Qed.

End WithPath.

Lemma downloadLatestCSV_keeps_files_witness :
  let fs : gmap string string := {[ "downloads/Extract.csv" := "old feed" ]} in
  let out := downloadLatestCSV Fixtures.slash_join
               (fun _ => {| listed := inl Fixtures.one_file;
                            transfer := Fixtures.broken |})
               "downloads" fs in
  disk out !! "downloads/Extract.csv" = Some "old feed" \/
  answer out = Some (inl "downloads/Extract.csv").
Proof.
  apply (downloadLatestCSV_keeps_files Fixtures.slash_join
           (fun _ => {| listed := inl Fixtures.one_file; transfer := Fixtures.broken |})
           "downloads" {[ "downloads/Extract.csv" := "old feed" ]}
           "downloads/Extract.csv" "old feed"); reflexivity.
Defined.

End DownloadLaws.

(** ** Paging through the catalog *)

Module PaginationLaws.
Import JsString Reconcile Pagination JsStringFacts.

Lemma starts_with_spec p : forall s,
  starts_with p s = true <-> exists b, s = p ++ b.
Proof.
  induction p as [|a p IH]; intros s; cbn.
  - split; eauto.
  - destruct s as [|c s]; [split; [discriminate | intros (b & [=])]|].
    rewrite andb_true_iff, IH. split.
    + intros (Ha & b & ->). apply Ascii.eqb_eq in Ha. subst. eauto.
    + intros (b & [= -> ->]). split; [apply Ascii.eqb_refl | eauto].
Qed.

Lemma includes_spec pat : forall s,
  includes s pat = true <-> exists a b, s = a ++ pat ++ b.
Proof.
  induction s as [|c s IH]; cbn [includes]; rewrite orb_true_iff, starts_with_spec.
  - split.
    + intros [(b & H) | [=]]. exists [], b. exact H.
    + intros ([|x a] & b & H); [left; eauto | discriminate].
  - rewrite IH. split.
    + intros [(b & H) | (a & b & ->)]; [exists [], b; exact H|].
      exists (c :: a), b. reflexivity.
    + intros ([|x a] & b & H); [left; eauto|].
      injection H as -> ->. right. eauto.
Qed.

Lemma split_single sep s :
  Forall (fun c => c <> sep) s -> split sep s = [s].
Proof.
  induction 1 as [|c s Hc _ IH]; [reflexivity|]. cbn [split].
  apply Ascii.eqb_neq in Hc. rewrite Hc, IH. reflexivity.
Qed.

Lemma split_app sep a b :
  Forall (fun c => c <> sep) a -> split sep (a ++ sep :: b) = a :: split sep b.
Proof.
  induction 1 as [|c s Hc _ IH]; cbn [split app].
  - now rewrite Ascii.eqb_refl.
  - apply Ascii.eqb_neq in Hc. rewrite Hc, IH. reflexivity.
Qed.

Lemma split_shape sep : forall s,
  exists first rest,
    split sep s = first :: rest /\ (exists b, s = first ++ b) /\
    forall piece, piece ∈ rest -> exists a b, s = a ++ piece ++ b.
Proof.
  induction s as [|c s (first & rest & E & (b0 & Hb0) & Hrest)]; cbn [split].
  - exists [], []. split; [reflexivity|]. split; [exists []; reflexivity|].
    intros piece H. now apply elem_of_nil in H.
  - rewrite E. destruct (Ascii.eqb c sep).
    + exists [], (first :: rest). split; [reflexivity|]. split; [eauto|].
      intros piece H. apply elem_of_cons in H as [-> | H].
      * exists [c], b0. cbn. now rewrite Hb0.
      * destruct (Hrest _ H) as (a & b & ->). exists (c :: a), b. reflexivity.
    + exists (c :: first), rest. split; [reflexivity|]. split.
      * exists b0. cbn. now rewrite Hb0.
      * intros piece H. destruct (Hrest _ H) as (a & b & ->).
        exists (c :: a), b. reflexivity.
Qed.

Lemma split_infix sep s piece :
  piece ∈ split sep s -> exists a b, s = a ++ piece ++ b.
Proof.
  destruct (split_shape sep s) as (first & rest & -> & (b0 & Hb0) & Hrest).
  intros H. apply elem_of_cons in H as [-> | H]; [|auto].
  exists [], b0. exact Hb0.
Qed.

Lemma includes_infix s piece pat :
  (exists a b, s = a ++ piece ++ b) -> includes piece pat = true ->
  includes s pat = true.
Proof.
  intros (a & b & ->). rewrite !includes_spec. intros (a' & b' & ->).
  exists (a ++ a'), (b' ++ b). now rewrite <- !app_assoc.
Qed.

Lemma span_until_stop stop run rest :
  Forall (fun c => c <> stop) run ->
  span_until stop (run ++ stop :: rest) = (run, stop :: rest).
Proof.
  induction 1 as [|c run Hc _ IH]; cbn [span_until app].
  - now rewrite Ascii.eqb_refl.
  - apply Ascii.eqb_neq in Hc. rewrite Hc, IH. reflexivity.
Qed.

Lemma match_bracketed_first pre url post :
  Forall (fun c => c <> "<"%char) pre -> url <> [] ->
  Forall (fun c => c <> ">"%char) url ->
  match_bracketed (pre ++ "<"%char :: url ++ ">"%char :: post) = Some url.
Proof.
  intros Hpre Hne Hurl. induction Hpre as [|c pre Hc _ IH]; cbn [app match_bracketed].
  - change (Ascii.eqb "<" "<") with true. cbn iota.
    rewrite span_until_stop by exact Hurl.
    destruct url as [|d url]; [contradiction|reflexivity].
  - apply Ascii.eqb_neq in Hc. rewrite Hc. exact IH.
Qed.

Lemma str_nonempty l : l <> [] -> truthy (Some (str l)) = true.
Proof.
  intros H. cbn. destruct (String.eqb_spec (str l) ""); [|reflexivity].
  apply str_empty in e. contradiction.
Qed.

Lemma find_first {A} (f : A -> bool) skipped x rest :
  Forall (fun y => f y = false) skipped -> f x = true ->
  List.find f (skipped ++ x :: rest) = Some x.
Proof.
  intros Hs Hx. induction Hs as [|y skipped Hy _ IH]; cbn [app List.find].
  - now rewrite Hx.
  - now rewrite Hy.
Qed.

(** The text [>; rel="next"] that closes a next link. *)
Lemma next_link_includes pre url :
  includes (pre ++ "<"%char :: url ++ chars ">; " ++ rel_next) rel_next = true.
Proof.
  apply includes_spec. exists (pre ++ "<"%char :: url ++ chars ">; "), [].
  rewrite app_nil_r, <- !app_assoc. cbn [app]. now rewrite <- !app_assoc.
Qed.

(** X21: the next-page URL is read back from a [Link] header.  From a
    header that consists of the next link alone, and from one where the
    next link follows other links (separated by a comma and a space), the
    URL between the angle brackets is returned, provided it is not empty
    and holds no [>] and no comma, and no earlier link mentions
    [rel="next"]; from a header that does not mention [rel="next"], or
    from no header at all, nothing is returned. *)
Theorem extractNextPageUrl_round_trip (url : list ascii) :
  url <> [] -> Forall (fun c => c <> ">"%char /\ c <> ","%char) url ->
  extractNextPageUrl (Some (str ("<"%char :: url ++ chars ">; " ++ rel_next)))
    = Some (str url) /\
  (forall earlier : list (list ascii),
     Forall (fun link => Forall (fun c => c <> ","%char) link /\
                         includes link rel_next = false) earlier ->
     extractNextPageUrl
       (Some (str (join (chars ",") (earlier ++
                    [" "%char :: "<"%char :: url ++ chars ">; " ++ rel_next]))))
       = Some (str url)) /\
  (forall header, includes (chars header) rel_next = false ->
                  extractNextPageUrl (Some header) = None) /\
  extractNextPageUrl None = None.
Proof.
  intros Hne Hurl.
  assert (Hgt : Forall (fun c => c <> ">"%char) url)
    by (eapply Forall_impl; [exact Hurl|]; intros c [? ?]; assumption).
  assert (Hcomma : Forall (fun c => c <> ","%char) url)
    by (eapply Forall_impl; [exact Hurl|]; intros c [? ?]; assumption).
  assert (Htail : Forall (fun c => c <> ","%char) (chars ">; " ++ rel_next))
    by (repeat constructor; discriminate).
  split; [|split; [|split; [|reflexivity]]].
  - unfold extractNextPageUrl. rewrite str_nonempty by discriminate.
    rewrite chars_str, split_single.
    + cbn [List.find].
      rewrite (next_link_includes [] url
                 : includes ("<"%char :: url ++ chars ">; " ++ rel_next) rel_next = true).
      change (chars ">; " ++ rel_next) with (">"%char :: chars "; " ++ rel_next).
      cbn [fmap option_fmap option_map].
      now rewrite (match_bracketed_first [] url (chars "; " ++ rel_next)
                     ltac:(constructor) Hne Hgt
                   : match_bracketed ("<"%char :: url ++ ">"%char :: chars "; " ++ rel_next)
                     = Some url).
    + constructor; [discriminate|]. apply Forall_app. auto.
  - intros earlier Hearlier. unfold extractNextPageUrl.
    set (link := " "%char :: "<"%char :: url ++ chars ">; " ++ rel_next).
    assert (Hlink : Forall (fun c => c <> ","%char) link).
    { subst link. constructor; [discriminate|]. constructor; [discriminate|].
      apply Forall_app. auto. }
    assert (Hsplit : split ","%char (join (chars ",") (earlier ++ [link]))
                     = earlier ++ [link]).
    { clear - Hearlier Hlink. induction Hearlier as [|first rest [Hf _] _ IH].
      - cbn [app join]. apply split_single, Hlink.
      - cbn [app join]. destruct (rest ++ [link]) as [|next more] eqn:E.
        + destruct rest; discriminate.
        + rewrite (split_app ","%char first (join (chars ",") (next :: more)) Hf
                   : split ","%char (first ++ chars "," ++ join (chars ",") (next :: more))
                     = first :: split ","%char (join (chars ",") (next :: more))).
          now rewrite IH. }
    assert (Hjoin : join (chars ",") (earlier ++ [link]) <> []).
    { intros H. rewrite H in Hsplit. cbn in Hsplit.
      destruct earlier as [|a [|b earlier]]; discriminate. }
    rewrite str_nonempty by exact Hjoin. rewrite chars_str, Hsplit.
    rewrite (find_first _ earlier link []).
    + subst link. cbn [fmap option_fmap option_map].
      change (chars ">; " ++ rel_next) with (">"%char :: chars "; " ++ rel_next).
      now rewrite (match_bracketed_first [" "%char] url (chars "; " ++ rel_next)
                     ltac:(repeat constructor; discriminate) Hne Hgt
                   : match_bracketed (" "%char :: "<"%char :: url ++
                                      ">"%char :: chars "; " ++ rel_next) = Some url).
    + eapply Forall_impl; [exact Hearlier|]. intros l [_ ?]. assumption.
    + subst link. exact (next_link_includes [" "%char] url).
  - intros header Hno. unfold extractNextPageUrl.
    destruct (truthy (Some header)); [|reflexivity].
    destruct (List.find _ _) as [link|] eqn:E; [|reflexivity].
    apply List.find_some in E as [Hin Hinc].
    apply list_elem_of_In, split_infix in Hin.
    rewrite (includes_infix _ _ _ Hin Hinc) in Hno. discriminate.
Qed.

Lemma extractNextPageUrl_round_trip_witness :
  extractNextPageUrl
    (Some ("<https://shop.example/products.json?page_info=2>; rel=" +:+
           Normalizer.dquote +:+ "next" +:+ Normalizer.dquote))
    = Some "https://shop.example/products.json?page_info=2".
Proof.
  refine (proj1 (extractNextPageUrl_round_trip
                   (chars "https://shop.example/products.json?page_info=2") _ _)).
  - discriminate.
  - repeat (constructor; [split; discriminate|]). constructor.
Defined.

Lemma requested_app a b : requested (a ++ b) = requested a ++ requested b.
Proof. unfold requested. apply omap_app. Qed.

Section WithHttp.
Context {http : Http}.

Lemma pageLoop_walk : forall remaining n url products events,
  let out := pageLoop remaining n (Some url) products events in
  let steps := walk remaining n url in
  requested out.2 = requested events ++ steps.*1 /\
  out.1 = match first_error steps with
          | Some message => inr message
          | None => inl (products ++ concat (good_products <$> steps))
          end /\
  (length steps <= remaining)%nat /\
  Forall (fun step => exists response, step.2 = inl response) (removelast steps).
Proof.
  induction remaining as [|remaining IH]; intros n url products events; cbv zeta.
  - cbn. rewrite !app_nil_r. repeat split; auto.
  - cbn [pageLoop walk].
    change (truthy (Some url)) with (negb (String.eqb url "")).
    destruct (String.eqb url "") eqn:Eu; cbn [negb].
    { cbn. rewrite !app_nil_r. repeat split; auto. lia. }
    destruct (get (S n) url) as [response | message] eqn:Eg.
    + destruct (extractNextPageUrl (headers_link response)) as [next|] eqn:En.
      * specialize (IH (S n) next (products ++ data_products response)
                       (events ++ [Get url] ++
                        (if truthy (Some next) then [Wait 100] else []))).
        cbv zeta in IH. destruct IH as (Hreq & Hres & Hlen & Hgood).
        split; [|split; [|split]].
        -- rewrite Hreq, !requested_app. cbn [fmap list_fmap fst].
           destruct (truthy (Some next)); cbn; rewrite <- !app_assoc; reflexivity.
        -- rewrite Hres. unfold first_error.
           destruct (walk remaining (S n) next) as [|s ss] eqn:Ew.
           ++ cbn. rewrite ?Eg. cbn. now rewrite <- app_assoc.
           ++ change (last ((url, @inl Response string response) :: s :: ss)) with (last (s :: ss)).
              destruct (last (s :: ss)) as [[u [r | m]]|]; try reflexivity;
                cbn [fmap list_fmap concat]; unfold good_products at 2; cbn [snd];
                rewrite ?Eg, <- app_assoc; reflexivity.
        -- cbn [length]. lia.
        -- destruct (walk remaining (S n) next) as [|s ss] eqn:Ew; [constructor|].
           change (removelast ((url, @inl Response string response) :: s :: ss))
             with ((url, @inl Response string response) :: removelast (s :: ss)).
           constructor; [rewrite ?Eg; eauto | exact Hgood].
      * change (truthy None) with false. cbn [app].
        destruct remaining; cbn [pageLoop fst snd];
          rewrite requested_app; cbn; rewrite ?Eg; cbn; rewrite ?app_nil_r;
          repeat split; auto; lia.
    + cbn [fst snd]. rewrite requested_app. cbn. rewrite ?Eg. cbn.
      repeat split; auto. lia.
Qed.

Lemma walk_nonempty remaining n url :
  String.eqb url "" = false -> (1 <= length (walk (S remaining) n url))%nat.
Proof. intros H. cbn [walk]. rewrite H. cbn [length]. lia. Qed.

(** X22: [getAllProducts] starts at [products.json?limit=250] and follows
    the next links; it returns the products of all the pages it fetched, in
    page order, when every request succeeds, and fails with the error of a
    request that fails, giving up the pages fetched before it; it never
    issues more than 1000 requests. *)
Theorem getAllProducts_pages (baseURL : string) :
  let out := getAllProducts baseURL in
  let steps := walk 1000 0 (firstPage baseURL) in
  requested out.2 = steps.*1 /\
  (1 <= length steps <= 1000)%nat /\
  Forall (fun step => exists response, step.2 = inl response) (removelast steps) /\
  out.1 = match first_error steps with
          | Some message => inr message
          | None => inl (concat (good_products <$> steps))
          end.
Proof.
  cbv zeta. unfold getAllProducts.
  destruct (pageLoop_walk 1000 0 (firstPage baseURL) [] []) as (Hreq & Hres & Hlen & Hgood).
  cbv zeta in *. split; [exact Hreq|]. split; [|split; [exact Hgood | exact Hres]].
  split; [|exact Hlen].
  assert (Hne : String.eqb (firstPage baseURL) "" = false).
  { apply String.eqb_neq. unfold firstPage. intros H.
    apply (f_equal String.length) in H.
    rewrite TransferSpec.length_append_string in H. cbn in H. lia. }
  exact (walk_nonempty 999 0 (firstPage baseURL) Hne).
Qed.

Lemma pageLoop_endless : forall remaining n url products events,
  (forall k u, exists response next,
      get k u = inl response /\
      extractNextPageUrl (headers_link response) = Some next /\ next <> "") ->
  url <> "" ->
  let out := pageLoop remaining n (Some url) products events in
  (exists all, out.1 = inl all) /\
  length (requested out.2) = (length (requested events) + remaining)%nat.
Proof.
  induction remaining as [|remaining IH]; intros n url products events Hget Hurl; cbv zeta.
  - cbn [pageLoop fst snd]. split; [eauto|lia].
  - cbn [pageLoop]. change (truthy (Some url)) with (negb (String.eqb url "")).
    apply String.eqb_neq in Hurl. rewrite Hurl. cbn [negb].
    destruct (Hget (S n) url) as (response & next & -> & -> & Hnext).
    destruct (IH (S n) next (products ++ data_products response)
                 (events ++ [Get url] ++ (if truthy (Some next) then [Wait 100] else []))
                 Hget Hnext) as (Hall & Hlen).
    split; [exact Hall|]. rewrite Hlen, !requested_app, !length_app.
    destruct (truthy (Some next)); cbn; lia.
Qed.

(** X23: against a catalog whose every answer links to a further page
    the listing does not go on for ever and does not fail: after exactly
    1000 requests it returns what it has fetched, as if the catalog ended
    there. *)
Theorem getAllProducts_stops_at_limit (baseURL : string) :
  (forall k u, exists response next,
      get k u = inl response /\
      extractNextPageUrl (headers_link response) = Some next /\ next <> "") ->
  let out := getAllProducts baseURL in
  (exists products, out.1 = inl products) /\
  length (requested out.2) = 1000%nat.
Proof.
  intros Hget. cbv zeta. unfold getAllProducts.
  apply (pageLoop_endless 1000 0 (firstPage baseURL) [] [] Hget).
  unfold firstPage. intros H. apply (f_equal String.length) in H.
  rewrite TransferSpec.length_append_string in H. cbn in H. lia.
Qed.

End WithHttp.

Lemma getAllProducts_stops_at_limit_witness :
  length (requested (@getAllProducts Fixtures.endless "https://shop.example").2) = 1000%nat.
Proof.
  refine (proj2 (@getAllProducts_stops_at_limit Fixtures.endless "https://shop.example" _)).
  intros k u. eexists _, _. split; [reflexivity|]. split; [reflexivity|]. discriminate.
Defined.

End PaginationLaws.

(** ** Housekeeping of the download directory *)

Module RetentionLaws.
Import JsString JsNumber Reconcile Retention StringOrder.

Lemma cleanupLoop_app cutoff locked l2 : forall l1 (dir : gmap string Stat) n,
  cleanupLoop (l1 ++ l2) cutoff locked dir n =
    match cleanupLoop l1 cutoff locked dir n with
    | (dir', Some m) => cleanupLoop l2 cutoff locked dir' m
    | (dir', None) => (dir', None)
    end.
Proof.
  induction l1 as [|f l1 IH]; intros dir n; [reflexivity|].
  cbn [app cleanupLoop]. destruct (dir !! f) as [stats|]; [|reflexivity].
  destruct (expired cutoff stats); [destruct (locked f); [reflexivity|]|]; apply IH.
Qed.

(** A loop that meets no entry it cannot examine or remove goes through
    all the names: the expired entries among them are gone, every other
    entry is as it was, and the count is the number of entries removed. *)
Lemma cleanupLoop_spec cutoff locked : forall files (dir : gmap string Stat) n,
  NoDup files ->
  (forall f, f ∈ files ->
     exists stats, dir !! f = Some stats /\ expired cutoff stats && locked f = false) ->
  let out := cleanupLoop files cutoff locked dir n in
  (forall f, out.1 !! f =
     match dir !! f with
     | Some stats => if bool_decide (f ∈ files) && expired cutoff stats
                     then None else Some stats
     | None => None
     end) /\
  exists m, out.2 = Some m /\ (m + size out.1 = n + size dir)%nat.
Proof.
  induction files as [|f0 rest IH]; intros dir n Hnd Hin; cbv zeta.
  - cbn [cleanupLoop fst snd]. split; [|exists n; split; [reflexivity|lia]].
    intros f. destruct (dir !! f); [|reflexivity].
    rewrite bool_decide_eq_false_2; [reflexivity|]. apply not_elem_of_nil.
  - apply NoDup_cons in Hnd as [Hf0 Hnd]. cbn [cleanupLoop].
    destruct (Hin f0) as (stats0 & H0 & Hl0); [left|]. rewrite H0.
    destruct (expired cutoff stats0) eqn:E.
    + cbn [andb] in Hl0. rewrite Hl0.
      destruct (IH (delete f0 dir) (S n) Hnd) as (Hlook & m & Hm & Hsize).
      { intros f Hf. rewrite lookup_delete_ne by (intros ->; contradiction).
        apply Hin. now right. }
      split.
      * intros f. rewrite Hlook. destruct (decide (f = f0)) as [-> | Hne].
        -- rewrite lookup_delete_eq, H0, E.
           rewrite bool_decide_eq_true_2 by left. reflexivity.
        -- rewrite lookup_delete_ne by congruence.
           destruct (dir !! f); [|reflexivity].
           rewrite (bool_decide_ext (f ∈ rest) (f ∈ f0 :: rest)); [reflexivity|].
           rewrite elem_of_cons. tauto.
      * exists m. split; [exact Hm|].
        rewrite Hsize, map_size_delete_Some by eauto.
        assert (size dir <> 0%nat).
        { intros Hz. apply map_size_empty_inv in Hz. subst dir.
          rewrite lookup_empty in H0. discriminate. }
        lia.
    + destruct (IH dir n Hnd) as (Hlook & Hsize).
      { intros f Hf. apply Hin. now right. }
      split; [|exact Hsize].
      intros f. rewrite Hlook. destruct (decide (f = f0)) as [-> | Hne].
      * rewrite H0, E, andb_false_r.
        destruct (bool_decide _); reflexivity.
      * destruct (dir !! f); [|reflexivity].
        rewrite (bool_decide_ext (f ∈ rest) (f ∈ f0 :: rest)); [reflexivity|].
        rewrite elem_of_cons. tauto.
Qed.

(** X24: [cleanupOldFiles] over a listing without repeats.  An entry
    stops the clean-up when it cannot be examined, or when it is an expired
    plain file (modified before the cut-off, [keepDays] days before now)
    that cannot be removed.  If no listed entry stops it, the listed
    expired plain files are deleted, every other entry, directories
    included, is left as it was, and the count logged is the number of
    entries that disappeared.  Otherwise the clean-up ends at the first
    entry that stops it: the expired plain files listed before that entry
    are deleted, every other entry is left as it was, expired files listed
    after it included, and no count is logged.  Nothing is deleted when the
    directory cannot be listed. *)
Theorem cleanupOldFiles_deletes_expired_files
    (now keepDays : Z) (files : list string) (locked : string -> bool)
    (dir : gmap string Stat) :
  NoDup files ->
  let cutoff := now - keepDays * 86400000 in
  let old stats := isFile stats && (mtime stats <? cutoff) in
  let stops file :=
    match dir !! file with
    | Some stats => old stats && locked file
    | None => true
    end in
  let deleted (gone : list string) (after : gmap string Stat) :=
    forall file, after !! file =
      match dir !! file with
      | Some stats => if bool_decide (file ∈ gone) && old stats then None else Some stats
      | None => None
      end in
  let out := cleanupOldFiles now keepDays (Some files) locked dir in
  ((forall file, file ∈ files -> stops file = false) ->
     deleted files out.1 /\
     exists n, out.2 = Some n /\ (n + size out.1 = size dir)%nat) /\
  (forall before file rest,
     files = before ++ file :: rest ->
     (forall earlier, earlier ∈ before -> stops earlier = false) ->
     stops file = true ->
     deleted before out.1 /\ out.2 = None) /\
  cleanupOldFiles now keepDays None locked dir = (dir, None).
Proof.
  intros Hnd. cbv zeta. unfold cleanupOldFiles.
  assert (Hc : cutoffTime now keepDays = now - keepDays * 86400000)
    by (unfold cutoffTime; lia).
  rewrite Hc. set (cutoff := now - keepDays * 86400000).
  assert (Hgo : forall l : list string, (forall f, f ∈ l ->
                  match dir !! f with
                  | Some stats => isFile stats && (mtime stats <? cutoff) && locked f
                  | None => true
                  end = false) ->
                forall f, f ∈ l ->
                  exists stats, dir !! f = Some stats /\
                                expired cutoff stats && locked f = false).
  { intros l Hl f Hf. specialize (Hl f Hf).
    destruct (dir !! f) as [stats|]; [|discriminate]. eauto. }
  split; [|split; [|reflexivity]].
  - intros Hok.
    destruct (cleanupLoop_spec cutoff locked files dir 0 Hnd (Hgo files Hok))
      as (Hlook & n & Hn & Hsize).
    split; [exact Hlook|]. exists n. split; [exact Hn|exact Hsize].
  - intros before file rest -> Hok Hstop.
    apply NoDup_app in Hnd as (Hnb & Hdisj & _).
    rewrite cleanupLoop_app.
    destruct (cleanupLoop_spec cutoff locked before dir 0 Hnb (Hgo before Hok))
      as (Hlook & n & Hn & _).
    destruct (cleanupLoop before cutoff locked dir 0) as [dir' count].
    cbn [fst snd] in Hlook, Hn. subst count.
    assert (Hfile : dir' !! file = dir !! file).
    { rewrite Hlook. destruct (dir !! file); [|reflexivity].
      rewrite bool_decide_eq_false_2; [reflexivity|].
      intros Hin. apply (Hdisj file Hin). now left. }
    cbn [cleanupLoop]. rewrite Hfile.
    destruct (dir !! file) as [stats|]; [|split; [exact Hlook|reflexivity]].
    apply andb_true_iff in Hstop as [Hold Hlocked].
    unfold expired. rewrite Hold, Hlocked. split; [exact Hlook|reflexivity].
Qed.

(** A name in the listing has vanished from the directory: the expired
    file listed before it is deleted, the one listed after it is kept, and
    no count is logged. *)
Lemma cleanupOldFiles_deletes_expired_files_witness :
  let out := cleanupOldFiles 604805000 7
               (Some ["Extract_old.csv"; "ghost.tmp"; "Extract_older.csv"])
               Fixtures.unlocked Fixtures.downloads in
  out.1 !! "Extract_old.csv" = None /\
  out.1 !! "Extract_older.csv" = Fixtures.downloads !! "Extract_older.csv" /\
  out.2 = None.
Proof.
  cbv zeta.
  destruct (cleanupOldFiles_deletes_expired_files 604805000 7
              ["Extract_old.csv"; "ghost.tmp"; "Extract_older.csv"] Fixtures.unlocked Fixtures.downloads
              ltac:(apply (bool_decide_unpack _); vm_compute; exact I)) as (_ & Habort & _).
  cbv zeta in Habort.
  destruct (Habort ["Extract_old.csv"] "ghost.tmp" ["Extract_older.csv"] eq_refl)
    as (Hdel & Hcount).
  - intros f Hf. apply list_elem_of_singleton in Hf. subst f. reflexivity.
  - reflexivity.
  - split; [|split; [|exact Hcount]]; rewrite Hdel; reflexivity.
Defined.

Lemma sorted_last l x :
  StronglySorted (fun a b => String.leb a b = true) (l ++ [x]) ->
  Forall (fun y => String.leb y x = true) l.
Proof.
  induction l as [|y l IH]; cbn [app]; intros H; [constructor|].
  apply StronglySorted_inv in H as [H Hy]. constructor; [|auto].
  apply Forall_app in Hy as [_ Hy]. now apply Forall_inv in Hy.
Qed.

(** X25: the local feed that [runShopifyOnly] and [runCreateProductsOnly]
    pick is, among the directory entries whose name ends in [.csv] (in
    lower case) and contains [Extract], the one whose name is greatest in
    the order of code units; there is none exactly when no entry
    qualifies. *)
Theorem latestLocalFile_greatest (files : list string) :
  match latestLocalFile files with
  | Some latest =>
      latest ∈ files /\ is_extract latest = true /\
      forall file, file ∈ files -> is_extract file = true ->
                   String.leb file latest = true
  | None => forall file, file ∈ files -> is_extract file = false
  end.
Proof.
  unfold latestLocalFile.
  pose proof (sort_strings_perm (List.filter is_extract files)) as Hperm.
  pose proof (sort_strings_sorted (List.filter is_extract files)) as Hsorted.
  destruct (last (sort_strings (List.filter is_extract files))) as [latest|] eqn:E.
  - apply last_Some in E as [l' E]. rewrite E in Hperm, Hsorted.
    assert (Hin : forall file, file ∈ l' ++ [latest] <->
                               file ∈ files /\ is_extract file = true).
    { intros file. rewrite Hperm, !list_elem_of_In, List.filter_In. reflexivity. }
    destruct (proj1 (Hin latest)) as [H1 H2]; [apply elem_of_app; right; left|].
    split; [exact H1|]. split; [exact H2|].
    intros file Hf He. pose proof (proj2 (Hin file) (conj Hf He)) as Hl.
    apply elem_of_app in Hl as [Hl | Hl].
    + pose proof (sorted_last _ _ Hsorted) as Hall.
      rewrite Forall_forall in Hall. auto.
    + apply list_elem_of_singleton in Hl. subst. apply leb_refl.
  - apply last_None in E. rewrite E in Hperm. apply Permutation_nil in Hperm.
    intros file Hf. destruct (is_extract file) eqn:He; [|reflexivity].
    assert (Hin : file ∈ List.filter is_extract files)
      by (apply list_elem_of_In, List.filter_In; split; [apply list_elem_of_In|]; auto).
    rewrite Hperm in Hin. now apply elem_of_nil in Hin.
Qed.

End RetentionLaws.

(** ** Taxonomy categories *)

Module TaxonomyLaws.
Import JsString Taxonomy.

Lemma find_in_table (f : string * option Z -> bool) value :
  snd <$> List.find f categoryMap = Some value ->
  exists keyword, (keyword, value) ∈ categoryMap.
Proof.
  destruct (List.find f categoryMap) as [[k v]|] eqn:E; [|discriminate].
  intros [= <-]. apply List.find_some in E as [Hin _].
  exists k. now apply list_elem_of_In.
Qed.

Lemma table_range keyword categoryId :
  (keyword, Some categoryId) ∈ categoryMap -> 332 <= categoryId <= 345.
Proof.
  assert (H : Forall (fun entry => match entry.2 with
                                   | Some v => 332 <= v <= 345
                                   | None => True
                                   end) categoryMap).
  { unfold categoryMap. repeat (constructor; [cbn; try lia; exact I|]). constructor. }
  rewrite Forall_forall in H. intros Hin. exact (H _ Hin).
Qed.

Lemma firstHit_in_table terms value :
  firstHit terms = Some value -> exists keyword, (keyword, value) ∈ categoryMap.
Proof.
  induction terms as [|term terms IH]; cbn [firstHit]; [discriminate|].
  destruct (direct term) as [v|] eqn:Ed.
  - intros [= <-]. eapply find_in_table, Ed.
  - destruct (partial term) as [v|] eqn:Ep; [|exact IH].
    intros [= <-]. eapply find_in_table, Ep.
Qed.

Lemma findBestCategoryMatch_in_table categoryPath categoryId :
  findBestCategoryMatch categoryPath = Some categoryId ->
  exists keyword, (keyword, Some categoryId) ∈ categoryMap.
Proof.
  unfold findBestCategoryMatch. destruct categoryPath as [|c path]; [discriminate|].
  destruct (firstHit _) as [v|] eqn:Eh.
  - intros ->. eapply firstHit_in_table, Eh.
  - destruct (anywhere _) as [v|] eqn:Ea; [|discriminate].
    intros ->. eapply find_in_table, Ea.
Qed.

(** X26: the category of a row is either the fixed default identifier or
    a number that the table holds for some keyword, hence one between 332
    and 345; it is the default when the row has no category text; and when
    the last segment of a category path is a keyword of the table, the
    match of that path is the keyword's own entry, whatever the segments
    before it are. *)
Theorem getCategoryId_from_table (csvItem : gmap string string) :
  match getCategoryId csvItem with
  | inl categoryId =>
      332 <= categoryId <= 345 /\
      exists keyword, (keyword, Some categoryId) ∈ categoryMap
  | inr fallback => fallback = defaultJewelryCategory
  end /\
  (truthy (csvItem !! "Categories") = false ->
     getCategoryId csvItem = inr defaultJewelryCategory) /\
  (forall categoryPath earlier term value,
     categoryTerms categoryPath = earlier ++ [term] -> direct term = Some value ->
     findBestCategoryMatch categoryPath = value).
Proof.
  split; [|split].
  - unfold getCategoryId. destruct (csvItem !! "Categories") as [categories|]; [|reflexivity].
    destruct (truthy (Some categories)); [|reflexivity].
    destruct (firstCategory _) as [categoryId|] eqn:E; [|reflexivity].
    assert (H : exists keyword, (keyword, Some categoryId) ∈ categoryMap).
    { revert E. generalize (split ";"%char (chars categories)).
      induction l as [|categoryPath rest IH]; cbn [firstCategory]; [discriminate|].
      destruct (findBestCategoryMatch categoryPath) as [v|] eqn:Ef; [|exact IH].
      destruct (v =? 0); [exact IH|]. intros [= <-].
      eapply findBestCategoryMatch_in_table, Ef. }
    split; [|exact H]. destruct H as (keyword & H). eapply table_range, H.
  - unfold getCategoryId. destruct (csvItem !! "Categories") as [categories|]; [|reflexivity].
    intros ->. reflexivity.
  - intros categoryPath earlier term value Hterms Hdirect.
    unfold findBestCategoryMatch. destruct categoryPath as [|c path].
    + destruct earlier; discriminate Hterms.
    + rewrite Hterms, rev_app_distr. cbn [rev app firstHit]. now rewrite Hdirect.
Qed.

End TaxonomyLaws.

(** ** From the feed to the requests *)

Module EndToEnd.
Import JsString JsNumber Normalizer Reconcile Dispatch Schedule Shape.
Import ReconcileLaws MatcherLaws ScheduleLaws DispatchLaws.

Lemma changeset_parts csvData shopifyProducts o :
  changeset csvData shopifyProducts o =
    (create <$> List.filter (unmatched (indexBySku shopifyProducts)
                                       (indexByTitle shopifyProducts)) csvData) ++
    omap (update_for (indexBySku shopifyProducts) (indexByTitle shopifyProducts)
                     (enableUpdates o)) csvData.
Proof.
  unfold changeset, categorizeProducts. now rewrite categorize_fold.
Qed.

Section WithApi.
Context {api : CatalogApi}.

(** X27: a feed whose every row is already in the snapshot, as a match
    that mirrors the row, changes nothing: the changeset is empty, no batch
    is announced, no request is issued and every count stays at zero,
    whatever the options are.  A run that follows a complete run on the
    same feed is of this kind once the catalog holds what was sent. *)
Theorem unchanged_feed_is_a_no_op
    (csvData : list (gmap string string)) (shopifyProducts : list ExistingProduct)
    (o : Options) :
  (forall row, row ∈ csvData ->
     exists existingProduct,
       findExisting (indexBySku shopifyProducts) (indexByTitle shopifyProducts) row
         = Some existingProduct /\
       mirrors row existingProduct) ->
  changeset csvData shopifyProducts o = [] /\
  processProductsFromCSV csvData shopifyProducts o =
    Some {| results := initialResults (length csvData); trace := [] |}.
Proof.
  intros Hall.
  assert (Hset : changeset csvData shopifyProducts o = []).
  { rewrite changeset_parts.
    induction csvData as [|row rest IH]; [reflexivity|].
    destruct (Hall row) as (e & He & Hm); [left|].
    cbn [List.filter]. rewrite omap_cons. unfold unmatched at 1, update_for at 1.
    rewrite He, bool_decide_eq_false_2 by discriminate.
    rewrite (mirrors_unchanged row e Hm).
    destruct (enableUpdates o); apply IH; intros r Hr; apply Hall; now right. }
  split; [exact Hset|].
  unfold processProductsFromCSV. rewrite Hset. reflexivity.
Qed.

(** X28: outside a dry run, with a positive batch size, the requests that
    [processProductsFromCSV] issues are exactly: one create request for
    every row of the feed without a match, in feed order, followed by one
    update request for every matched row for which the comparator names a
    change, in feed order; a matched row without a change causes no
    request, and every request is counted once as created, updated or
    failed. *)
Theorem live_run_requests
    (csvData : list (gmap string string)) (shopifyProducts : list ExistingProduct)
    (o : Options) :
  1 <= batchSize o -> dryRun o = false ->
  let bySku := indexBySku shopifyProducts in
  let byTitle := indexByTitle shopifyProducts in
  exists st',
    processProductsFromCSV csvData shopifyProducts o = Some st' /\
    requests_issued (trace st') =
      (request_of <$> (create <$> List.filter (unmatched bySku byTitle) csvData)) ++
      (request_of <$> omap (update_for bySku byTitle (enableUpdates o)) csvData) /\
    (created (results st') + updated (results st') + errors (results st')
       = length (requests_issued (trace st')))%nat /\
    (length (requests_issued (trace st')) <= total (results st'))%nat /\
    total (results st') = length csvData.
Proof.
  intros Hb Hd. cbv zeta. unfold processProductsFromCSV.
  destruct (dispatch_live o (changeset csvData shopifyProducts o) (length csvData) Hb Hd)
    as (st' & Hrun & Hreq & Hacc & _ & Htot).
  exists st'. split; [exact Hrun|].
  rewrite Hreq, Hacc, Htot, length_fmap, changeset_parts, fmap_app, length_app, length_fmap.
  split; [reflexivity|]. split; [reflexivity|]. split; [|reflexivity].
  clear. induction csvData as [|row rest IH]; [cbn; lia|].
  cbn [List.filter length]. rewrite omap_cons.
  unfold unmatched at 1, update_for at 1.
  destruct (findExisting _ _ row) as [e|].
  - rewrite bool_decide_eq_false_2 by discriminate.
    destruct (enableUpdates o); [destruct (doesProductNeedUpdate row e)|]; cbn [length]; lia.
  - rewrite bool_decide_eq_true_2 by reflexivity. cbn [length]. lia.
Qed.

End WithApi.

Lemma unchanged_feed_is_a_no_op_witness :
  @processProductsFromCSV Scenarios.flaky [Scenarios.chain_before]
    [Scenarios.chain_in_catalog] Scenarios.live_options
  = Some {| results := initialResults 1; trace := [] |}.
Proof.
  refine (proj2 (@unchanged_feed_is_a_no_op Scenarios.flaky [Scenarios.chain_before]
                   [Scenarios.chain_in_catalog] Scenarios.live_options _)).
  intros row Hrow. apply list_elem_of_singleton in Hrow. subst row.
  exists Scenarios.chain_in_catalog. split; [reflexivity|].
  unfold mirrors. cbn. repeat split; reflexivity.
Defined.

Lemma live_run_requests_witness :
  exists st',
    @processProductsFromCSV Scenarios.flaky Scenarios.feed Scenarios.snapshot
      Scenarios.live_options = Some st' /\
    (created (results st') + updated (results st') + errors (results st')
       = length (requests_issued (trace st')))%nat.
Proof.
  destruct (@live_run_requests Scenarios.flaky Scenarios.feed Scenarios.snapshot
              Scenarios.live_options ltac:(cbn; lia) eq_refl)
    as (st' & H1 & _ & H2 & _).
  exists st'. auto.
Defined.

End EndToEnd.

(** ** Worked examples *)

Module Examples.
Import JsString JsNumber Normalizer Reconcile Dispatch Transfer Orchestrator Scenarios.

Example handle_of_title :
  Handle.generateHandle "14K Gold  Rope-Chain (18 in.)" = "14k-gold-rope-chain-18-in".
Proof. vm_compute. reflexivity. Qed.

Example handle_of_symbols :
  Handle.generateHandle "!!!" = "" /\ Handle.generateHandle "" = "product".
Proof. vm_compute. split; reflexivity. Qed.

Example prices :
  parsePrice (Some "$1,299.5") = "1299.50" /\ parsePrice (Some "n/a") = "0.00" /\
  parsePrice None = "0.00" /\ render2 "1.005" = "1.00" /\ render2 "0.125" = "0.13" /\
  render2 "19.999" = "20.00".
Proof. vm_compute. repeat split; reflexivity. Qed.

Example weight_in_grams : parseWeight (Some "1.5 oz") = of_Z 43.
Proof. vm_compute. reflexivity. Qed.

Example quantities :
  parseQuantity (Some " 12") = 12 /\ parseQuantity (Some "n/a") = 0 /\
  parseQuantity None = 0.
Proof. vm_compute. repeat split; reflexivity. Qed.

(** Only the stock of the stored chain moved: one change, one field. *)
Example inventory_only :
  let now := row "QG-200" "Rope Chain" "119.99" "7" in
  doesProductNeedUpdate now chain_in_catalog = [inventory_] /\
  patch_fields (buildUpdateData (mapCSVToShopifyProduct now) chain_in_catalog [inventory_])
    = [inventory_].
Proof. vm_compute. split; reflexivity. Qed.

(** A row that matches its stored product in every compared field. *)
Example unchanged_row_is_skipped :
  doesProductNeedUpdate chain_before chain_in_catalog = [] /\
  changeset [chain_before] [chain_in_catalog] live_options = [].
Proof. vm_compute. split; reflexivity. Qed.

(** The newer of two files wins whatever the listing order. *)
Example latest_by_date :
  let older := {| name := "Z.csv"; type := File; size := 1; modifiedAt := 10 |} in
  let newer := {| name := "A.CSV"; type := File; size := 1; modifiedAt := 20 |} in
  let folder := {| name := "x.csv"; type := Directory; size := 0; modifiedAt := 30 |} in
  getLatestCSVFile [older; folder; newer] = inl newer /\
  getLatestCSVFile [folder] = inr NoCsvFiles.
Proof. vm_compute. split; reflexivity. Qed.

(** A second trigger during a run is skipped; after the run fails the next
    trigger starts a new one. *)
Example overlapping_triggers :
  log (run [Trigger; Trigger; Settle Failed; Trigger]) =
    [JobStarted; AlreadyRunningSkipped; JobFailed; ConnectionClosed; JobStarted].
Proof. reflexivity. Qed.

(** A live run against an API that refuses every second request: three
    batches of at most three items, eight requests, and each of the eight
    items created, updated or reported as an error. *)
Example live_run_counts :
  option_map (fun st => (batches_announced (trace st), created (results st),
                         updated (results st), errors (results st),
                         length (requests_issued (trace st))))
             (@processProductsFromCSV flaky feed snapshot live_options)
  = Some (3%nat, 2%nat, 2%nat, 4%nat, 8%nat).
Proof. vm_compute. reflexivity. Qed.

End Examples.

(** ** Worked examples for the feed, the catalogue pages and the taxonomy *)

Module FeedExamples.
Import JsString JsNumber Normalizer Reconcile Dispatch Transfer Orchestrator Scenarios.

Example two_pages_are_joined :
  @Pagination.getAllProducts Fixtures.two_pages "https://shop.example/admin/api/2023-10"
  = (inl [chain_in_catalog; ring_in_catalog],
     [Pagination.Get "https://shop.example/admin/api/2023-10/products.json?limit=250";
      Pagination.Wait 100; Pagination.Get Fixtures.page_two_url]).
Proof. vm_compute. reflexivity. Qed.

Example third_attempt_succeeds :
  let out := Retry.downloadLatestCSV Fixtures.slash_join Fixtures.third_time "downloads" ∅ in
  (Retry.answer out, Retry.attempts out, Retry.disk out !! "downloads/Extract.csv",
   Retry.log out)
  = (Some (inl "downloads/Extract.csv"), 3%nat, Some "Item,Qty",
     [Retry.Sleep 5000; Retry.Reconnect; Retry.Sleep 5000; Retry.Reconnect]).
Proof. vm_compute. reflexivity. Qed.

Example week_old_files_are_deleted :
  let out := Retention.cleanupOldFiles 604805000 (Retention.keepFilesDays None)
               (Some ["Extract_new.csv"; "Extract_old.csv"; "Extract_older.csv"; "archive"])
               Fixtures.unlocked Fixtures.downloads in
  out.2 = Some 2%nat /\
  out.1 !! "Extract_old.csv" = None /\ out.1 !! "Extract_older.csv" = None /\
  out.1 !! "Extract_new.csv" = Fixtures.downloads !! "Extract_new.csv" /\
  out.1 !! "archive" = Fixtures.downloads !! "archive".
Proof. vm_compute. repeat split. Qed.

Example retention_days :
  Retention.keepFilesDays None = 7 /\ Retention.keepFilesDays (Some "0") = 7 /\
  Retention.keepFilesDays (Some "30") = 30 /\ Retention.keepFilesDays (Some "soon") = 7.
Proof. vm_compute. repeat split. Qed.

Example local_feed :
  Retention.latestLocalFile
    ["Extract_2024-01-01.csv"; "Extract_2024-02-01.csv"; "notes.csv"; "Extract_2024-03-01.CSV"]
  = Some "Extract_2024-02-01.csv".
Proof. vm_compute. reflexivity. Qed.

Example categories :
  Taxonomy.getCategoryId {[ "Categories" := "Jewelry > Rings; Jewelry > Sets" ]} = inl 340 /\
  Taxonomy.getCategoryId {[ "Categories" := "Gifts; Gold Earrings" ]} = inl 337 /\
  Taxonomy.getCategoryId {[ "Categories" := "cable chain339; Zzz" ]}
    = inr Taxonomy.defaultJewelryCategory /\
  Taxonomy.getCategoryId ∅ = inr Taxonomy.defaultJewelryCategory.
Proof. vm_compute. repeat split. Qed.

Example legacy_dry_run_counts :
  created (results (@Legacy.processBatchSequential accepting [ring; chain_now] empty_run true))
  = 2%nat /\
  created (results (@processBatchSequentialWithUpdates accepting
                      [create ring; create chain_now] empty_run true)) = 0%nat.
Proof. vm_compute. split; reflexivity. Qed.

End FeedExamples.
